(** * The diff-to-findings pipeline of the PR validation agents

    A shallow embedding of [scripts/analyze_code.py], [scripts/filter_diff.py]
    and [scripts/format_review.py], with the properties of the pipeline that
    the specification states about them.

    Conventions of the embedding.
    - A Python [str] is a [string]; one [ascii] stands for one character with
      code point below 256, and [len] counts characters, as Python's does.
    - Python integers are [Z].
    - A [dict] whose order matters is an association list with the update
      rule of Python's dictionaries; a [set] is a [gset]; a counter keyed by
      strings is a [gmap].
    - A JSON object read with [.get] is a record of optional fields. *)

From Stdlib Require Import ZArith QArith Ascii String List Permutation Sorted.
From Stdlib Require Import DecimalString.
From stdpp Require Import gmap strings list.

Local Open Scope Z_scope.
#[local] Set Warnings "-clear-no-such-hyp".

(** ** Python's string built-ins *)

Module PyStr.

Definition nl : string := String "010"%char "".

Definition len (s : string) : Z := Z.of_nat (String.length s).

(** [str.join] *)
Fixpoint join (sep : string) (l : list string) : string :=
  match l with
  | [] => ""
  | [x] => x
  | x :: l' => x +:+ sep +:+ join sep l'
  end.

(** [s.startswith(p)], returning what follows the prefix. *)
Fixpoint drop_prefix (p s : string) : option string :=
  match p, s with
  | "", _ => Some s
  | String a p', String b s' =>
      if Ascii.eqb a b then drop_prefix p' s' else None
  | String _ _, "" => None
  end.

Definition startswith (s p : string) : bool :=
  match drop_prefix p s with Some _ => true | None => false end.

(** [str.split(sep)] for a non-empty separator: the leftmost occurrences of
    [sep], not overlapping.  The fuel bounds the number of characters
    visited; [split] gives one more than the length, which is enough. *)
Fixpoint split_aux (fuel : nat) (sep s : string) : list string :=
  match fuel with
  | O => [s]
  | S fuel' =>
      match s with
      | "" => [""]
      | String c s' =>
          match drop_prefix sep s with
          | Some rest => "" :: split_aux fuel' sep rest
          | None =>
              match split_aux fuel' sep s' with
              | p :: ps => String c p :: ps
              | [] => [String c ""]
              end
          end
      end
  end.

Definition split (s sep : string) : list string :=
  split_aux (S (String.length s)) sep s.

(** [str.isspace] on one character. *)
Definition isspace (c : ascii) : bool :=
  let n := nat_of_ascii c in
  ((9 <=? n) && (n <=? 13) || (28 <=? n) && (n <=? 32)
   || (n =? 133) || (n =? 160))%nat.

Fixpoint lstrip (s : string) : string :=
  match s with
  | "" => ""
  | String c s' => if isspace c then lstrip s' else s
  end.

Definition rstrip (s : string) : string :=
  String.rev (lstrip (String.rev s)).

Definition strip (s : string) : string := lstrip (rstrip s).

(** Truth value of a string: non-empty. *)
Definition truthy (s : string) : bool :=
  match s with "" => false | _ => true end.

(** [str.lower]: the ASCII capitals and the Latin-1 capitals. *)
Definition lower_char (c : ascii) : ascii :=
  let n := nat_of_ascii c in
  if ((65 <=? n) && (n <=? 90)
      || (192 <=? n) && (n <=? 222) && negb (n =? 215))%nat
  then ascii_of_nat (n + 32) else c.

Fixpoint lower (s : string) : string :=
  match s with
  | "" => ""
  | String c s' => String (lower_char c) (lower s')
  end.

(** [str.isdigit]: the decimal digits and the superscripts one, two, three;
    false on the empty string. *)
Definition isdigit_char (c : ascii) : bool :=
  let n := nat_of_ascii c in
  ((48 <=? n) && (n <=? 57) || (n =? 178) || (n =? 179) || (n =? 185))%nat.

Fixpoint all_chars (p : ascii -> bool) (s : string) : bool :=
  match s with
  | "" => true
  | String c s' => p c && all_chars p s'
  end.

Definition isdigit (s : string) : bool := truthy s && all_chars isdigit_char s.

(** [s[:n]] *)
Definition prefix_slice (n : nat) (s : string) : string := String.substring 0 n s.

(** [str(n)] for an integer. *)
Definition str_of_int (z : Z) : string := NilZero.string_of_int (Z.to_int z).

(** The value that [int(s)] gives for a string of digit characters: [None]
    stands for the [ValueError] raised on a character that is no decimal
    digit.  The limit of [int] and [str] on the number of digits is applied
    where they are called. *)
Definition decimal_value (c : ascii) : option Z :=
  let n := nat_of_ascii c in
  if ((48 <=? n) && (n <=? 57))%nat then Some (Z.of_nat (n - 48)) else None.

Fixpoint int_of_digits (acc : Z) (s : string) : option Z :=
  match s with
  | "" => Some acc
  | String c s' =>
      match decimal_value c with
      | Some d => int_of_digits (10 * acc + d) s'
      | None => None
      end
  end.

(** The limit on the digits of an integer that [int(s)] and [str(n)]
    convert, [sys.int_info.default_max_str_digits]. *)
Definition int_max_str_digits : nat := 4300.

(** The number of decimal digits of an integer. *)
Definition digits (z : Z) : nat := String.length (str_of_int (Z.abs z)).

End PyStr.

Import PyStr.

(** ** DiffChunker: [chunk_diff] of [analyze_code.py] *)

Module Chunker.

Definition header : string := "diff --git ".

(** The three loop variables of [chunk_diff]. *)
Record state := State {
  chunks : list string;
  current_chunk : list string;
  current_size : Z
}.

(** [enumerate] *)
Definition enumerate {A} (l : list A) : list (nat * A) :=
  combine (seq 0 (length l)) l.

(** The section built from the [i]-th piece of the split. *)
Definition section_of (i : nat) (file_diff : string) : string :=
  if (0 <? i)%nat then header +:+ file_diff else file_diff.

(** One iteration of the loop over [enumerate(file_diffs)]. *)
Definition step (max_chars : Z) (st : state) (p : nat * string) : state :=
  let '(i, file_diff) := p in
  if (i =? 0)%nat && negb (truthy (strip file_diff)) then st
  else
    let section := section_of i file_diff in
    let section_size := len section in
    let st' :=
      if (max_chars <? current_size st + section_size)
         && negb (bool_decide (current_chunk st = []))
      then State (chunks st ++ [join nl (current_chunk st)]) [] 0
      else st in
    State (chunks st') (current_chunk st' ++ [section])
          (current_size st' + section_size).

Definition finish (st : state) : list string :=
  if bool_decide (current_chunk st = []) then chunks st
  else chunks st ++ [join nl (current_chunk st)].

Definition chunk_diff (diff_content : string) (max_tokens : Z) : list string :=
  let max_chars := max_tokens * 4 in
  if len diff_content <=? max_chars then [diff_content]
  else
    let file_diffs := split diff_content header in
    finish (fold_left (step max_chars) (enumerate file_diffs) (State [] [] 0)).

(** *** The sections behind the chunks

    [chunk_diff] keeps only the joined text of a chunk.  The same loop,
    keeping each chunk as the list of sections it was joined from. *)
Record gstate := GState {
  groups : list (list string);
  current_group : list string;
  group_size : Z
}.

Definition gstep (max_chars : Z) (st : gstate) (p : nat * string) : gstate :=
  let '(i, file_diff) := p in
  if (i =? 0)%nat && negb (truthy (strip file_diff)) then st
  else
    let section := section_of i file_diff in
    let section_size := len section in
    let st' :=
      if (max_chars <? group_size st + section_size)
         && negb (bool_decide (current_group st = []))
      then GState (groups st ++ [current_group st]) [] 0
      else st in
    GState (groups st') (current_group st' ++ [section])
           (group_size st' + section_size).

Definition gfinish (st : gstate) : list (list string) :=
  if bool_decide (current_group st = []) then groups st
  else groups st ++ [current_group st].

Definition chunk_sections (diff_content : string) (max_tokens : Z)
  : list (list string) :=
  let max_chars := max_tokens * 4 in
  if len diff_content <=? max_chars then [[diff_content]]
  else
    let file_diffs := split diff_content header in
    gfinish (fold_left (gstep max_chars) (enumerate file_diffs) (GState [] [] 0)).

(** The text before the first header, when the loop skips it. *)
Definition dropped_preamble (diff_content : string) (max_tokens : Z) : string :=
  if len diff_content <=? max_tokens * 4 then ""
  else
    match split diff_content header with
    | p0 :: _ => if truthy (strip p0) then "" else p0
    | [] => ""
    end.

(** Concatenation of a list of strings. *)
Definition concat_str (l : list string) : string := fold_right String.append "" l.

End Chunker.

(** ** The data model: JSON objects read with [.get]

    The analysis results are JSON objects (Python dictionaries).  A field
    that may be absent is an [option]; [r.get(k, d)] is [default d (k r)].  The fields that the model response may
    fill with a number, a string or [null] are of type [value]; values of
    other JSON types do not occur in the model. *)

Inductive value :=
  | VNone
  | VInt (z : Z)
  | VStr (s : string).

#[global] Instance value_eq_dec : EqDecision value.
Proof. solve_decision. Defined.

#[global] Instance value_countable : Countable value.
Proof.
  refine (inj_countable'
    (fun v => match v with
              | VNone => inl ()
              | VInt z => inr (inl z)
              | VStr s => inr (inr s)
              end)
    (fun x => match x with
              | inl _ => VNone
              | inr (inl z) => VInt z
              | inr (inr s) => VStr s
              end) _).
  by intros [].
Defined.

(** Truth value of a Python object: [None], [0] and the empty string are
    false. *)
Definition truthy_value (v : value) : bool :=
  match v with
  | VNone => false
  | VInt z => negb (z =? 0)
  | VStr s => truthy s
  end.

(** [str(v)], as an f-string renders a value. *)
Definition str_of_value (v : value) : string :=
  match v with
  | VNone => "None"
  | VInt z => str_of_int z
  | VStr s => s
  end.

(** [d.get(k)]: an absent key reads as [None]. *)
Definition get_or_none (o : option value) : value := default VNone o.

(** One violation of a rule.  The severity, the rule name, the explanation
    and the suggestion are strings when they are present; the file, the line
    and the rule identifier are values, so that a line may be [10], ["10"],
    ["?"] or [null].  [_source] and [_language] are the provenance tags that
    [aggregate_violations] writes. *)
Record violation := Violation {
  severity : option string;
  rule_id : option value;
  rule_name : option string;
  file : option value;
  line : option value;
  explanation : option string;
  suggestion : option string;
  _source : option string;
  _language : option value
}.

Record metrics_dict := Metrics {
  files_analyzed : option Z;
  total_lines : option Z;
  violation_density : option Q
}.

Record metadata_dict := Metadata {
  language : option value
}.

(** One analysis result.  [error] and [raw_response] are present in the
    result of a failed parse only. *)
Record result := Result {
  error : option string;
  raw_response : option string;
  summary : option string;
  violations : option (list violation);
  passed_checks : option (list string);
  recommendations : option (list string);
  metrics : option metrics_dict;
  metadata : option metadata_dict;
  _source_file : option string
}.

(** A computation that may raise: an exception is its class and its
    message. *)
Inductive outcome (A : Type) :=
  | Returned (a : A)
  | Raised (exception message : string).
Arguments Returned {A} a.
Arguments Raised {A} exception message.

Definition bind {A B} (m : outcome A) (f : A -> outcome B) : outcome B :=
  match m with
  | Returned a => f a
  | Raised e msg => Raised e msg
  end.

(** What [json.loads] gives: a JSON object, seen through the fields of a
    result, or a JSON value of another kind. *)
#[local] Set Warnings "-register-all".
Inductive payload :=
  | PObject (r : result)
  | PArray (items : list payload)
  | PString (s : string)
  | PInt (n : Z)
  | PFloat (q : Q)
  | PBool (b : bool)
  | PNull.

(** ** ResultAggregator, contract A: [merge_chunk_results] of
    [analyze_code.py] *)

Module Merge.

(** What the first loop accumulates: [summaries], the four fields of
    [merged] it extends, and [total_lines]. *)
Record acc := Acc {
  summaries : list string;
  acc_violations : list violation;
  acc_passed_checks : gset string;
  acc_recommendations : list string;
  acc_files_analyzed : Z;
  acc_total_lines : Z
}.

Definition empty_metrics : metrics_dict := Metrics None None None.

Definition init : acc := Acc [] [] ∅ [] 0 0.

(** One iteration of [for result in results]. *)
Definition step (a : acc) (r : result) : acc :=
  match error r with
  | Some _ => a
  | None =>
      let m := default empty_metrics (metrics r) in
      Acc (summaries a ++ [default "" (summary r)])
          (acc_violations a ++ default [] (violations r))
          (acc_passed_checks a ∪ list_to_set (default [] (passed_checks r)))
          (acc_recommendations a ++ default [] (recommendations r))
          (acc_files_analyzed a + default 0 (files_analyzed m))
          (acc_total_lines a + default 0 (total_lines m))
  end.

(** The identity of a violation: [(v.get('file'), v.get('line'),
    v.get('rule_id'))]. *)
Definition key (v : violation) : value * value * value :=
  (get_or_none (file v), get_or_none (line v), get_or_none (rule_id v)).

(** One iteration of the deduplication loop over [seen] and
    [unique_violations]. *)
Definition dedup_step (st : gset (value * value * value) * list violation)
    (v : violation) : gset (value * value * value) * list violation :=
  if decide (key v ∈ st.1) then st
  else ({[key v]} ∪ st.1, st.2 ++ [v]).

Definition unique_violations (l : list violation) : list violation :=
  (fold_left dedup_step l (∅, [])).2.

(** [len(unique_violations) / total_lines].  The code holds the float
    nearest to this quotient; the model keeps the quotient itself, as the
    two integers divided, so that equal densities of the model are equal
    floats of the code.  Without lines the density stays the integer 0. *)
Definition density (n : nat) (total : Z) : Q :=
  if 0 <? total then Qmake (Z.of_nat n) (Z.to_pos total) else 0%Q.

Definition merge_chunk_results (results : list result) : result :=
  let a := fold_left step results init in
  let unique := unique_violations (acc_violations a) in
  Result None None
    (Some (if bool_decide (summaries a = []) then "Analysis complete."
           else join " " (summaries a)))
    (Some unique)
    (Some (elements (acc_passed_checks a)))
    (Some (elements (list_to_set (C := gset string) (acc_recommendations a))))
    (Some (Metrics (Some (acc_files_analyzed a)) (Some (acc_total_lines a))
                   (Some (density (length unique) (acc_total_lines a)))))
    None None.

(** The results that carry no [error]. *)
Definition usable (r : result) : bool :=
  match error r with Some _ => false | None => true end.

(** The violations the first loop concatenates. *)
Definition all_violations (results : list result) : list violation :=
  concat (map (fun r => default [] (violations r)) (filter usable results)).

End Merge.

(** ** ResponseNormalizer: the parsing of [analyze_with_llm] in
    [analyze_code.py] *)

Module Normalizer.

Definition fence : string := "```".

(** The loop that extracts the content between code fences: [in_json] is its
    flag, the result is [json_lines]. *)
Fixpoint fence_lines (in_json : bool) (lines : list string) : list string :=
  match lines with
  | [] => []
  | line :: rest =>
      if startswith line fence && negb in_json then fence_lines true rest
      else if startswith line fence && in_json then []
      else if in_json then line :: fence_lines in_json rest
      else fence_lines in_json rest
  end.

(** The text handed to [json.loads]. *)
Definition response_text (response : string) : string :=
  let response_text := strip response in
  if startswith response_text fence
  then join nl (fence_lines false (split response_text nl))
  else response_text.

Definition JSONDecodeError : string := "JSONDecodeError".

(** The result returned from the [except] branch. *)
Definition parse_failure (response message : string) : result :=
  Result (Some ("Failed to parse LLM response as JSON: " +:+ message))
         (Some (prefix_slice 500 response))
         (Some "Analysis failed due to response parsing error")
         (Some []) None None None None None.

Section with_json.

(** [json.loads], of Python's library: the value parsed, or the exception
    it raises. *)
Variable json_loads : string -> outcome payload.

(** The [try] block of [analyze_with_llm], applied to the response of the
    query: what [json.loads] gives is returned as it is, and only a
    [JSONDecodeError] is caught. *)
Definition normalize (response : string) : outcome payload :=
  match json_loads (response_text response) with
  | Returned parsed => Returned parsed
  | Raised exception message =>
      if String.eqb exception JSONDecodeError
      then Returned (PObject (parse_failure response message))
      else Raised exception message
  end.

(** The user message. *)
Definition user_message (diff_content : string) (language : option string) : string :=
  "Please analyze the following code diff for rule violations:" +:+ nl +:+ nl
  +:+ "```diff" +:+ nl +:+ diff_content +:+ nl +:+ "```" +:+ nl +:+ nl
  +:+ "Identify any violations of the rules specified in your instructions. Be thorough but avoid false positives."
  +:+ nl
  +:+ match language with
      | Some l => if truthy l then "Focus on " +:+ l +:+ " specific patterns." else ""
      | None => ""
      end
  +:+ nl.

(** The client: a state [client], and [query], the call
    [client.query(system_prompt, user_message, temperature=0.1,
    max_tokens=4000)], which gives the response or the exception it raises,
    and the client after the call. *)
Context {client : Type}.
Variable query : client -> string -> string -> outcome string * client.

(** [analyze_with_llm]: the query stands before the [try] block, so that
    its exception is the exception of the call. *)
Definition analyze_with_llm (self : client) (diff_content system_prompt : string)
    (language : option string) : outcome payload * client :=
  let '(response, self') :=
    query self system_prompt (user_message diff_content language) in
  (bind response normalize, self').

End with_json.

End Normalizer.

(** ** DiffSegmenter: [parse_diff_sections] of [filter_diff.py] *)

Module Segmenter.

(** The second group of [^diff --git a/(.+?) b/(.+)$] on what follows the
    first character of the first group: the text behind the first [" b/"]
    that has text behind it. *)
Fixpoint find_new_path (s : string) : option string :=
  match s with
  | "" => None
  | String _ s' =>
      match drop_prefix " b/" s with
      | Some p => if truthy p then Some p else find_new_path s'
      | None => find_new_path s'
      end
  end.

(** [re.match(r'^diff --git a/(.+?) b/(.+)$', line)] on a line without
    newline, giving [match.group(2)]. *)
Definition match_header (line : string) : option string :=
  match drop_prefix "diff --git a/" line with
  | Some (String _ rest) => find_new_path rest
  | _ => None
  end.

(** [d[k] = v] on a dictionary, which keeps its keys in the order of their
    first insertion. *)
Fixpoint dict_set (d : list (string * string)) (k v : string)
  : list (string * string) :=
  match d with
  | [] => [(k, v)]
  | (k', v') :: d' =>
      if decide (k' = k) then (k, v) :: d' else (k', v') :: dict_set d' k v
  end.

Fixpoint dict_get (d : list (string * string)) (k : string) : option string :=
  match d with
  | [] => None
  | (k', v') :: d' => if decide (k' = k) then Some v' else dict_get d' k
  end.

Record state := State {
  sections : list (string * string);
  current_file : option string;
  current_content : list string
}.

(** "Save previous section" and "Save last section". *)
Definition save (st : state) : list (string * string) :=
  match current_file st with
  | Some f => dict_set (sections st) f (join nl (current_content st))
  | None => sections st
  end.

(** One iteration of the loop over the lines. *)
Definition step (st : state) (line : string) : state :=
  match match_header line with
  | Some new_path => State (save st) (Some new_path) [line]
  | None =>
      match current_file st with
      | Some _ => State (sections st) (current_file st) (current_content st ++ [line])
      | None => st
      end
  end.

Definition parse_lines (lines : list string) : list (string * string) :=
  save (fold_left step lines (State [] None [])).

Definition parse_diff_sections (diff_content : string) : list (string * string) :=
  parse_lines (split diff_content nl).

End Segmenter.

(** ** ResultAggregator, contract B, and ReportFormatter:
    [format_review.py] *)

Module Review.

Definition SEVERITY_ORDER : list string :=
  ["critical"; "high"; "medium"; "low"; "info"].

(** The symbols of the table are text outside the character range of the
    model; they are written as the bytes of the source file and nothing
    inspects them. *)
Definition SEVERITY_EMOJI (sev : string) : option string :=
  if decide (sev = "critical") then Some "üö®"
  else if decide (sev = "high") then Some "‚ùå"
  else if decide (sev = "medium") then Some "‚ö†Ô∏è"
  else if decide (sev = "low") then Some "üí°"
  else if decide (sev = "info") then Some "‚ÑπÔ∏è"
  else None.

(** [l.index(x)] when [x in l]. *)
Fixpoint index_of (x : string) (l : list string) : option nat :=
  match l with
  | [] => None
  | y :: l' => if decide (y = x) then Some O else S <$> index_of x l'
  end.

(** [v.get('severity', 'medium').lower()] *)
Definition effective_severity (v : violation) : string :=
  lower (default "medium" (severity v)).

Definition severity_key (v : violation) : Z :=
  let sev := effective_severity v in
  match index_of sev SEVERITY_ORDER with
  | Some i => Z.of_nat i
  | None => 99
  end.

(** [sorted(l, key=k)]: a stable sort, here by insertion from the right;
    an element goes before the elements of the same key that came after
    it. *)
Fixpoint insert_by {A} (k : A -> Z) (x : A) (l : list A) : list A :=
  match l with
  | [] => [x]
  | y :: l' => if k x <=? k y then x :: y :: l' else y :: insert_by k x l'
  end.

Definition sorted_by {A} (k : A -> Z) (l : list A) : list A :=
  foldr (insert_by k) [] l.

(** The two provenance tags written into a violation. *)
Definition tag (source : string) (lang : value) (v : violation) : violation :=
  Violation (severity v) (rule_id v) (rule_name v) (file v) (line v)
            (explanation v) (suggestion v) (Some source) (Some lang).

(** [all_violations] after the two nested loops. *)
Definition collect (results : list result) : list violation :=
  flat_map
    (fun r =>
       let source := default "unknown" (_source_file r) in
       let lang :=
         default (VStr "common") (language (default (Metadata None) (metadata r))) in
       map (tag source lang) (default [] (violations r)))
    results.

Definition aggregate_violations (results : list result) : list violation :=
  sorted_by severity_key (collect results).

(** The first severity of the order that is among [severities]. *)
Fixpoint first_present (order severities : list string) : option string :=
  match order with
  | [] => None
  | sev :: order' =>
      if bool_decide (sev ∈ severities) then Some sev
      else first_present order' severities
  end.

Definition get_max_severity (violations : list violation) : string :=
  match violations with
  | [] => "none"
  | _ =>
      let severities := map effective_severity violations in
      default "medium" (first_present SEVERITY_ORDER severities)
  end.

(** One inline comment. [c_line] is [None] where the Python value is
    [None]. *)
Record comment := Comment {
  c_path : value;
  c_line : option Z;
  c_body : string;
  c_severity : string
}.

(** [str(n)] of an integer, which raises beyond the limit on the digits. *)
Definition checked_str_of_int (z : Z) : outcome string :=
  if (int_max_str_digits <? digits z)%nat then
    Raised "ValueError"
           "Exceeds the limit (4300 digits) for integer string conversion; use sys.set_int_max_str_digits() to increase the limit"
  else Returned (str_of_int z).

(** A value as an f-string renders it. *)
Definition format_value (v : value) : outcome string :=
  match v with
  | VInt z => checked_str_of_int z
  | _ => Returned (str_of_value v)
  end.

(** [int(line) if isinstance(line, (int, str)) and str(line).isdigit()
    else None].  [int] raises [ValueError] on a digit character that is no
    decimal digit, and on more decimal digits than the limit. *)
Definition line_number (line : value) : outcome (option Z) :=
  match line with
  | VNone => Returned None
  | VInt z =>
      bind (checked_str_of_int z)
           (fun text => Returned (if isdigit text then Some z else None))
  | VStr s =>
      if isdigit s then
        match int_of_digits 0 s with
        | Some n =>
            if (int_max_str_digits <? String.length s)%nat then
              Raised "ValueError"
                     ("Exceeds the limit (4300 digits) for integer string conversion: value has "
                      +:+ str_of_int (len s)
                      +:+ " digits; use sys.set_int_max_str_digits() to increase the limit")
            else Returned (Some n)
        | None =>
            Raised "ValueError"
                   ("invalid literal for int() with base 10: '" +:+ s +:+ "'")
        end
      else Returned None
  end.

(** The body of the loop of [extract_inline_comments]: [None] for
    [continue]. *)
Definition comment_of (v : violation) : outcome (option comment) :=
  let file_path := get_or_none (file v) in
  let line := get_or_none (line v) in
  if negb (truthy_value file_path) || negb (truthy_value line)
     || bool_decide (line = VStr "?")
  then Returned None
  else
    let severity := effective_severity v in
    let emoji := default "‚ö†Ô∏è" (SEVERITY_EMOJI severity) in
    let rule_id := default (VStr "") (rule_id v) in
    let explanation := default "Issue detected" (explanation v) in
    let suggestion := default "" (suggestion v) in
    bind (format_value rule_id) (fun rule_text =>
    let body := emoji +:+ " **" +:+ rule_text +:+ "**: " +:+ explanation in
    let body :=
      if truthy suggestion
      then body +:+ nl +:+ nl +:+ "üí° " +:+ suggestion
      else body in
    bind (line_number line)
         (fun n => Returned (Some (Comment file_path n body severity)))).

Fixpoint inline_loop (violations : list violation) : outcome (list comment) :=
  match violations with
  | [] => Returned []
  | v :: violations' =>
      bind (comment_of v) (fun c =>
      bind (inline_loop violations') (fun inline =>
      Returned (match c with Some c => c :: inline | None => inline end)))
  end.

Definition has_line (c : comment) : bool :=
  match c_line c with Some _ => true | None => false end.

Definition extract_inline_comments (violations : list violation)
  : outcome (list comment) :=
  bind (inline_loop violations)
       (fun inline => Returned (List.filter has_line inline)).

(** The parts of the summary that [main] computes from the violations:
    [inline_comments[:20]] and the count by severity. *)
Definition inline_comments (violations : list violation) : outcome (list comment) :=
  bind (extract_inline_comments violations)
       (fun inline => Returned (take 20 inline)).

Definition count_step (by_severity : gmap string Z) (v : violation)
  : gmap string Z :=
  let sev := default "medium" (severity v) in
  <[sev := default 0 (by_severity !! sev) + 1]> by_severity.

Definition by_severity (violations : list violation) : gmap string Z :=
  fold_left count_step violations ∅.

End Review.

(** ** DiffSegmenter: [filter_diff] of [filter_diff.py] *)

Module Filter.

(** [s.lstrip('/')] *)
Fixpoint lstrip_slash (s : string) : string :=
  match s with
  | "" => ""
  | String c s' => if Ascii.eqb c "/" then lstrip_slash s' else s
  end.

(** [include_set]: the files to include, also without leading slashes. *)
Definition include_set (include_files : list string) : gset string :=
  list_to_set include_files ∪ list_to_set (lstrip_slash <$> include_files).

(** [file_path in include_set or normalized_path in include_set] *)
Definition included (include_files : list string) (file_path : string) : bool :=
  let normalized_path := lstrip_slash file_path in
  bool_decide (file_path ∈ include_set include_files)
  || bool_decide (normalized_path ∈ include_set include_files).

Section with_regex.

(** [re.search(pattern, text)], of Python's library: whether it finds a
    match, or the exception it raises on a pattern it cannot compile. *)
Variable re_search : string -> string -> outcome bool.

(** [any(re.search(pattern, file_path) for pattern in exclude_patterns)]:
    the patterns are tried in order, up to the first that matches. *)
Fixpoint any_match (exclude_patterns : list string) (file_path : string)
  : outcome bool :=
  match exclude_patterns with
  | [] => Returned false
  | pattern :: rest =>
      bind (re_search pattern file_path)
           (fun found => if found then Returned true else any_match rest file_path)
  end.

(** The loop over [sections.items()], giving [filtered_sections].  An absent
    or empty list of patterns excludes nothing. *)
Fixpoint filter_loop (include_files : list string)
    (exclude_patterns : option (list string))
    (sections : list (string * string)) : outcome (list string) :=
  match sections with
  | [] => Returned []
  | (file_path, content) :: rest =>
      if included include_files file_path then
        match exclude_patterns with
        | Some (pattern :: patterns) =>
            bind (any_match (pattern :: patterns) file_path) (fun excluded =>
            bind (filter_loop include_files exclude_patterns rest) (fun filtered =>
            Returned (if excluded then filtered else content :: filtered)))
        | _ =>
            bind (filter_loop include_files exclude_patterns rest) (fun filtered =>
            Returned (content :: filtered))
        end
      else filter_loop include_files exclude_patterns rest
  end.

Definition filter_diff (diff_content : string) (include_files : list string)
    (exclude_patterns : option (list string)) : outcome string :=
  bind (filter_loop include_files exclude_patterns
          (Segmenter.parse_diff_sections diff_content))
       (fun filtered_sections => Returned (join nl filtered_sections)).

(** The two numbers that [main] reports: the files of the diff and the files
    of the filtered diff. *)
Definition file_counts (diff_content filtered : string) : nat * nat :=
  (length (Segmenter.parse_diff_sections diff_content),
   length (Segmenter.parse_diff_sections filtered)).

End with_regex.

End Filter.

(** ** ReportFormatter: the summary that [main] of [format_review.py]
    writes *)

Module Summary.

(** The counts by language: [v.get('_language', 'common')]. *)
Definition language_step (by_language : gmap value Z) (v : violation)
  : gmap value Z :=
  let lang := default (VStr "common") (_language v) in
  <[lang := default 0 (by_language !! lang) + 1]> by_language.

Definition language_counts (violations : list violation) : gmap value Z :=
  fold_left language_step violations ∅.

(** The summary dictionary.  The two counts are absent from the summary
    written when there are no results. *)
Record summary_dict := SummaryDict {
  has_violations : bool;
  total_violations : Z;
  max_severity : string;
  by_severity : option (gmap string Z);
  by_language : option (gmap value Z);
  inline_comments : list Review.comment
}.

(** [main] from the loaded results on, as far as the summary goes: without
    results the fixed summary, otherwise the summary of the aggregated
    violations.  The inline comments are extracted before the summary is
    built, so an exception of theirs leaves no summary. *)
Definition main_summary (results : list result) : outcome summary_dict :=
  match results with
  | [] => Returned (SummaryDict false 0 "none" None None [])
  | _ =>
      let violations := Review.aggregate_violations results in
      bind (Review.extract_inline_comments violations) (fun inline_comments =>
      Returned
        (SummaryDict (0 <? Z.of_nat (length violations))
                     (Z.of_nat (length violations))
                     (Review.get_max_severity violations)
                     (Some (Review.by_severity violations))
                     (Some (language_counts violations))
                     (take 20 inline_comments)))
  end.

End Summary.

(** ** LanguageDetector: [detect_language.py] *)

Module Detect.

(** A dictionary with string keys, in the order of the first insertion of
    its keys. *)
Fixpoint table_set {A} (d : list (string * A)) (k : string) (v : A)
  : list (string * A) :=
  match d with
  | [] => [(k, v)]
  | (k', v') :: d' =>
      if decide (k' = k) then (k, v) :: d' else (k', v') :: table_set d' k v
  end.

Fixpoint table_get {A} (d : list (string * A)) (k : string) : option A :=
  match d with
  | [] => None
  | (k', v') :: d' => if decide (k' = k) then Some v' else table_get d' k
  end.

Definition EXTENSION_MAP : list (string * string) :=
  [ ("py", "python"); ("pyi", "python"); ("pyx", "python");
    ("java", "java");
    ("js", "javascript"); ("jsx", "javascript"); ("ts", "javascript");
    ("tsx", "javascript"); ("mjs", "javascript"); ("cjs", "javascript");
    ("go", "go");
    ("rs", "rust");
    ("c", "c"); ("h", "c"); ("cpp", "cpp"); ("hpp", "cpp"); ("cc", "cpp");
    ("cxx", "cpp");
    ("rb", "ruby");
    ("php", "php");
    ("sh", "shell"); ("bash", "shell"); ("zsh", "shell");
    ("tf", "terraform"); ("hcl", "terraform");
    ("yaml", "yaml"); ("yml", "yaml"); ("json", "json"); ("toml", "toml");
    ("html", "html"); ("css", "css"); ("scss", "css"); ("sass", "css");
    ("less", "css");
    ("sql", "sql");
    ("kt", "kotlin"); ("kts", "kotlin");
    ("swift", "swift");
    ("scala", "scala"); ("sc", "scala") ].

(** The double quote. *)
Definition dq : string := String "034" "".

Definition CONTENT_PATTERNS : list (string * list string) :=
  [ ("python",
     [ "^#!/usr/bin/env python";
       "^#!/usr/bin/python";
       "^import\s+\w+";
       "^from\s+\w+\s+import";
       "^def\s+\w+\s*\(";
       "^class\s+\w+(\s*\(.*\))?\s*:" ]);
    ("javascript",
     [ "^import\s+.*\s+from\s+[" +:+ dq +:+ "\']";
       "^const\s+\w+\s*=";
       "^let\s+\w+\s*=";
       "^export\s+(default\s+)?(function|class|const)";
       "^\s*function\s+\w+\s*\(";
       "^\s*class\s+\w+\s*(extends|{)" ]);
    ("java",
     [ "^package\s+[\w.]+;";
       "^import\s+[\w.]+;";
       "^public\s+(class|interface|enum)\s+\w+";
       "^@\w+(\(.*\))?$" ]);
    ("go",
     [ "^package\s+\w+";
       "^import\s+\(";
       "^func\s+(\(\w+\s+\*?\w+\)\s+)?\w+\(";
       "^type\s+\w+\s+(struct|interface)\s*{" ]);
    ("terraform",
     [ "^resource\s+" +:+ dq +:+ "[\w_]+" +:+ dq;
       "^provider\s+" +:+ dq +:+ "[\w_]+" +:+ dq;
       "^variable\s+" +:+ dq +:+ "[\w_]+" +:+ dq;
       "^module\s+" +:+ dq +:+ "[\w_]+" +:+ dq;
       "^terraform\s*{" ]);
    ("kubernetes",
     [ "^apiVersion:\s*";
       "^kind:\s*(Deployment|Service|ConfigMap|Pod|Ingress)";
       "^metadata:\s*$";
       "^spec:\s*$" ]);
    ("shell",
     [ "^#!/bin/(ba)?sh";
       "^#!/usr/bin/env\s+(ba)?sh";
       "^\s*if\s+\[\[?\s+";
       "^\s*for\s+\w+\s+in\s+" ]) ].

(** [s.lstrip('.')] *)
Fixpoint lstrip_dot (s : string) : string :=
  match s with
  | String c s' => if Ascii.eqb c "." then lstrip_dot s' else s
  | "" => ""
  end.

(** [scores[language] = scores.get(language, 0) + 1] *)
Definition bump (scores : list (string * Z)) (language : string)
  : list (string * Z) :=
  table_set scores language (default 0 (table_get scores language) + 1).

(** [max(scores, key=scores.get)] from the first key on: a later key wins
    only with a greater score. *)
Fixpoint max_key (best : string * Z) (rest : list (string * Z)) : string :=
  match rest with
  | [] => best.1
  | b :: rest' => if best.2 <? b.2 then max_key b rest' else max_key best rest'
  end.

Definition get_supported_languages : list string :=
  ["python"; "java"; "javascript"; "go"; "terraform"; "kubernetes"; "shell"].

Definition skip_extensions : gset string :=
  list_to_set
    [ "md"; "txt"; "rst"; "lock"; "sum";
      "png"; "jpg"; "jpeg"; "gif"; "svg"; "ico";
      "woff"; "woff2"; "ttf"; "eot";
      "zip"; "tar"; "gz"; "bz2";
      "pdf"; "doc"; "docx" ].

Section with_library.

(** [Path(file_path).suffix], of Python's library. *)
Variable suffix : string -> string.

(** Whether [re.search(pattern, text)] finds a match, of Python's library;
    the patterns are the constants above. *)
Variable re_search : string -> string -> bool.

Definition extension (file_path : string) : string :=
  lower (lstrip_dot (suffix file_path)).

Definition detect_language_from_extension (file_path : string) : option string :=
  table_get EXTENSION_MAP (extension file_path).

(** The three nested loops of [detect_language_from_content], innermost
    first. *)
Definition score_lines (language pattern : string) (lines : list string)
    (scores : list (string * Z)) : list (string * Z) :=
  fold_left
    (fun scores line =>
       if re_search pattern (strip line) then bump scores language else scores)
    lines scores.

Definition score_patterns (lines : list string) (scores : list (string * Z))
    (entry : string * list string) : list (string * Z) :=
  fold_left
    (fun scores pattern => score_lines entry.1 pattern lines scores)
    entry.2 scores.

Definition score_table (table : list (string * list string))
    (lines : list string) : list (string * Z) :=
  fold_left (score_patterns lines) table [].

Definition detect_language_from_content (content : string) : option string :=
  let lines := take 50 (split content nl) in
  let scores := score_table CONTENT_PATTERNS lines in
  match scores with
  | [] => None
  | first :: rest => Some (max_key first rest)
  end.

Definition truthy_opt (s : option string) : bool :=
  match s with Some s => truthy s | None => false end.

Definition detect_language (file_path : string) (content : option string)
  : string :=
  let lang := detect_language_from_extension file_path in
  if truthy_opt lang then
    if bool_decide (lang = Some "yaml") && truthy_opt content then
      let content_lang := detect_language_from_content (default "" content) in
      if bool_decide (content_lang = Some "kubernetes") then "kubernetes"
      else default "" lang
    else default "" lang
  else
    if truthy_opt content then
      let lang := detect_language_from_content (default "" content) in
      if truthy_opt lang then default "" lang else "unknown"
    else "unknown".

(** One iteration of the loop of [categorize_files]. *)
Definition categorize_step (categories : list (string * list string))
    (file_path : string) : list (string * list string) :=
  let lang := detect_language file_path None in
  let categories :=
    match table_get categories lang with
    | None => table_set categories lang []
    | Some _ => categories
    end in
  table_set categories lang (default [] (table_get categories lang) ++ [file_path]).

Definition categorize_files (file_list : list string)
  : list (string * list string) :=
  fold_left categorize_step file_list [].

Definition is_code_file (file_path : string) : bool :=
  let ext := extension file_path in
  if bool_decide (ext ∈ skip_extensions) then false
  else bool_decide (is_Some (table_get EXTENSION_MAP ext)).

End with_library.

End Detect.

(** ** The client of the model: [databricks_client.py] *)

Module Client.

(** [s.rstrip('/')] *)
Definition rstrip_slash (s : string) : string :=
  String.rev (Filter.lstrip_slash (String.rev s)).

(** The fields of [DatabricksModelClient] that [__init__] sets from its
    arguments. *)
Record client := Client {
  host : string;
  token : string;
  endpoint : string;
  timeout : Z
}.

Definition init (host token endpoint : string) (timeout : Z) : client :=
  Client (rstrip_slash host) token endpoint timeout.

Definition endpoint_url (self : client) : string :=
  host self +:+ "/serving-endpoints/" +:+ endpoint self +:+ "/invocations".

(** [sub in s] for strings. *)
Fixpoint contains (sub s : string) : bool :=
  startswith s sub
  || match s with
     | "" => false
     | String _ s' => contains sub s'
     end.

Section with_upper.

(** [str.upper], of Python's library. *)
Variable upper : string -> string.

(** [health_check], from the outcome of its query on; an exception of the
    query is an [Exception], as those of [requests] are. *)
Definition health_check (queried : outcome string) : bool :=
  match queried with
  | Returned response => contains "OK" (upper response) || (0 <? len response)
  | Raised _ _ => false
  end.

End with_upper.

(** [MockDatabricksClient]: its two fields. *)
Record mock := Mock {
  mock_responses : list string;
  _response_index : Z
}.

Definition mock_init : mock := Mock [] 0.

Definition add_mock_response (self : mock) (response : string) : mock :=
  Mock (mock_responses self ++ [response]) (_response_index self).

(** The default mock response, as [json.dumps] writes it. *)
Definition default_mock_response : string :=
  let q s := Detect.dq +:+ s +:+ Detect.dq in
  "{" +:+ q "summary" +:+ ": " +:+ q "Mock analysis complete" +:+ ", "
  +:+ q "violations" +:+ ": [], "
  +:+ q "passed_checks" +:+ ": [" +:+ q "MOCK-001" +:+ "], "
  +:+ q "recommendations" +:+ ": [], "
  +:+ q "metrics" +:+ ": {" +:+ q "files_analyzed" +:+ ": 1, "
  +:+ q "total_lines" +:+ ": 10}}".

(** [query] of the mock: the response and the client after the call. *)
Definition mock_query (self : mock) : string * mock :=
  match mock_responses self with
  | [] => (default_mock_response, self)
  | _ =>
      let n := Z.of_nat (length (mock_responses self)) in
      (default "" (mock_responses self !! Z.to_nat (_response_index self mod n)),
       Mock (mock_responses self) (_response_index self + 1))
  end.

(** [n] queries one after the other: their responses and the client after
    them. *)
Fixpoint mock_queries (n : nat) (self : mock) : list string * mock :=
  match n with
  | O => ([], self)
  | S n' =>
      let '(response, self') := mock_query self in
      let '(responses, self'') := mock_queries n' self' in
      (response :: responses, self'')
  end.

End Client.

(** ** ReportFormatter: the head of the review of [format_full_review] *)

Module Report.

(** [header] and [status_text], as [format_full_review] chooses them from
    the number of violations and their maximum severity.  The symbols in
    the headers are written as the bytes of the source file. *)
Definition review_head (violations : list violation) : string * string :=
  let total_violations := Z.of_nat (length violations) in
  let max_severity := Review.get_max_severity violations in
  if total_violations =? 0 then
    ("## ‚úÖ Code Review Passed", "No rule violations detected in this PR.")
  else if String.eqb max_severity "critical" then
    ("## üö® Code Review: Critical Issues Found",
     "Found **" +:+ str_of_int total_violations
     +:+ "** violation(s) including critical issues that must be addressed.")
  else if String.eqb max_severity "high" then
    ("## ‚ùå Code Review: Issues Found",
     "Found **" +:+ str_of_int total_violations
     +:+ "** violation(s) that should be addressed before merge.")
  else
    ("## ‚ö†Ô∏è Code Review: Suggestions",
     "Found **" +:+ str_of_int total_violations
     +:+ "** item(s) to review.").

End Report.

(** ** [main] of [analyze_code.py], from the diff that was read to the
    result that is written *)

Module Analyzer.

(** [final_result['metadata'] = ...] on an object. *)
Definition with_metadata (r : result) (md : metadata_dict) : result :=
  Result (error r) (raw_response r) (summary r) (violations r)
         (passed_checks r) (recommendations r) (metrics r) (Some md)
         (_source_file r).

(** The result written for an empty diff. *)
Definition no_changes : result :=
  Result None None (Some "No changes to analyze") (Some []) None None None
         None None.

Definition language_value (language : option string) : value :=
  match language with Some l => VStr l | None => VNone end.

(** [type(p).__name__] *)
Definition type_name (p : payload) : string :=
  match p with
  | PObject _ => "dict"
  | PArray _ => "list"
  | PString _ => "str"
  | PInt _ => "int"
  | PFloat _ => "float"
  | PBool _ => "bool"
  | PNull => "NoneType"
  end.

Definition is_error_text (p : payload) : bool :=
  match p with PString s => String.eqb s "error" | _ => false end.

(** How the first loop of [merge_chunk_results] reads one of its results:
    an object is read as it is; for a list or a text, ['error' in result]
    is a membership or a substring test, which skips the result when it
    holds, and [result.get] fails otherwise; another value is no
    container. *)
Definition merge_input (p : payload) : outcome (option result) :=
  match p with
  | PObject r => Returned (Some r)
  | PArray items =>
      if existsb is_error_text items then Returned None
      else Raised "AttributeError" "'list' object has no attribute 'get'"
  | PString s =>
      if Client.contains "error" s then Returned None
      else Raised "AttributeError" "'str' object has no attribute 'get'"
  | _ =>
      Raised "TypeError"
             ("argument of type '" +:+ type_name p +:+ "' is not iterable")
  end.

Fixpoint merge_inputs (results : list payload) : outcome (list result) :=
  match results with
  | [] => Returned []
  | p :: results' =>
      bind (merge_input p) (fun r =>
      bind (merge_inputs results') (fun rs =>
      Returned (match r with Some r => r :: rs | None => rs end)))
  end.

(** [final_result['metadata'] = ...] *)
Definition set_metadata (p : payload) (md : metadata_dict) : outcome result :=
  match p with
  | PObject r => Returned (with_metadata r md)
  | PArray _ =>
      Raised "TypeError" "list indices must be integers or slices, not str"
  | _ =>
      Raised "TypeError"
             ("'" +:+ type_name p +:+ "' object does not support item assignment")
  end.

(** [merge_chunk_results(results) if len(results) > 1 else results[0]] *)
Definition final_of (results : list payload) : outcome payload :=
  if (1 <? length results)%nat then
    bind (merge_inputs results)
         (fun rs => Returned (PObject (Merge.merge_chunk_results rs)))
  else
    match results with
    | p :: _ => Returned p
    | [] => Raised "IndexError" "list index out of range"
    end.

Section with_client.

Variable json_loads : string -> outcome payload.
Context {client : Type}.
Variable query : client -> string -> string -> outcome string * client.

(** The loop over the chunks: [results.append(analyze_with_llm(...))].  It
    ends with the first exception. *)
Fixpoint analyze_all (self : client) (chunks : list string)
    (system_prompt : string) (language : option string)
  : outcome (list payload) :=
  match chunks with
  | [] => Returned []
  | chunk :: chunks' =>
      let '(analysed, self') :=
        Normalizer.analyze_with_llm json_loads query self chunk system_prompt
          language in
      bind analysed (fun r =>
      bind (analyze_all self' chunks' system_prompt language) (fun results =>
      Returned (r :: results)))
  end.

Definition main_result (self : client) (diff_content system_prompt : string)
    (language : option string) : outcome result :=
  if negb (truthy (strip diff_content)) then Returned no_changes
  else
    let chunks := Chunker.chunk_diff diff_content 6000 in
    bind (analyze_all self chunks system_prompt language) (fun results =>
    bind (final_of results) (fun final_result =>
    set_metadata final_result (Metadata (Some (language_value language))))).

End with_client.

End Analyzer.

(** ** Sample inputs *)

(** A diff of one file behind a blank line, over a bound of 5 tokens. *)
Definition blank_led_diff : string :=
  nl +:+ "diff --git a/x b/x" +:+ nl +:+ "+1" +:+ nl.

(** Three files of 22 characters each, over a bound of 11 tokens, that is 44
    characters. *)
Definition three_file_diff : string :=
  ("diff --git a/x b/x" +:+ nl +:+ "+1" +:+ nl)
  +:+ ("diff --git a/y b/y" +:+ nl +:+ "+2" +:+ nl)
  +:+ ("diff --git a/z b/z" +:+ nl +:+ "+3" +:+ nl).

(** A violation with the given severity, file, line and rule, and nothing
    else. *)
Definition mk_violation (sev : option string) (f l : option value)
    (rule : option value) : violation :=
  Violation sev rule None f l None None None None.

(** A result that failed to parse, and a result with the given violations. *)
Definition failed_result : result :=
  Result (Some "Failed to parse LLM response as JSON: Expecting value")
         (Some "oops") (Some "Analysis failed due to response parsing error")
         (Some []) None None None None None.

Definition result_of (vs : list violation) : result :=
  Result None None (Some "ok") (Some vs) (Some ["R1"]) (Some ["tidy up"])
         (Some (Metrics (Some 1) (Some 10) None)) None None.

(** A stand-in for [json.loads] that knows the empty object and the empty
    array only. *)
Definition toy_loads (t : string) : outcome payload :=
  if decide (t = "{}")
  then Returned (PObject (Result None None None None None None None None None))
  else if decide (t = "[]") then Returned (PArray [])
  else Raised "JSONDecodeError" "Expecting value: line 1 column 1 (char 0)".

(** A stand-in for [json.loads] that knows the empty object only. *)
Definition object_loads (t : string) : outcome payload :=
  if decide (t = "{}")
  then Returned (PObject (Result None None None None None None None None None))
  else Raised "JSONDecodeError" "Expecting value: line 1 column 1 (char 0)".

(** A fenced response that is no JSON. *)
Definition fenced_garbage : string :=
  "```json" +:+ nl +:+ "not json" +:+ nl +:+ "```".

(** A diff with a line before the first header and two headers for the same
    path. *)
Definition twice_x_diff : string :=
  "index 0000" +:+ nl
  +:+ "diff --git a/x.py b/x.py" +:+ nl +:+ "+1" +:+ nl
  +:+ "diff --git a/y b/y" +:+ nl +:+ "-2" +:+ nl
  +:+ "diff --git a/x.py b/x.py" +:+ nl +:+ "+3".

(** The violations of the ordering example of the specification: the two
    critical ones differ by their line. *)
Definition v_low : violation := mk_violation (Some "low") (Some (VStr "a.py")) (Some (VInt 1)) None.
Definition v_critical1 : violation := mk_violation (Some "critical") (Some (VStr "a.py")) (Some (VInt 2)) None.
Definition v_high : violation := mk_violation (Some "high") (Some (VStr "a.py")) (Some (VInt 3)) None.
Definition v_critical2 : violation := mk_violation (Some "critical") (Some (VStr "a.py")) (Some (VInt 4)) None.
Definition v_info : violation := mk_violation (Some "info") (Some (VStr "a.py")) (Some (VInt 5)) None.

(** A severity in capitals, and a violation without severity. *)
Definition v_HIGH : violation := mk_violation (Some "HIGH") (Some (VStr "a.py")) (Some (VInt 6)) None.
Definition v_unrated : violation := mk_violation None (Some (VStr "a.py")) (Some (VInt 7)) None.

(** The tags of a result that names neither its file nor its language. *)
Definition tagged (v : violation) : violation := Review.tag "unknown" (VStr "common") v.

(** The violations of the inline-comment example of the specification, and
    one whose line is the string of the digit zero. *)
Definition v_a10 : violation := mk_violation None (Some (VStr "a.py")) (Some (VInt 10)) None.
Definition v_b_unknown : violation := mk_violation None (Some (VStr "b.py")) (Some (VStr "?")) None.
Definition v_null5 : violation := mk_violation None (Some VNone) (Some (VInt 5)) None.
Definition v_line_zero : violation := mk_violation None (Some (VStr "a.py")) (Some (VStr "0")) None.

(** A violation whose line is the superscript two, a digit that [int]
    rejects. *)
Definition v_line_superscript : violation :=
  mk_violation None (Some (VStr "a.py")) (Some (VStr (String "178"%char ""))) None.

Definition v_line_int_zero : violation :=
  mk_violation None (Some (VStr "a.py")) (Some (VInt 0)) None.

(** A stand-in for [re.search] that finds a pattern when it is a prefix of
    the text. *)
Definition prefix_search (pattern text : string) : outcome bool :=
  Returned (startswith text pattern).

(** Violations whose lines are integers: a negative one, one without file. *)
Definition v_negative : violation :=
  mk_violation None (Some (VStr "a.py")) (Some (VInt (-3))) None.
Definition v_nofile : violation := mk_violation None None (Some (VInt 8)) None.

(** A client without state that answers every query with the same
    response. *)
Definition fixed_query (response : string) (self : unit)
    (system_prompt user_message : string) : outcome string * unit :=
  (Returned response, self).

(** The header line of the file [util.py] in a directory named [lib b]. *)
Definition spaced_header : string :=
  "diff --git a/lib b/util.py b/lib b/util.py".

(** ** Invariants and views used in the proofs *)

Section chunker_views.

Import Chunker.

(** The loop of [chunk_diff] and the loop that keeps the sections run in
    lock step. *)
Definition sim (st : state) (g : gstate) : Prop :=
  chunks st = map (join nl) (groups g)
  /\ current_chunk st = current_group g
  /\ current_size st = group_size g.

(** The sections one iteration appends: none for a blank first piece. *)
Definition kept (p : nat * string) : list string :=
  if (p.1 =? 0)%nat && negb (truthy (strip p.2)) then []
  else [section_of p.1 p.2].

Definition flat (g : gstate) : list string :=
  concat (groups g) ++ current_group g.

(** A group is within the bound when the sizes of its sections add up to at
    most [max_chars], or it holds one section only. *)
Definition total_len (g : list string) : Z := foldr (fun s n => len s + n) 0 g.

Definition group_ok (max_chars : Z) (g : list string) : Prop :=
  length g = 1%nat \/ total_len g <= max_chars.

Definition ginv (max_chars : Z) (g : gstate) : Prop :=
  group_size g = total_len (current_group g)
  /\ Forall (group_ok max_chars) (groups g)
  /\ (current_group g = [] \/ group_ok max_chars (current_group g)).

End chunker_views.

(** The deduplication loop of [merge_chunk_results], as a function of the
    keys seen so far and the violations still to visit. *)
Fixpoint dedup_from (seen : gset (value * value * value)) (l : list violation)
  : list violation :=
  match l with
  | [] => []
  | v :: l' =>
      if decide (Merge.key v ∈ seen) then dedup_from seen l'
      else v :: dedup_from ({[Merge.key v]} ∪ seen) l'
  end.

Definition keys_of (l : list violation) : gset (value * value * value) :=
  list_to_set (Merge.key <$> l).

(** The sections of a list of lines, one per header line and in the order of
    the header lines: the path of the header, and the header line with the
    lines up to the next header.  The first component is the run of lines
    before the first header. *)
Fixpoint blocks_go (lines : list string) : list string * list (string * string) :=
  match lines with
  | [] => ([], [])
  | l :: ls =>
      let '(body, bs) := blocks_go ls in
      match Segmenter.match_header l with
      | Some p => ([], (p, join nl (l :: body)) :: bs)
      | None => (l :: body, bs)
      end
  end.

Definition blocks (lines : list string) : list (string * string) :=
  (blocks_go lines).2.

(** Storing a list of sections into a dictionary, one after the other. *)
Definition set_all (bs : list (string * string)) (d : list (string * string))
  : list (string * string) :=
  fold_left (fun d b => Segmenter.dict_set d b.1 b.2) bs d.

(** The elements of [l] that are not in [seen], each at its first
    occurrence. *)
Fixpoint firsts (seen l : list string) : list string :=
  match l with
  | [] => []
  | x :: l' =>
      if bool_decide (x ∈ seen) then firsts seen l'
      else x :: firsts (seen ++ [x]) l'
  end.

(** The section that a state of the segmenter has open. *)
Definition open_block (st : Segmenter.state) (body : list string)
  : list (string * string) :=
  match Segmenter.current_file st with
  | Some f => [(f, join nl (Segmenter.current_content st ++ body))]
  | None => []
  end.


(** A line that reads [diff --git a/OLD b/NEW], neither path being empty. *)
Definition header_of (line old new : string) : Prop :=
  line = "diff --git a/" +:+ old +:+ " b/" +:+ new /\ old <> "" /\ new <> "".
(** ** Further views used in the proofs *)

(** A string without newline: what a line of [s.split('\n')] is. *)
Definition nl_free (s : string) : bool :=
  all_chars (fun c => negb (Ascii.eqb c "010")) s.

(** A string of whitespace only. *)
Definition blank (s : string) : bool := all_chars isspace s.

(** Greedy packing: of two consecutive groups, the first section of the
    second does not fit into the first. *)
Fixpoint greedy (max_chars : Z) (gs : list (list string)) : Prop :=
  match gs with
  | [] => True
  | g :: rest =>
      match rest with
      | [] => True
      | g' :: _ =>
          (exists s r, g' = s :: r /\ max_chars < total_len g + len s)
          /\ greedy max_chars rest
      end
  end.

(** What the loop of [chunk_diff] keeps true of its groups: the size is that
    of the open group, no closed group is empty, and the packing is
    greedy. *)
Definition packed (max_chars : Z) (g : Chunker.gstate) : Prop :=
  Chunker.group_size g = total_len (Chunker.current_group g)
  /\ Forall (fun x => x <> []) (Chunker.groups g)
  /\ ((Chunker.groups g = [] /\ Chunker.current_group g = [])
      \/ (Chunker.current_group g <> []
          /\ greedy max_chars (Chunker.groups g ++ [Chunker.current_group g]))).

(** A section as the segmenter builds it: a header line for its path,
    followed by lines that are no headers; no line holds a newline. *)
Definition wf_block (b : string * string) : Prop :=
  exists (h : string) (body : list string),
    b.2 = join nl (h :: body)
    /\ Segmenter.match_header h = Some b.1
    /\ Forall (fun l => Segmenter.match_header l = None) body
    /\ Forall (fun l => nl_free l = true) (h :: body).

(** The lines of the sections of a list. *)
Definition lines_of (bs : list (string * string)) : list string :=
  concat (map (fun b => split b.2 nl) bs).

(** Whether [filter_diff] keeps the section of a path: it is included and no
    pattern excludes it. *)
Definition keeps (re_search : string -> string -> outcome bool)
    (include_files : list string) (exclude_patterns : option (list string))
    (file_path : string) : bool :=
  Filter.included include_files file_path
  && negb match exclude_patterns with
          | Some patterns =>
              match Filter.any_match re_search patterns file_path with
              | Returned found => found
              | Raised _ _ => false
              end
          | None => false
          end.

(** What the first loop of [merge_chunk_results] accumulates from a list of
    results, and the accumulation of two lists one after the other. *)
Definition acc_of (rs : list result) : Merge.acc :=
  fold_left Merge.step rs Merge.init.

Definition acc_join (a b : Merge.acc) : Merge.acc :=
  Merge.Acc (Merge.summaries a ++ Merge.summaries b)
            (Merge.acc_violations a ++ Merge.acc_violations b)
            (Merge.acc_passed_checks a ∪ Merge.acc_passed_checks b)
            (Merge.acc_recommendations a ++ Merge.acc_recommendations b)
            (Merge.acc_files_analyzed a + Merge.acc_files_analyzed b)
            (Merge.acc_total_lines a + Merge.acc_total_lines b).

(** Accumulations that agree up to the order of the results. *)
Definition acc_similar (a b : Merge.acc) : Prop :=
  Permutation (Merge.acc_violations a) (Merge.acc_violations b)
  /\ Merge.acc_passed_checks a = Merge.acc_passed_checks b
  /\ Permutation (Merge.acc_recommendations a) (Merge.acc_recommendations b)
  /\ Merge.acc_files_analyzed a = Merge.acc_files_analyzed b
  /\ Merge.acc_total_lines a = Merge.acc_total_lines b.

(** The sum of the counts of a counter. *)
Definition total_count {K} `{Countable K} (m : gmap K Z) : Z :=
  map_fold (fun _ n acc => n + acc) 0 m.

(** The language that [aggregate_violations] tags the violations of a result
    with. *)
Definition language_of (r : result) : value :=
  default (VStr "common") (language (default (Metadata None) (metadata r))).

(** A string of decimal digits only. *)
Definition decimal (s : string) : bool :=
  all_chars (fun c => bool_decide (is_Some (decimal_value c))) s.

(** The place of the inline comment of a violation whose line is an
    integer: its file and line, when the file is true and the line
    positive. *)
Definition integer_place (v : violation) : option (value * option Z) :=
  match get_or_none (line v) with
  | VInt z =>
      if truthy_value (get_or_none (file v)) && (0 <? z)
      then Some (get_or_none (file v), Some z) else None
  | _ => None
  end.


(** One step of a counter keyed by [k]:
    [counts[k(v)] = counts.get(k(v), 0) + 1]. *)
Definition counter_step {K} `{Countable K} (k : violation -> K)
    (counts : gmap K Z) (v : violation) : gmap K Z :=
  <[k v := default 0 (counts !! k v) + 1]> counts.

(** The violations of the results as the files have them. *)
Definition raw_violations (results : list result) : list violation :=
  flat_map (fun r => default [] (violations r)) results.

(** The score of a language: the number of pairs of one of its patterns and
    one of the lines, stripped, that the pattern is found in. *)
Definition matches (re_search : string -> string -> bool) (lines : list string)
    (pattern : string) : nat :=
  length (filter (fun line => re_search pattern (strip line) = true) lines).

Definition score (re_search : string -> string -> bool) (lines : list string)
    (patterns : list string) : nat :=
  sum_list (map (matches re_search lines) patterns).

(** The scores with [n] more for a language that is not among them. *)
Definition scored (scores : list (string * Z)) (language : string) (n : nat)
  : list (string * Z) :=
  match n with
  | O => scores
  | S _ => scores ++ [(language, Z.of_nat n)]
  end.

(** The entry of the dictionary of scores that a language gets. *)
Definition score_entry (re_search : string -> string -> bool)
    (lines : list string) (entry : string * list string)
  : option (string * Z) :=
  match score re_search lines entry.2 with
  | O => None
  | S n => Some (entry.1, Z.of_nat (S n))
  end.

(** A string of slashes only. *)
Definition slashes (s : string) : bool :=
  all_chars (fun c => Ascii.eqb c "/") s.

(** The outcomes of the queries for a list of user messages, the client
    passing from each call to the next. *)
Fixpoint query_run {client : Type}
    (query : client -> string -> string -> outcome string * client)
    (self : client) (system_prompt : string) (messages : list string)
  : list (outcome string) :=
  match messages with
  | [] => []
  | message :: messages' =>
      let '(response, self') := query self system_prompt message in
      response :: query_run query self' system_prompt messages'
  end.

(** A value that an f-string renders: no integer, or an integer within the
    limit on the digits. *)
Definition printable (v : value) : bool :=
  match v with
  | VInt z => (digits z <=? int_max_str_digits)%nat
  | _ => true
  end.

(** A line that [extract_inline_comments] converts: no string of digits, or
    a string of decimal digits within the limit, or a value that prints. *)
Definition line_converts (l : value) : bool :=
  match l with
  | VStr s =>
      negb (isdigit s)
      || (decimal s && (String.length s <=? int_max_str_digits)%nat)
  | _ => printable l
  end.

Definition comment_converts (v : violation) : bool :=
  line_converts (get_or_none (line v))
  && printable (default (VStr "") (rule_id v)).
(** * Properties *)

(** ** Sample evaluations *)

Example split_ex1 : split "diff --git xdiff --git y" "diff --git " = [""; "x"; "y"].
Proof. reflexivity. Qed.

Example split_ex2 : split "aaa" "aa" = [""; "a"].
Proof. reflexivity. Qed.

Example strip_ex : strip (" a b " +:+ nl) = "a b".
Proof. reflexivity. Qed.

Example lower_ex : lower "HiGh" = "high".
Proof. reflexivity. Qed.

Example str_of_int_ex : str_of_int (-12) = "-12" /\ str_of_int 0 = "0".
Proof. split; reflexivity. Qed.

Example chunk_ex_small :
  Chunker.chunk_diff "diff --git a/x b/x" 6000 = ["diff --git a/x b/x"].
Proof. reflexivity. Qed.

Example chunk_ex_three :
  Chunker.chunk_diff "diff --git xdiff --git ydiff --git z" 6
  = ["diff --git x" +:+ nl +:+ "diff --git y"; "diff --git z"].
Proof. reflexivity. Qed.

Example chunk_ex_preamble :
  Chunker.chunk_diff (nl +:+ "diff --git xxxxxxxxxxxx") 1
  = ["diff --git xxxxxxxxxxxx"].
Proof. reflexivity. Qed.

Example chunk_ex_no_header :
  Chunker.chunk_diff "no header here" 1 = ["no header here"].
Proof. reflexivity. Qed.

Example merge_ex :
  violations (Merge.merge_chunk_results
                [result_of [v_low; v_high]; failed_result; result_of [v_high; v_info]])
  = Some [v_low; v_high; v_info]
  /\ summary (Merge.merge_chunk_results
                [result_of [v_low; v_high]; failed_result; result_of [v_high; v_info]])
     = Some "ok ok".
Proof. split; reflexivity. Qed.

Example blocks_ex :
  blocks (split twice_x_diff nl)
  = [("x.py", "diff --git a/x.py b/x.py" +:+ nl +:+ "+1");
     ("y", "diff --git a/y b/y" +:+ nl +:+ "-2");
     ("x.py", "diff --git a/x.py b/x.py" +:+ nl +:+ "+3")].
Proof. reflexivity. Qed.

Example firsts_ex : firsts [] ["x.py"; "y"; "x.py"] = ["x.py"; "y"].
Proof. reflexivity. Qed.

Example aggregate_ex :
  map severity
    (Review.aggregate_violations
       [result_of [v_low; v_unrated; v_HIGH;
                   mk_violation (Some "blocker") None None None; v_critical1]])
  = [Some "critical"; Some "HIGH"; None; Some "low"; Some "blocker"].
Proof. reflexivity. Qed.

Example by_severity_ex :
  Review.by_severity [v_HIGH; v_unrated; v_high] !! "medium" = Some 1
  /\ Review.by_severity [v_HIGH; v_unrated; v_high] !! "HIGH" = Some 1
  /\ Review.by_severity [v_HIGH; v_unrated; v_high] !! "high" = Some 1.
Proof. repeat split; vm_compute; reflexivity. Qed.

(** ** Facts about the string built-ins *)

Section string_facts.

Lemma str_app_nil_l (s : string) : "" +:+ s = s.
Proof. reflexivity. Qed.

Lemma str_app_cons (c : ascii) (s t : string) : String c s +:+ t = String c (s +:+ t).
Proof. reflexivity. Qed.

Lemma str_app_nil_r (s : string) : s +:+ "" = s.
Proof. induction s as [|c s IH]; [reflexivity|]. by rewrite str_app_cons, IH. Qed.

Lemma str_app_assoc (s t u : string) : (s +:+ t) +:+ u = s +:+ (t +:+ u).
Proof. induction s as [|c s IH]; [reflexivity|]. by rewrite !str_app_cons, IH. Qed.

Lemma str_length_app (s t : string) :
  String.length (s +:+ t) = (String.length s + String.length t)%nat.
Proof. induction s as [|c s IH]; [reflexivity|]. rewrite str_app_cons. simpl. by rewrite IH. Qed.

Lemma len_app (s t : string) : len (s +:+ t) = len s + len t.
Proof. unfold len. rewrite str_length_app. lia. Qed.

Lemma len_nonneg (s : string) : 0 <= len s.
Proof. unfold len. lia. Qed.

Lemma drop_prefix_Some (p s r : string) :
  drop_prefix p s = Some r -> s = p +:+ r.
Proof.
  revert s. induction p as [|a p IH]; intros s H.
  - destruct s; simpl in H; by inversion H.
  - destruct s as [|b s]; simpl in H; [discriminate|].
    destruct (Ascii.eqb_spec a b) as [->|]; [|discriminate].
    rewrite str_app_cons. f_equal. by apply IH.
Qed.

Lemma drop_prefix_app (p r : string) : drop_prefix p (p +:+ r) = Some r.
Proof.
  induction p as [|a p IH]; [by destruct r|].
  rewrite str_app_cons. simpl. by rewrite Ascii.eqb_refl.
Qed.

Lemma split_aux_nonempty (fuel : nat) (sep s : string) : split_aux fuel sep s <> [].
Proof.
  destruct fuel as [|fuel]; [done|]. simpl.
  destruct s as [|c s]; [done|].
  destruct (drop_prefix sep (String c s)); [done|].
  by destruct (split_aux fuel sep s).
Qed.

Lemma join_cons (sep x : string) (l : list string) :
  l <> [] -> join sep (x :: l) = x +:+ sep +:+ join sep l.
Proof. by destruct l. Qed.

(** Joining the pieces of a split with the separator gives the text back. *)
Lemma join_split_aux (sep : string) (fuel : nat) (s : string) :
  sep <> "" -> (String.length s < fuel)%nat ->
  join sep (split_aux fuel sep s) = s.
Proof.
  intros Hsep. revert s. induction fuel as [|fuel IH]; intros s Hlt; [lia|].
  simpl. destruct s as [|c s]; [reflexivity|].
  destruct (drop_prefix sep (String c s)) as [rest|] eqn:Hp.
  - apply drop_prefix_Some in Hp.
    rewrite join_cons by apply split_aux_nonempty.
    rewrite str_app_nil_l, IH, <- Hp; [done|].
    apply (f_equal String.length) in Hp. rewrite str_length_app in Hp.
    destruct sep; [done|]. simpl in *. lia.
  - specialize (IH s ltac:(simpl in Hlt; lia)).
    destruct (split_aux fuel sep s) as [|p ps] eqn:Hs.
    { by apply split_aux_nonempty in Hs. }
    rewrite <- IH. destruct ps; [reflexivity|].
    by rewrite !(join_cons _ _ (_ :: _)), str_app_cons.
Qed.

(** Fuel above the length of the text does not change the result. *)
Lemma split_aux_fuel (sep : string) (f1 f2 : nat) (s : string) :
  sep <> "" -> (String.length s < f1)%nat -> (String.length s < f2)%nat ->
  split_aux f1 sep s = split_aux f2 sep s.
Proof.
  intros Hsep. revert f2 s. induction f1 as [|f1 IH]; intros f2 s H1 H2; [lia|].
  destruct f2 as [|f2]; [lia|]. simpl.
  destruct s as [|c s]; [done|].
  destruct (drop_prefix sep (String c s)) as [rest|] eqn:Hp.
  - f_equal. apply drop_prefix_Some in Hp.
    apply (f_equal String.length) in Hp. rewrite str_length_app in Hp.
    destruct sep; [done|]. simpl in *. apply IH; lia.
  - simpl in *. by rewrite (IH f2 s) by lia.
Qed.

Lemma join_split (s sep : string) : sep <> "" -> join sep (split s sep) = s.
Proof. intros H. apply join_split_aux; [done|lia]. Qed.

Lemma split_nonempty (s sep : string) : split s sep <> [].
Proof. apply split_aux_nonempty. Qed.

(** A join is the first piece followed by each other piece behind a separator. *)
Lemma join_prefixed (sep p0 : string) (rest : list string) :
  join sep (p0 :: rest)
  = p0 +:+ Chunker.concat_str (map (String.append sep) rest).
Proof.
  revert p0. induction rest as [|p1 rest IH]; intros p0.
  - simpl. by rewrite str_app_nil_r.
  - rewrite join_cons by done. rewrite IH. simpl.
    by rewrite str_app_assoc.
Qed.

Lemma concat_str_app (l1 l2 : list string) :
  Chunker.concat_str (l1 ++ l2) = Chunker.concat_str l1 +:+ Chunker.concat_str l2.
Proof.
  induction l1 as [|x l1 IH]; [reflexivity|].
  simpl. by rewrite IH, str_app_assoc.
Qed.

End string_facts.

(** ** DiffChunker *)

Section chunker_facts.

Import Chunker.

Variable max_chars : Z.

Lemma step_sim (st : state) (g : gstate) (p : nat * string) :
  sim st g -> sim (step max_chars st p) (gstep max_chars g p).
Proof.
  intros (Hc & Hk & Hs). destruct p as [i fd]. unfold step, gstep.
  destruct ((i =? 0)%nat && negb (truthy (strip fd))); [done|].
  rewrite Hs, Hk.
  destruct ((max_chars <? group_size g + len (section_of i fd))
            && negb (bool_decide (current_group g = []))); unfold sim; simpl.
  - by rewrite Hc, map_app.
  - by rewrite Hc, ?Hk, ?Hs.
Qed.

Lemma fold_sim (l : list (nat * string)) (st : state) (g : gstate) :
  sim st g ->
  sim (fold_left (step max_chars) l st) (fold_left (gstep max_chars) l g).
Proof.
  revert st g. induction l as [|p l IH]; intros st g H; [done|].
  simpl. apply IH. by apply step_sim.
Qed.

Lemma finish_sim (st : state) (g : gstate) :
  sim st g -> finish st = map (join nl) (gfinish g).
Proof.
  intros (Hc & Hk & _). unfold finish, gfinish. rewrite Hk, Hc.
  destruct (bool_decide (current_group g = [])); [done|].
  by rewrite map_app.
Qed.

Lemma gstep_flat (g : gstate) (p : nat * string) :
  flat (gstep max_chars g p) = flat g ++ kept p.
Proof.
  destruct p as [i fd]. unfold gstep, kept, flat. simpl.
  destruct ((i =? 0)%nat && negb (truthy (strip fd))).
  { by rewrite app_nil_r. }
  destruct ((max_chars <? group_size g + len (section_of i fd))
            && negb (bool_decide (current_group g = []))); simpl.
  - rewrite concat_app. simpl. by rewrite !app_nil_r.
  - by rewrite app_assoc.
Qed.

Lemma gfold_flat (l : list (nat * string)) (g : gstate) :
  flat (fold_left (gstep max_chars) l g) = flat g ++ flat_map kept l.
Proof.
  revert g. induction l as [|p l IH]; intros g; simpl.
  - by rewrite app_nil_r.
  - by rewrite IH, gstep_flat, <- app_assoc.
Qed.

Lemma gfinish_flat (g : gstate) : concat (gfinish g) = flat g.
Proof.
  unfold gfinish, flat. case_bool_decide as H.
  - by rewrite H, app_nil_r.
  - rewrite concat_app. simpl. by rewrite app_nil_r.
Qed.

Lemma total_len_snoc (g : list string) (s : string) :
  total_len (g ++ [s]) = total_len g + len s.
Proof. induction g as [|x g IH]; simpl; [lia|]. rewrite IH. lia. Qed.

Lemma gstep_inv (g : gstate) (p : nat * string) :
  ginv max_chars g -> ginv max_chars (gstep max_chars g p).
Proof.
  intros (Hs & Hg & Hc). destruct p as [i fd]. unfold gstep.
  destruct ((i =? 0)%nat && negb (truthy (strip fd))); [done|].
  destruct (max_chars <? group_size g + len (section_of i fd)) eqn:Hlt;
    case_bool_decide as Hnil; simpl; unfold ginv; simpl.
  - rewrite Hnil in *. simpl in *. repeat split; [lia|done|].
    right. by left.
  - repeat split; [simpl; lia| |right; by left].
    apply Forall_app. split; [done|]. apply Forall_singleton.
    by destruct Hc.
  - rewrite Hnil in *. simpl in *. repeat split; [lia|done|].
    right. by left.
  - apply Z.ltb_ge in Hlt. rewrite total_len_snoc.
    repeat split; [lia|done|]. right. right. rewrite total_len_snoc. lia.
Qed.

Lemma gfold_inv (l : list (nat * string)) (g : gstate) :
  ginv max_chars g -> ginv max_chars (fold_left (gstep max_chars) l g).
Proof.
  revert g. induction l as [|p l IH]; intros g H; [done|].
  simpl. by apply IH, gstep_inv.
Qed.

Lemma gfinish_inv (g : gstate) : ginv max_chars g -> Forall (group_ok max_chars) (gfinish g).
Proof.
  intros (_ & Hg & Hc). unfold gfinish. case_bool_decide as Hnil; [done|].
  apply Forall_app. split; [done|]. apply Forall_singleton. by destruct Hc.
Qed.

End chunker_facts.

(** The pieces after the first all carry an index above zero. *)
Lemma kept_later (k : nat) (rest : list string) :
  flat_map kept (combine (seq (S k) (length rest)) rest)
  = map (String.append Chunker.header) rest.
Proof.
  revert k. induction rest as [|p rest IH]; intros k; [done|].
  simpl. by rewrite IH.
Qed.

Lemma kept_enumerate (p0 : string) (rest : list string) :
  flat_map kept (Chunker.enumerate (p0 :: rest))
  = (if truthy (strip p0) then [p0] else [])
    ++ map (String.append Chunker.header) rest.
Proof.
  unfold Chunker.enumerate. simpl. rewrite kept_later.
  unfold kept. simpl. by destruct (truthy (strip p0)).
Qed.

(** Each chunk is the newline join of a run of sections. *)
Lemma chunk_diff_sections (d : string) (m : Z) :
  Chunker.chunk_diff d m = map (join nl) (Chunker.chunk_sections d m).
Proof.
  unfold Chunker.chunk_diff, Chunker.chunk_sections.
  destruct (len d <=? m * 4); [done|].
  apply finish_sim, fold_sim. by repeat split.
Qed.

(** The sections of all chunks, in order, are the pieces of the split with
    their header put back, without a blank first piece. *)
Lemma chunk_sections_concat (d : string) (m : Z) :
  Chunker.dropped_preamble d m
  +:+ Chunker.concat_str (concat (Chunker.chunk_sections d m)) = d.
Proof.
  unfold Chunker.dropped_preamble, Chunker.chunk_sections.
  destruct (len d <=? m * 4).
  { simpl. by rewrite str_app_nil_r. }
  rewrite gfinish_flat, gfold_flat. unfold flat at 1. simpl.
  pose proof (join_split d Chunker.header ltac:(done)) as Hj.
  destruct (split d Chunker.header) as [|p0 rest] eqn:Hs.
  { by apply split_nonempty in Hs. }
  rewrite kept_enumerate, join_prefixed in *.
  destruct (truthy (strip p0)); simpl; [|done].
  by rewrite str_app_nil_l.
Qed.

Lemma dropped_preamble_blank (d : string) (m : Z) :
  strip (Chunker.dropped_preamble d m) = "".
Proof.
  unfold Chunker.dropped_preamble.
  destruct (len d <=? m * 4); [done|].
  destruct (split d Chunker.header) as [|p0 rest]; [done|].
  destruct (truthy (strip p0)) eqn:H; [done|].
  by destruct (strip p0).
Qed.

(** The section sizes of a chunk add up to at most the bound, unless the
    chunk holds one section. *)
Lemma chunk_sections_bound (d : string) (m : Z) :
  Forall (group_ok (m * 4)) (Chunker.chunk_sections d m).
Proof.
  unfold Chunker.chunk_sections.
  destruct (len d <=? m * 4).
  { apply Forall_singleton. by left. }
  apply gfinish_inv, gfold_inv. repeat split; [done|]. by left.
Qed.


(** *** Claims on the chunker *)

(** C1, as the specification states it, fails: the chunks of a diff that
    exceeds the bound and opens with a blank line do not concatenate to the
    diff, because the blank text before the first header is skipped. *)
Lemma chunk_reconstruction_fails :
  0 < 5 * 4
  /\ Chunker.chunk_diff blank_led_diff 5
     = ["diff --git a/x b/x" +:+ nl +:+ "+1" +:+ nl]
  /\ Chunker.concat_str (Chunker.chunk_diff blank_led_diff 5) <> blank_led_diff.
Proof.
  split; [lia|]. split; [reflexivity|]. vm_compute. discriminate.
Qed.

(** C1, amended.  For every diff text and every bound: a diff within the
    bound comes back as the one chunk; otherwise every chunk is a run of
    sections joined by one separator, and the sections of all chunks,
    concatenated in order, give the diff text back exactly, except for text
    before the first header that is blank, which is left out. *)
Theorem chunk_reconstruction (d : string) (m : Z) :
  (len d <= m * 4 -> Chunker.chunk_diff d m = [d])
  /\ Forall2 (fun chunk group => exists sep : string, chunk = join sep group)
       (Chunker.chunk_diff d m) (Chunker.chunk_sections d m)
  /\ Chunker.dropped_preamble d m
     +:+ Chunker.concat_str (concat (Chunker.chunk_sections d m)) = d
  /\ strip (Chunker.dropped_preamble d m) = "".
Proof.
  split; [|split; [|split]].
  - intros H. unfold Chunker.chunk_diff.
    by destruct (Z.leb_spec (len d) (m * 4)); [|lia].
  - rewrite chunk_diff_sections.
    induction (Chunker.chunk_sections d m) as [|g gs IH]; simpl; [constructor|].
    constructor; [by exists nl|done].
  - apply chunk_sections_concat.
  - apply dropped_preamble_blank.
Qed.

Lemma chunk_reconstruction_witness :
  Chunker.chunk_diff "diff --git a/x b/x" 6000 = ["diff --git a/x b/x"].
Proof.
  apply (proj1 (chunk_reconstruction "diff --git a/x b/x" 6000)).
  vm_compute. discriminate.
Defined.

(** C2 fails on the code.  The first chunk holds two sections whose sizes add
    up to the bound of 44 characters exactly, and the newline that joins them
    is not counted: the chunk is 45 characters long. *)
Theorem chunk_over_bound :
  Chunker.chunk_sections three_file_diff 11
  = [ ["diff --git a/x b/x" +:+ nl +:+ "+1" +:+ nl;
       "diff --git a/y b/y" +:+ nl +:+ "+2" +:+ nl];
      ["diff --git a/z b/z" +:+ nl +:+ "+3" +:+ nl] ]
  /\ Chunker.chunk_diff three_file_diff 11
     = [ ("diff --git a/x b/x" +:+ nl +:+ "+1" +:+ nl) +:+ nl
         +:+ ("diff --git a/y b/y" +:+ nl +:+ "+2" +:+ nl);
         "diff --git a/z b/z" +:+ nl +:+ "+3" +:+ nl ]
  /\ map len (Chunker.chunk_diff three_file_diff 11) = [45; 22]
  /\ 11 * 4 < 45.
Proof. split; [|split; [|split]]; reflexivity. Qed.

(** ** ResultAggregator: merging chunk results *)

Section merge_facts.

Import Merge.

Implicit Types (seen : gset (value * value * value)) (l : list violation).

Lemma dedup_fold l seen (out : list violation) :
  fold_left dedup_step l (seen, out)
  = (seen ∪ keys_of l, out ++ dedup_from seen l).
Proof.
  revert seen out. induction l as [|v l IH]; intros seen out; simpl.
  - unfold keys_of. simpl. f_equal; [set_solver|by rewrite app_nil_r].
  - unfold dedup_step at 2. simpl. destruct (decide (key v ∈ seen)).
    + rewrite IH. f_equal. unfold keys_of. simpl. set_solver.
    + rewrite IH, <- app_assoc. f_equal. unfold keys_of. simpl. set_solver.
Qed.

Lemma unique_violations_dedup l : unique_violations l = dedup_from ∅ l.
Proof. unfold unique_violations. by rewrite dedup_fold. Qed.

Lemma dedup_from_sublist l seen : dedup_from seen l `sublist_of` l.
Proof.
  revert seen. induction l as [|v l IH]; intros seen; simpl; [done|].
  destruct (decide (key v ∈ seen)).
  - by apply sublist_cons.
  - by apply sublist_skip.
Qed.

Lemma dedup_from_fresh l seen (v : violation) :
  v ∈ dedup_from seen l -> key v ∉ seen.
Proof.
  revert seen. induction l as [|w l IH]; intros seen; simpl.
  - by inversion 1.
  - destruct (decide (key w ∈ seen)); [by apply IH|].
    intros [->|H]%elem_of_cons; [done|].
    apply IH in H. set_solver.
Qed.

Lemma dedup_from_NoDup l seen : NoDup (key <$> dedup_from seen l).
Proof.
  revert seen. induction l as [|v l IH]; intros seen; simpl; [constructor|].
  destruct (decide (key v ∈ seen)); [by apply IH|].
  simpl. constructor; [|by apply IH].
  intros (w & Hk & Hw)%list_elem_of_fmap.
  apply dedup_from_fresh in Hw. apply Hw.
  apply elem_of_union_l, elem_of_singleton. congruence.
Qed.

Lemma dedup_from_covers l seen (v : violation) :
  v ∈ l -> key v ∈ seen \/ key v ∈ key <$> dedup_from seen l.
Proof.
  revert seen. induction l as [|w l IH]; intros seen; [by inversion 1|].
  simpl. intros [->|H]%elem_of_cons.
  - destruct (decide (key w ∈ seen)); [by left|].
    right. simpl. by left.
  - destruct (decide (key w ∈ seen)); [by apply IH|].
    destruct (IH ({[key w]} ∪ seen) H) as [Hs|Hs].
    + apply elem_of_union in Hs as [->%elem_of_singleton|Hs]; [|by left].
      right. simpl. by left.
    + right. simpl. by right.
Qed.

(** A violation that is kept is the first of the input with its key. *)
Lemma dedup_from_first l seen (v : violation) :
  v ∈ dedup_from seen l ->
  exists l1 l2, l = l1 ++ v :: l2 /\ key v ∉ key <$> l1.
Proof.
  revert seen. induction l as [|w l IH]; intros seen; simpl.
  - by inversion 1.
  - destruct (decide (key w ∈ seen)) as [Hin|Hin].
    + intros H. pose proof (dedup_from_fresh _ _ _ H) as Hv.
      destruct (IH _ H) as (l1 & l2 & -> & Hk).
      exists (w :: l1), l2. split; [done|].
      simpl. intros [Heq|?]%elem_of_cons; [|done]. congruence.
    + intros [->|H]%elem_of_cons.
      * exists [], l. split; [done|]. simpl. by inversion 1.
      * pose proof (dedup_from_fresh _ _ _ H) as Hv.
        destruct (IH _ H) as (l1 & l2 & -> & Hk).
        exists (w :: l1), l2. split; [done|].
        simpl. intros [Heq|?]%elem_of_cons; [|done].
        apply Hv, elem_of_union_l, elem_of_singleton. done.
Qed.

Lemma dedup_from_app l1 l2 seen :
  dedup_from seen (l1 ++ l2)
  = dedup_from seen l1 ++ dedup_from (seen ∪ keys_of l1) l2.
Proof.
  revert seen. induction l1 as [|v l1 IH]; intros seen; simpl.
  - f_equal. unfold keys_of. simpl. set_solver.
  - destruct (decide (key v ∈ seen)).
    + rewrite IH. do 2 f_equal. unfold keys_of. simpl. set_solver.
    + simpl. rewrite IH. do 3 f_equal. unfold keys_of. simpl. set_solver.
Qed.

Lemma dedup_from_seen l seen : keys_of l ⊆ seen -> dedup_from seen l = [].
Proof.
  revert seen. induction l as [|v l IH]; intros seen H; simpl; [done|].
  unfold keys_of in H. simpl in H.
  destruct (decide (key v ∈ seen)); [|set_solver].
  apply IH. unfold keys_of. set_solver.
Qed.

Lemma dedup_from_id l seen :
  NoDup (key <$> l) -> keys_of l ## seen -> dedup_from seen l = l.
Proof.
  revert seen. induction l as [|v l IH]; intros seen Hnd Hd; simpl; [done|].
  unfold keys_of in Hd. simpl in *. apply NoDup_cons in Hnd as [Hv Hnd].
  destruct (decide (key v ∈ seen)); [set_solver|].
  f_equal. apply IH; [done|]. unfold keys_of.
  apply disjoint_union_r. split; [|set_solver].
  apply disjoint_singleton_r. by rewrite elem_of_list_to_set.
Qed.

(** Deduplicating a deduplicated list twice over changes nothing. *)
Lemma unique_violations_twice l :
  unique_violations (unique_violations l ++ unique_violations l)
  = unique_violations l.
Proof.
  rewrite !unique_violations_dedup, dedup_from_app.
  set (u := dedup_from ∅ l).
  rewrite (dedup_from_id u ∅); [|apply dedup_from_NoDup|apply disjoint_empty_r].
  rewrite (dedup_from_seen u (∅ ∪ keys_of u)); [by rewrite app_nil_r|].
  apply union_subseteq_r.
Qed.

(** The first loop sees the usable results only. *)
Lemma usable_error (r : result) : usable r <-> error r = None.
Proof. unfold usable. destruct (error r); simpl; naive_solver. Qed.

Lemma fold_step_usable (rs : list result) (a : acc) :
  fold_left step rs a = fold_left step (filter usable rs) a.
Proof.
  revert a. induction rs as [|r rs IH]; intros a; [done|].
  destruct (error r) eqn:He.
  - rewrite filter_cons_False by (rewrite usable_error; congruence).
    simpl. unfold step at 2. by rewrite He.
  - rewrite filter_cons_True by (by apply usable_error).
    simpl. by rewrite IH.
Qed.

Lemma fold_step_violations (rs : list result) (a : acc) :
  acc_violations (fold_left step rs a) = acc_violations a ++ all_violations rs.
Proof.
  unfold all_violations. revert a. induction rs as [|r rs IH]; intros a.
  - simpl. by rewrite app_nil_r.
  - simpl. rewrite IH. unfold step. destruct (error r) eqn:He.
    + by rewrite filter_cons_False by (rewrite usable_error; congruence).
    + rewrite filter_cons_True by (by apply usable_error).
      simpl. by rewrite app_assoc.
Qed.

Lemma fold_step_summaries (rs : list result) (a : acc) :
  summaries (fold_left step rs a)
  = summaries a ++ map (fun r => default "" (summary r)) (filter usable rs).
Proof.
  revert a. induction rs as [|r rs IH]; intros a.
  - simpl. by rewrite app_nil_r.
  - simpl. rewrite IH. unfold step. destruct (error r) eqn:He.
    + by rewrite filter_cons_False by (rewrite usable_error; congruence).
    + rewrite filter_cons_True by (by apply usable_error).
      simpl. by rewrite <- app_assoc.
Qed.

Lemma merge_violations (rs : list result) :
  violations (merge_chunk_results rs) = Some (dedup_from ∅ (all_violations rs)).
Proof.
  unfold merge_chunk_results. simpl.
  by rewrite fold_step_violations, unique_violations_dedup.
Qed.

End merge_facts.


(** *** Claims on the merge of chunk results *)

Lemma merge_summary (rs : list result) :
  summary (Merge.merge_chunk_results rs)
  = Some (if bool_decide (filter Merge.usable rs = []) then "Analysis complete."
          else join " " (map (fun r => default "" (summary r))
                             (filter Merge.usable rs))).
Proof.
  unfold Merge.merge_chunk_results. simpl. rewrite fold_step_summaries. simpl.
  destruct (filter Merge.usable rs); done.
Qed.

(** C4.  The violations of the merged result are the concatenated violations
    of the usable results with later duplicates dropped, the identity of a
    violation being the triple of its [file], [line] and [rule_id]: they
    keep the input order, no two of them have the same triple, every input
    violation has its triple among them, and each of them is the first input
    violation with its triple, whatever its other fields are. *)
Theorem merge_dedup_first_seen (rs : list result) :
  let triple (v : violation) :=
    (get_or_none (file v), get_or_none (line v), get_or_none (rule_id v)) in
  exists out : list violation,
    violations (Merge.merge_chunk_results rs) = Some out
    /\ out `sublist_of` Merge.all_violations rs
    /\ NoDup (triple <$> out)
    /\ (forall v : violation,
          v ∈ Merge.all_violations rs -> triple v ∈ triple <$> out)
    /\ (forall v : violation,
          v ∈ out ->
          exists l1 l2 : list violation,
            Merge.all_violations rs = l1 ++ v :: l2
            /\ triple v ∉ triple <$> l1)
    /\ (forall v w : violation,
          v ∈ out -> w ∈ out ->
          get_or_none (file v) = get_or_none (file w) ->
          get_or_none (line v) = get_or_none (line w) ->
          get_or_none (rule_id v) = get_or_none (rule_id w) ->
          v = w).
Proof.
  intros triple. change triple with Merge.key.
  exists (dedup_from ∅ (Merge.all_violations rs)).
  split; [apply merge_violations|].
  split; [apply dedup_from_sublist|].
  split; [apply dedup_from_NoDup|].
  split; [|split].
  - intros v Hv. by destruct (dedup_from_covers _ ∅ _ Hv).
  - intros v Hv. by apply dedup_from_first in Hv.
  - intros v w Hv Hw Hf Hl Hr.
    pose proof (dedup_from_NoDup (Merge.all_violations rs) ∅) as Hnd.
    apply list_elem_of_lookup in Hv as [i Hi], Hw as [j Hj].
    assert (i = j) as ->; [|congruence].
    apply (NoDup_lookup _ i j (Merge.key v) Hnd).
    + by rewrite list_lookup_fmap, Hi.
    + rewrite list_lookup_fmap, Hj. simpl. unfold Merge.key.
      by rewrite Hf, Hl, Hr.
Qed.

(** C6.  A result with [error] set contributes nothing to the merged result:
    merging gives what merging the results without [error] gives.  When every
    result has [error] set, the merged summary is "Analysis complete." and
    there are no violations. *)
Theorem merge_skips_errors (rs : list result) :
  Merge.merge_chunk_results rs
  = Merge.merge_chunk_results (filter Merge.usable rs)
  /\ (Forall (fun r => error r <> None) rs ->
      summary (Merge.merge_chunk_results rs) = Some "Analysis complete."
      /\ violations (Merge.merge_chunk_results rs) = Some []).
Proof.
  split.
  - unfold Merge.merge_chunk_results. by rewrite <- fold_step_usable.
  - intros Hall.
    assert (filter Merge.usable rs = []) as Hnone.
    { induction Hall as [|r rs Hr _ IH]; [done|].
      rewrite filter_cons_False; [done|]. by rewrite usable_error. }
    rewrite merge_summary, merge_violations. unfold Merge.all_violations.
    by rewrite Hnone.
Qed.

Lemma merge_skips_errors_witness :
  summary (Merge.merge_chunk_results [failed_result; failed_result])
  = Some "Analysis complete."
  /\ violations (Merge.merge_chunk_results [failed_result; failed_result])
     = Some [].
Proof.
  apply (proj2 (merge_skips_errors [failed_result; failed_result])).
  repeat constructor; discriminate.
Defined.

(** C7.  Merging the merged result with itself gives the violations of the
    merged result again, as a list and so as a set; so does merging the
    merged result alone. *)
Theorem merge_idempotent (rs : list result) :
  violations (Merge.merge_chunk_results
                [Merge.merge_chunk_results rs; Merge.merge_chunk_results rs])
  = violations (Merge.merge_chunk_results rs)
  /\ violations (Merge.merge_chunk_results [Merge.merge_chunk_results rs])
     = violations (Merge.merge_chunk_results rs).
Proof.
  rewrite !merge_violations. unfold Merge.all_violations.
  rewrite !filter_cons_True by done. rewrite filter_nil. simpl.
  rewrite !fold_step_violations. simpl. rewrite !app_nil_r.
  rewrite <- !unique_violations_dedup.
  split; f_equal.
  - apply unique_violations_twice.
  - rewrite !unique_violations_dedup.
    apply dedup_from_id; [apply dedup_from_NoDup|apply disjoint_empty_r].
Qed.

(** ** ResponseNormalizer *)

Lemma prefix_slice_prefix (n : nat) (s : string) :
  exists rest : string, s = prefix_slice n s +:+ rest.
Proof.
  unfold prefix_slice. revert s. induction n as [|n IH]; intros s.
  - exists s. by destruct s.
  - destruct s as [|c s]; [by exists ""|].
    destruct (IH s) as [rest Hrest]. exists rest. simpl.
    by rewrite str_app_cons, <- Hrest.
Qed.

Lemma prefix_slice_length (n : nat) (s : string) :
  String.length (prefix_slice n s) = Nat.min n (String.length s).
Proof.
  unfold prefix_slice. revert s. induction n as [|n IH]; intros s.
  - by destruct s.
  - destruct s as [|c s]; [done|]. simpl. by rewrite IH.
Qed.

Example response_text_fenced :
  Normalizer.response_text
    ("  ```json" +:+ nl +:+ "{a" +:+ nl +:+ "b}" +:+ nl +:+ "```" +:+ nl +:+ "trailer")
  = "{a" +:+ nl +:+ "b}".
Proof. reflexivity. Qed.

(** ** DiffSegmenter *)

Section segment_facts.

Import Segmenter.

Implicit Types (d : list (string * string)) (bs : list (string * string)).

Lemma set_all_app bs1 bs2 d :
  set_all (bs1 ++ bs2) d = set_all bs2 (set_all bs1 d).
Proof. apply fold_left_app. Qed.

Lemma set_all_open (st : state) :
  set_all (open_block st []) (sections st) = save st.
Proof.
  unfold open_block, save. rewrite app_nil_r. by destruct (current_file st).
Qed.

Lemma save_fold (lines : list string) (st : state) :
  save (fold_left step lines st)
  = set_all (open_block st (blocks_go lines).1 ++ blocks lines) (sections st).
Proof.
  unfold blocks. revert st. induction lines as [|l ls IH]; intros st.
  - cbn [fold_left blocks_go fst snd]. by rewrite app_nil_r, set_all_open.
  - cbn [fold_left blocks_go]. rewrite IH.
    destruct (blocks_go ls) as [body bs]. unfold step.
    destruct (match_header l) as [p|]; cbn [fst snd].
    + by rewrite (set_all_app (open_block st [])), set_all_open.
    + unfold open_block. destruct (current_file st) as [f|] eqn:Hf;
        cbn [current_file current_content sections]; [|by rewrite Hf].
      by rewrite <- app_assoc.
Qed.

Lemma parse_lines_blocks (lines : list string) :
  parse_lines lines = set_all (blocks lines) [].
Proof. unfold parse_lines. by rewrite save_fold. Qed.

(** Lines without header before the first header add no section. *)
Lemma blocks_skip (pre rest : list string) :
  Forall (fun l => match_header l = None) pre ->
  blocks (pre ++ rest) = blocks rest.
Proof.
  unfold blocks. induction 1 as [|l pre Hl _ IH]; [done|].
  simpl. destruct (blocks_go (pre ++ rest)) as [body bs].
  rewrite Hl. simpl in *. done.
Qed.

Lemma blocks_none (lines : list string) :
  Forall (fun l => match_header l = None) lines -> blocks lines = [].
Proof.
  intros H. rewrite <- (app_nil_r lines). by rewrite blocks_skip.
Qed.

Lemma blocks_paths (lines : list string) :
  (blocks lines).*1 = omap match_header lines.
Proof.
  unfold blocks. induction lines as [|l ls IH]; [done|].
  simpl. destruct (blocks_go ls) as [body bs]. simpl in IH.
  destruct (match_header l); simpl; [f_equal|]; exact IH.
Qed.

Lemma dict_set_keys d (k v : string) :
  (dict_set d k v).*1 = if bool_decide (k ∈ d.*1) then d.*1 else d.*1 ++ [k].
Proof.
  induction d as [|[k' v'] d IH]; [done|].
  cbn [dict_set]. destruct (decide (k' = k)) as [->|Hne];
    rewrite !fmap_cons; cbn [fst].
  - rewrite bool_decide_eq_true_2; [done|]. by left.
  - rewrite IH. case_bool_decide as Hin.
    + rewrite bool_decide_eq_true_2; [done|]. by right.
    + rewrite bool_decide_eq_false_2; [done|].
      intros [?|?]%elem_of_cons; congruence.
Qed.

(** The keys of the dictionary are the paths in the order of their first
    header. *)
Lemma set_all_keys bs d : (set_all bs d).*1 = d.*1 ++ firsts d.*1 bs.*1.
Proof.
  unfold set_all. revert d. induction bs as [|[k v] bs IH]; intros d.
  - cbn [fold_left firsts]. by rewrite fmap_nil, app_nil_r.
  - cbn [fold_left fst snd]. rewrite IH, dict_set_keys, fmap_cons.
    cbn [firsts fst]. case_bool_decide; [done|].
    by rewrite <- app_assoc.
Qed.

Lemma dict_get_set d (k v p : string) :
  dict_get (dict_set d k v) p = if decide (k = p) then Some v else dict_get d p.
Proof.
  induction d as [|[k' v'] d IH]; simpl.
  - by destruct (decide (k = p)).
  - destruct (decide (k' = k)) as [->|Hne]; simpl.
    + by destruct (decide (k = p)).
    + destruct (decide (k' = p)) as [->|]; [|done].
      by rewrite decide_False by congruence.
Qed.

(** The content under a path is the content of the last section with it. *)
Lemma set_all_get bs d (p : string) :
  dict_get (set_all bs d) p
  = match last (filter (fun b => b.1 = p) bs) with
    | Some b => Some b.2
    | None => dict_get d p
    end.
Proof.
  unfold set_all. revert d. induction bs as [|[k v] bs IH]; intros d; [done|].
  simpl. rewrite IH, dict_get_set.
  destruct (decide (k = p)) as [->|Hne].
  - rewrite filter_cons_True by done.
    destruct (filter (fun b => b.1 = p) bs) as [|b F]; [done|].
    change (last ((p, v) :: b :: F)) with (last (b :: F)).
    destruct (last (b :: F)) eqn:HL; [done|]. by apply last_None in HL.
  - by rewrite filter_cons_False by done.
Qed.

Lemma dict_set_fresh d (k v : string) :
  k ∉ d.*1 -> dict_set d k v = d ++ [(k, v)].
Proof.
  induction d as [|[k' v'] d IH]; [done|].
  rewrite fmap_cons. cbn [fst]. intros [Hne Hd]%not_elem_of_cons.
  cbn [dict_set]. rewrite decide_False by congruence.
  by rewrite IH.
Qed.

(** Sections with pairwise different paths are stored as they come. *)
Lemma set_all_distinct bs d : NoDup (d.*1 ++ bs.*1) -> set_all bs d = d ++ bs.
Proof.
  unfold set_all. revert d. induction bs as [|[k v] bs IH]; intros d Hnd.
  - by rewrite app_nil_r.
  - cbn [fold_left fst snd]. rewrite fmap_cons in Hnd. cbn [fst] in Hnd.
    rewrite dict_set_fresh.
    + rewrite IH; [by rewrite <- app_assoc|].
      by rewrite fmap_app, <- app_assoc.
    + apply NoDup_app in Hnd as (_ & Hdis & _).
      intros Hk. apply (Hdis k Hk). by left.
Qed.

(** A header whose old path has no blank yields the new path. *)
Lemma find_new_path_plain (old new : string) :
  all_chars (fun c => negb (Ascii.eqb c " ")) old = true ->
  new <> "" ->
  find_new_path (old +:+ " b/" +:+ new) = Some new.
Proof.
  intros Hold Hnew. induction old as [|c old IH].
  - rewrite str_app_nil_l. change (" b/" +:+ new) with (String " " ("b/" +:+ new)).
    simpl. by destruct new.
  - simpl in Hold. apply andb_true_iff in Hold as [Hc Hold].
    rewrite str_app_cons. cbn [find_new_path].
    assert (drop_prefix " b/" (String c (old +:+ " b/" +:+ new)) = None) as ->.
    { cbn [drop_prefix]. rewrite Ascii.eqb_sym. by destruct (Ascii.eqb c " "). }
    by apply IH.
Qed.

Lemma match_header_plain (old new : string) :
  all_chars (fun c => negb (Ascii.eqb c " ")) old = true ->
  old <> "" -> new <> "" ->
  match_header ("diff --git a/" +:+ old +:+ " b/" +:+ new) = Some new.
Proof.
  intros Hold Hne Hnew. unfold match_header. rewrite drop_prefix_app.
  destruct old as [|c old]; [done|]. rewrite str_app_cons.
  simpl in Hold. apply andb_true_iff in Hold as [_ Hold].
  by apply find_new_path_plain.
Qed.

(** [find_new_path] cuts at the first [" b/"] that has text behind it. *)
Lemma find_new_path_first (s : string) :
  match find_new_path s with
  | Some p =>
      exists pre : string,
        s = pre +:+ " b/" +:+ p /\ p <> ""
        /\ forall pre' p' : string,
             s = pre' +:+ " b/" +:+ p' -> p' <> "" ->
             (String.length pre <= String.length pre')%nat
  | None =>
      forall pre' p' : string, p' <> "" -> s <> pre' +:+ " b/" +:+ p'
  end.
Proof.
  induction s as [|a s IH].
  { simpl. intros pre' p' _ H. destruct pre'; discriminate H. }
  assert (forall pre' p' : string,
            (drop_prefix " b/" (String a s) = None
             \/ drop_prefix " b/" (String a s) = Some "") ->
            String a s = pre' +:+ " b/" +:+ p' -> p' <> "" ->
            exists pre0 : string,
              pre' = String a pre0 /\ s = pre0 +:+ " b/" +:+ p') as Hshift.
  { intros pre' p' Hd Heq Hp'. destruct pre' as [|b pre0].
    - rewrite str_app_nil_l in Heq. rewrite Heq, drop_prefix_app in Hd.
      destruct Hd as [Hd|Hd]; congruence.
    - rewrite str_app_cons in Heq. injection Heq as <- ->. by exists pre0. }
  cbn [find_new_path].
  destruct (drop_prefix " b/" (String a s)) as [p|] eqn:Hd.
  - destruct p as [|c p].
    + cbn [truthy].
      destruct (find_new_path s) as [q|].
      * destruct IH as (pre & -> & Hq & Hmin). exists (String a pre).
        split; [by rewrite str_app_cons|]. split; [done|].
        intros pre' p' Heq Hp'.
        destruct (Hshift pre' p' (or_intror eq_refl) Heq Hp') as (pre0 & -> & Hs).
        simpl. apply le_n_S. by apply (Hmin pre0 p').
      * intros pre' p' Hp' Heq.
        destruct (Hshift pre' p' (or_intror eq_refl) Heq Hp') as (pre0 & -> & Hs).
        by apply (IH pre0 p').
    + cbn [truthy]. exists "". apply drop_prefix_Some in Hd.
      split; [by rewrite str_app_nil_l|]. split; [done|]. intros; simpl; lia.
  - destruct (find_new_path s) as [q|].
    + destruct IH as (pre & -> & Hq & Hmin). exists (String a pre).
      split; [by rewrite str_app_cons|]. split; [done|].
      intros pre' p' Heq Hp'.
      destruct (Hshift pre' p' (or_introl eq_refl) Heq Hp') as (pre0 & -> & Hs).
      simpl. apply le_n_S. by apply (Hmin pre0 p').
    + intros pre' p' Hp' Heq.
      destruct (Hshift pre' p' (or_introl eq_refl) Heq Hp') as (pre0 & -> & Hs).
      by apply (IH pre0 p').
Qed.

(** The header lines are the lines [diff --git a/OLD b/NEW] with both paths
    non-empty, and the path taken is the [NEW] of the shortest [OLD]. *)
Lemma match_header_first (line : string) :
  match match_header line with
  | Some p =>
      exists old : string,
        header_of line old p
        /\ forall old' new' : string,
             header_of line old' new' ->
             (String.length old <= String.length old')%nat
  | None => forall old new : string, ~ header_of line old new
  end.
Proof.
  unfold match_header, header_of.
  destruct (drop_prefix "diff --git a/" line) as [x|] eqn:Hd.
  - apply drop_prefix_Some in Hd. subst line.
    assert (forall y : string,
              "diff --git a/" +:+ x = "diff --git a/" +:+ y -> x = y) as Hinj.
    { intros y Hy. apply (f_equal (drop_prefix "diff --git a/")) in Hy.
      rewrite !drop_prefix_app in Hy. congruence. }
    destruct x as [|c rest].
    + intros old new (Heq%Hinj & Hold & _). by destruct old.
    + pose proof (find_new_path_first rest) as Hrest.
      destruct (find_new_path rest) as [p|].
      * destruct Hrest as (pre & -> & Hp & Hmin). exists (String c pre).
        split; [by rewrite !str_app_cons|].
        intros old' new' (Heq%Hinj & Hold & Hnew).
        destruct old' as [|c' pre0]; [done|].
        rewrite str_app_cons in Heq. injection Heq as <- Heq.
        simpl. apply le_n_S. by apply (Hmin pre0 new').
      * intros old new (Heq%Hinj & Hold & Hnew).
        destruct old as [|c' pre0]; [done|].
        rewrite str_app_cons in Heq. injection Heq as <- Heq.
        by apply (Hrest pre0 new).
  - intros old new (-> & _). by rewrite drop_prefix_app in Hd.
Qed.

End segment_facts.

(** *** Claims on the segmenter *)

Example parse_twice_x :
  Segmenter.parse_diff_sections twice_x_diff
  = [("x.py", "diff --git a/x.py b/x.py" +:+ nl +:+ "+3");
     ("y", "diff --git a/y b/y" +:+ nl +:+ "-2")].
Proof. reflexivity. Qed.

Example match_header_lazy :
  Segmenter.match_header "diff --git a/a b/c b/d" = Some "c b/d"
  /\ Segmenter.match_header "diff --git a/ b/c" = None
  /\ Segmenter.match_header "diff --git a/x b/" = None
  /\ Segmenter.match_header " diff --git a/x b/x" = None.
Proof. repeat split. Qed.

(** A header line opens a section that runs up to the next header line. *)
Lemma blocks_go_body (body rest : list string) :
  Forall (fun l => Segmenter.match_header l = None) body ->
  blocks_go (body ++ rest) = (body ++ (blocks_go rest).1, blocks rest).
Proof.
  unfold blocks. induction 1 as [|l body Hl _ IH].
  - simpl. by destruct (blocks_go rest).
  - cbn [app blocks_go]. by rewrite IH, Hl.
Qed.

Lemma blocks_section (h p : string) (body rest : list string) :
  Segmenter.match_header h = Some p ->
  Forall (fun l => Segmenter.match_header l = None) body ->
  (blocks_go rest).1 = [] ->
  blocks (h :: body ++ rest) = (p, join nl (h :: body)) :: blocks rest.
Proof.
  intros Hh Hbody Hrest. unfold blocks at 1. cbn [blocks_go].
  rewrite blocks_go_body, Hh, Hrest, app_nil_r by done. done.
Qed.

(** The path of a section is not always the new path of its header: for the
    file [lib b/util.py] the pattern cuts the header at its first [" b/"]. *)
Lemma header_path_not_new :
  spaced_header = "diff --git a/" +:+ "lib b/util.py" +:+ " b/" +:+ "lib b/util.py"
  /\ Segmenter.parse_diff_sections spaced_header
     = [("util.py b/lib b/util.py", spaced_header)]
  /\ "util.py b/lib b/util.py" <> "lib b/util.py".
Proof. repeat split. discriminate. Qed.

(** C9.  For every diff text: the lines before the first header line form no
    section; without a header line there is no section; the paths of the
    sections are the paths of the header lines, in the order in which each
    path first has a header, so that with pairwise different paths the
    sections are those of the header lines in their order; the content kept
    under a path is that of the last header with this path.  The header
    lines are the lines [diff --git a/OLD b/NEW] with neither path empty,
    and the path of a header line is the [NEW] of the reading with the
    shortest [OLD]: the text behind the first [" b/"] that follows a
    character of the old path and has text behind it.  That is the new path
    when the old path has no blank. *)
Theorem segment_sections (diff_content : string) :
  (forall pre rest : list string,
     split diff_content nl = pre ++ rest ->
     Forall (fun l => Segmenter.match_header l = None) pre ->
     Segmenter.parse_diff_sections diff_content = Segmenter.parse_lines rest)
  /\ (Forall (fun l => Segmenter.match_header l = None) (split diff_content nl) ->
      Segmenter.parse_diff_sections diff_content = [])
  /\ (Segmenter.parse_diff_sections diff_content).*1
     = firsts [] (omap Segmenter.match_header (split diff_content nl))
  /\ (NoDup (omap Segmenter.match_header (split diff_content nl)) ->
      Segmenter.parse_diff_sections diff_content
      = blocks (split diff_content nl))
  /\ (forall p : string,
        Segmenter.dict_get (Segmenter.parse_diff_sections diff_content) p
        = snd <$> last (filter (fun b => b.1 = p) (blocks (split diff_content nl))))
  /\ Forall
       (fun line =>
          match Segmenter.match_header line with
          | Some p =>
              exists old : string,
                header_of line old p
                /\ forall old' new' : string,
                     header_of line old' new' ->
                     (String.length old <= String.length old')%nat
          | None => forall old new : string, ~ header_of line old new
          end)
       (split diff_content nl)
  /\ (forall old new : string,
        all_chars (fun c => negb (Ascii.eqb c " ")) old = true ->
        old <> "" -> new <> "" ->
        Segmenter.match_header ("diff --git a/" +:+ old +:+ " b/" +:+ new)
        = Some new).
Proof.
  unfold Segmenter.parse_diff_sections. rewrite !parse_lines_blocks.
  split; [|split; [|split; [|split; [|split; [|split]]]]].
  - intros pre rest -> Hpre. by rewrite parse_lines_blocks, blocks_skip.
  - intros Hnone. by rewrite blocks_none.
  - by rewrite set_all_keys, blocks_paths.
  - intros Hnd. rewrite set_all_distinct; [done|]. by rewrite blocks_paths.
  - intros p. rewrite set_all_get.
    by destruct (last (filter (fun b => b.1 = p) (blocks (split diff_content nl)))).
  - apply Forall_forall. intros line _. apply match_header_first.
  - apply match_header_plain.
Qed.

Lemma segment_sections_witness :
  Segmenter.parse_diff_sections twice_x_diff
  = Segmenter.parse_lines
      ["diff --git a/x.py b/x.py"; "+1"; "diff --git a/y b/y"; "-2";
       "diff --git a/x.py b/x.py"; "+3"].
Proof.
  apply (proj1 (segment_sections twice_x_diff) ["index 0000"]).
  - reflexivity.
  - repeat constructor.
Defined.

(** ** ResultAggregator: the severity order *)

Section sort_facts.

Import Review.

Context {A : Type} (k : A -> Z).

Lemma insert_by_perm (x : A) (l : list A) : Permutation (insert_by k x l) (x :: l).
Proof.
  induction l as [|y l IH]; simpl; [done|].
  destruct (k x <=? k y); [done|].
  rewrite IH. apply perm_swap.
Qed.

Lemma sorted_by_perm (l : list A) : Permutation (sorted_by k l) l.
Proof.
  induction l as [|x l IH]; simpl; [done|].
  by rewrite insert_by_perm, IH.
Qed.

Lemma insert_by_sorted (x : A) (l : list A) :
  StronglySorted (fun a b => k a <= k b) l ->
  StronglySorted (fun a b => k a <= k b) (insert_by k x l).
Proof.
  induction 1 as [|y l Hs IH Hy]; simpl.
  - repeat constructor.
  - destruct (Z.leb_spec (k x) (k y)) as [Hle|Hlt].
    + constructor; [by constructor|].
      constructor; [done|].
      eapply Forall_impl; [exact Hy|]. simpl. intros; lia.
    + constructor; [done|].
      rewrite insert_by_perm. constructor; [lia|done].
Qed.

Lemma sorted_by_sorted (l : list A) :
  StronglySorted (fun a b => k a <= k b) (sorted_by k l).
Proof.
  induction l as [|x l IH]; simpl; [constructor|].
  by apply insert_by_sorted.
Qed.

(** Stability: the elements of one key keep their order. *)
Lemma insert_by_stable (c : Z) (x : A) (l : list A) :
  filter (fun y => k y = c) (insert_by k x l)
  = filter (fun y => k y = c) (x :: l).
Proof.
  induction l as [|y l IH]; simpl; [done|].
  destruct (Z.leb_spec (k x) (k y)) as [Hle|Hlt]; [done|].
  rewrite (filter_cons _ y), IH, (filter_cons _ x (y :: l)).
  rewrite (filter_cons _ y l), (filter_cons _ x l).
  repeat case_decide; try done; lia.
Qed.

Lemma sorted_by_stable (c : Z) (l : list A) :
  filter (fun y => k y = c) (sorted_by k l) = filter (fun y => k y = c) l.
Proof.
  induction l as [|x l IH]; simpl; [done|].
  rewrite insert_by_stable, !filter_cons, IH. done.
Qed.

End sort_facts.

Section severity_facts.

Import Review.

Lemma severity_key_rank (v : violation) (i : nat) :
  SEVERITY_ORDER !! i = Some (effective_severity v) ->
  severity_key v = Z.of_nat i.
Proof.
  unfold severity_key. generalize (effective_severity v). intros sev H.
  do 5 (destruct i as [|i]; [injection H as <-; reflexivity|]).
  discriminate.
Qed.

Lemma index_of_None (x : string) (l : list string) :
  x ∉ l -> index_of x l = None.
Proof.
  induction l as [|y l IH]; [done|].
  intros H. apply not_elem_of_cons in H as [Hne Hl]. simpl.
  rewrite decide_False by congruence. by rewrite IH.
Qed.

Lemma severity_key_unknown (v : violation) :
  effective_severity v ∉ SEVERITY_ORDER -> severity_key v = 99.
Proof. intros H. unfold severity_key. by rewrite index_of_None. Qed.

Lemma first_present_None (order severities : list string) :
  Forall (fun s => s ∉ severities) order ->
  first_present order severities = None.
Proof.
  induction 1 as [|s order Hs _ IH]; [done|].
  simpl. by rewrite bool_decide_eq_false_2.
Qed.

(** The count under a severity is the number of violations that carry it,
    a missing severity being read as "medium". *)
Lemma count_fold (vs : list violation) (m : gmap string Z) (s : string) :
  default 0 (fold_left count_step vs m !! s)
  = default 0 (m !! s)
    + Z.of_nat (length (filter (fun v => default "medium" (severity v) = s) vs)).
Proof.
  revert m. induction vs as [|v vs IH]; intros m; simpl; [lia|].
  rewrite IH. unfold count_step.
  destruct (decide (default "medium" (severity v) = s)) as [Heq|Hne].
  - rewrite filter_cons_True by done. rewrite Heq, lookup_insert_eq. simpl. lia.
  - rewrite filter_cons_False by done. by rewrite lookup_insert_ne.
Qed.

End severity_facts.


(** *** Claims on the severity order *)

(** C3, as the specification states it, fails: the severity "HIGH" is not a
    member of the fixed set, yet it does not sort last; it sorts as "high",
    before "low", because severities are put in lower case first. *)
Lemma severity_outside_set_not_last :
  ("HIGH" ∉ Review.SEVERITY_ORDER)
  /\ severity v_HIGH = Some "HIGH"
  /\ Review.aggregate_violations [result_of [v_low; v_HIGH]]
     = [tagged v_HIGH; tagged v_low].
Proof.
  split; [|split; reflexivity].
  unfold Review.SEVERITY_ORDER. rewrite !elem_of_cons, elem_of_nil.
  intros [?|[?|[?|[?|[?|[]]]]]]; discriminate.
Qed.

(** C3, amended.  Aggregation returns the tagged violations of the results
    rearranged in ascending order of their rank, the violations of equal rank
    in their input order.  The rank of a violation is the position of its
    severity, put in lower case, in the order critical, high, medium, low,
    info; a violation whose severity in lower case is outside this set has
    rank 99 and so comes last.  Severities given as low, critical, high,
    critical, info come out as the first critical, the second critical,
    high, low, info. *)
Theorem aggregate_sorted_stable (results : list result) :
  Permutation (Review.aggregate_violations results) (Review.collect results)
  /\ StronglySorted (fun a b => Review.severity_key a <= Review.severity_key b)
       (Review.aggregate_violations results)
  /\ (forall c : Z,
        filter (fun v => Review.severity_key v = c)
               (Review.aggregate_violations results)
        = filter (fun v => Review.severity_key v = c) (Review.collect results))
  /\ (forall (v : violation) (i : nat),
        Review.SEVERITY_ORDER !! i = Some (Review.effective_severity v) ->
        Review.severity_key v = Z.of_nat i)
  /\ (forall v : violation,
        Review.effective_severity v ∉ Review.SEVERITY_ORDER ->
        Review.severity_key v = 99)
  /\ Review.aggregate_violations
       [result_of [v_low; v_critical1; v_high; v_critical2; v_info]]
     = [tagged v_critical1; tagged v_critical2; tagged v_high; tagged v_low;
        tagged v_info].
Proof.
  unfold Review.aggregate_violations.
  split; [apply sorted_by_perm|].
  split; [apply sorted_by_sorted|].
  split; [intros c; apply sorted_by_stable|].
  split; [apply severity_key_rank|].
  split; [apply severity_key_unknown|reflexivity].
Qed.

Lemma aggregate_sorted_stable_witness :
  Review.severity_key v_HIGH = 1 /\ Review.severity_key v_unrated = 2.
Proof.
  split.
  - apply (proj1 (proj2 (proj2 (proj2 (aggregate_sorted_stable [])))) v_HIGH 1%nat).
    reflexivity.
  - reflexivity.
Defined.

(** C10, as stated, fails in its last part: the one severity of this list,
    "HIGH", is not in the fixed set, and the reported maximum is "high". *)
Lemma max_severity_in_capitals :
  [v_HIGH] <> []
  /\ Forall (fun v => severity v <> None
                      /\ (default "medium" (severity v) ∉ Review.SEVERITY_ORDER))
       [v_HIGH]
  /\ Review.get_max_severity [v_HIGH] = "high"
  /\ Review.get_max_severity [v_HIGH] <> "medium".
Proof.
  split; [done|]. split; [|split; [reflexivity|discriminate]].
  constructor; [|constructor]. split; [discriminate|].
  simpl. unfold Review.SEVERITY_ORDER. rewrite !elem_of_cons, elem_of_nil.
  intros [?|[?|[?|[?|[?|[]]]]]]; discriminate.
Qed.

(** C10, amended.  A violation without severity has the rank of "medium"; it
    is counted under "medium" by severity; it makes "medium" the reported
    maximum when no violation is critical or high; and when the list is not
    empty and no violation has its severity, put in lower case, in the fixed
    set, the reported maximum is "medium". *)
Theorem missing_severity_is_medium (violations : list violation) :
  (forall v : violation,
     severity v = None ->
     Review.effective_severity v = "medium" /\ Review.severity_key v = 2)
  /\ (forall s : string,
        default 0 (Review.by_severity violations !! s)
        = Z.of_nat (length (filter (fun v => default "medium" (severity v) = s)
                                   violations)))
  /\ (forall v : violation,
        v ∈ violations -> severity v = None ->
        Forall (fun w => Review.effective_severity w <> "critical"
                         /\ Review.effective_severity w <> "high") violations ->
        Review.get_max_severity violations = "medium")
  /\ (violations <> [] ->
      Forall (fun v => Review.effective_severity v ∉ Review.SEVERITY_ORDER)
             violations ->
      Review.get_max_severity violations = "medium").
Proof.
  split; [|split; [|split]].
  - intros v Hv. unfold Review.severity_key, Review.effective_severity.
    by rewrite Hv.
  - intros s. unfold Review.by_severity. rewrite count_fold.
    by rewrite lookup_empty.
  - intros v Hin Hv Hall. unfold Review.get_max_severity.
    destruct violations as [|w ws]; [by inversion Hin|].
    set (sevs := map Review.effective_severity (w :: ws)).
    assert (("critical" ∉ sevs) /\ ("high" ∉ sevs) /\ ("medium" ∈ sevs))
      as (Hc & Hh & Hm).
    { unfold sevs. repeat split.
      - intros (x & Hx & Hxin)%list_elem_of_In%in_map_iff.
        apply list_elem_of_In in Hxin.
        rewrite Forall_forall in Hall. by destruct (Hall x Hxin).
      - intros (x & Hx & Hxin)%list_elem_of_In%in_map_iff.
        apply list_elem_of_In in Hxin.
        rewrite Forall_forall in Hall. by destruct (Hall x Hxin).
      - apply list_elem_of_In, in_map_iff. exists v.
        split; [|by apply list_elem_of_In].
        unfold Review.effective_severity. by rewrite Hv. }
    unfold Review.SEVERITY_ORDER. simpl.
    rewrite (bool_decide_eq_false_2 _ Hc), (bool_decide_eq_false_2 _ Hh).
    by rewrite (bool_decide_eq_true_2 _ Hm).
  - intros Hne Hall. unfold Review.get_max_severity.
    destruct violations as [|w ws]; [done|].
    rewrite first_present_None; [done|].
    apply Forall_forall. intros s Hs (x & Hx & Hxin)%list_elem_of_In%in_map_iff.
    apply list_elem_of_In in Hxin. rewrite Forall_forall in Hall.
    apply (Hall x Hxin). by rewrite Hx.
Qed.

Lemma missing_severity_is_medium_witness :
  Review.get_max_severity [v_low; v_unrated; v_info] = "medium".
Proof.
  apply (proj1 (proj2 (proj2 (missing_severity_is_medium [v_low; v_unrated; v_info])))
           v_unrated).
  - apply list_elem_of_In. simpl. tauto.
  - reflexivity.
  - repeat constructor; discriminate.
Defined.


(** *** Claims on the inline comments *)

Lemma uint_digits (d : Decimal.uint) :
  all_chars isdigit_char (NilEmpty.string_of_uint d) = true.
Proof. induction d; simpl; try done. Qed.

Lemma isdigit_str_of_int (z : Z) : isdigit (str_of_int z) = (0 <=? z).
Proof.
  unfold isdigit, str_of_int. destruct z as [|p|p]; simpl; [done| |done].
  unfold NilZero.string_of_uint.
  destruct (Pos.to_uint p) eqn:Hp; simpl; try (by rewrite uint_digits).
  done.
Qed.

(** An integer line within the limit on the digits gives a comment when it
    is positive. *)
Lemma line_number_int (z : Z) :
  (digits z <= int_max_str_digits)%nat ->
  Review.line_number (VInt z) = Returned (if 0 <=? z then Some z else None).
Proof.
  intros Hz. unfold Review.line_number, Review.checked_str_of_int.
  destruct (Nat.ltb_spec int_max_str_digits (digits z)); [lia|].
  cbn [bind]. by rewrite isdigit_str_of_int.
Qed.

(** The example of the specification: of the three violations, the first
    gives the one inline comment. *)
Example inline_example :
  exists body : string,
    Review.inline_comments [v_a10; v_b_unknown; v_null5]
    = Returned [Review.Comment (VStr "a.py") (Some 10) body "medium"].
Proof. eexists. reflexivity. Qed.

(** A digit that is no decimal digit makes [int] raise. *)
Example inline_superscript :
  Review.extract_inline_comments [v_a10; v_line_superscript]
  = Raised "ValueError"
           ("invalid literal for int() with base 10: '"
            +:+ String "178"%char "" +:+ "'").
Proof. reflexivity. Qed.

(** C8 fails on the code.  A violation with a file and the line "0", a
    string, gets an inline comment at line 0, which is no positive integer;
    the integer 0 in the same place gets none. *)
Theorem inline_comment_at_line_zero :
  exists body : string,
    Review.extract_inline_comments [v_line_zero]
    = Returned [Review.Comment (VStr "a.py") (Some 0) body "medium"]
    /\ Review.inline_comments [v_line_zero]
       = Returned [Review.Comment (VStr "a.py") (Some 0) body "medium"]
    /\ Review.inline_comments [v_line_int_zero] = Returned [].
Proof. eexists. repeat split. Qed.

(** * Further properties of the code *)

(** ** Lines and whitespace *)

Section line_facts.

Lemma split_aux_S (fuel : nat) (c : ascii) (s sep : string) :
  split_aux (S fuel) sep (String c s)
  = match drop_prefix sep (String c s) with
    | Some rest => "" :: split_aux fuel sep rest
    | None =>
        match split_aux fuel sep s with
        | p :: ps => String c p :: ps
        | [] => [String c ""]
        end
    end.
Proof. reflexivity. Qed.

(** One step of [split]. *)
Lemma split_unfold (c : ascii) (s sep : string) :
  sep <> "" ->
  split (String c s) sep
  = match drop_prefix sep (String c s) with
    | Some rest => "" :: split rest sep
    | None =>
        match split s sep with
        | p :: ps => String c p :: ps
        | [] => [String c ""]
        end
    end.
Proof.
  intros Hsep. unfold split. rewrite split_aux_S.
  destruct (drop_prefix sep (String c s)) as [rest|] eqn:Hp; [|done].
  f_equal. apply drop_prefix_Some in Hp.
  apply (f_equal String.length) in Hp. rewrite str_length_app in Hp.
  apply split_aux_fuel; [done| |lia].
  destruct sep; [done|]. simpl in Hp |- *. lia.
Qed.

Lemma nl_not_empty : nl <> "".
Proof. done. Qed.

Lemma drop_prefix_nl (c : ascii) (s : string) :
  drop_prefix nl (String c s) = if Ascii.eqb "010" c then Some s else None.
Proof. unfold nl. simpl. destruct (Ascii.eqb "010" c); [|done]. by destruct s. Qed.

Lemma split_nl_cons (c : ascii) (s : string) :
  split (String c s) nl
  = if Ascii.eqb "010" c then "" :: split s nl
    else match split s nl with
         | p :: ps => String c p :: ps
         | [] => [String c ""]
         end.
Proof.
  rewrite split_unfold by apply nl_not_empty. rewrite drop_prefix_nl.
  by destruct (Ascii.eqb "010" c).
Qed.

(** A text without newline is one line. *)
Lemma split_one_line (x : string) : nl_free x = true -> split x nl = [x].
Proof.
  induction x as [|c x IH]; [done|]. unfold nl_free. simpl.
  intros [Hc Hx]%andb_true_iff. rewrite split_nl_cons.
  rewrite Ascii.eqb_sym. destruct (Ascii.eqb c "010"); [done|].
  by rewrite (IH Hx).
Qed.

(** The first line of a text is what stands before its first newline. *)
Lemma split_first_line (x r : string) :
  nl_free x = true -> split (x +:+ nl +:+ r) nl = x :: split r nl.
Proof.
  induction x as [|c x IH].
  - intros _. rewrite str_app_nil_l. unfold nl at 1. rewrite str_app_cons, str_app_nil_l.
    by rewrite split_nl_cons.
  - unfold nl_free. simpl. intros [Hc Hx]%andb_true_iff.
    rewrite str_app_cons, split_nl_cons, Ascii.eqb_sym.
    destruct (Ascii.eqb c "010"); [done|]. by rewrite (IH Hx).
Qed.

(** Round trip: the lines of a text joined with newlines are these lines. *)
Lemma split_join_lines (ls : list string) :
  ls <> [] -> Forall (fun l => nl_free l = true) ls ->
  split (join nl ls) nl = ls.
Proof.
  intros Hne Hall. induction Hall as [|l ls Hl Hls IH]; [done|].
  destruct ls as [|l' ls].
  - simpl. by apply split_one_line.
  - rewrite join_cons by done. rewrite split_first_line by done.
    by rewrite IH.
Qed.

(** The pieces of a split at newlines have no newline. *)
Lemma split_lines_nl_free (s : string) :
  Forall (fun l => nl_free l = true) (split s nl).
Proof.
  induction s as [|c s IH]; [by repeat constructor|].
  rewrite split_nl_cons. destruct (Ascii.eqb "010" c) eqn:Hc.
  - by constructor.
  - destruct (split s nl) as [|p ps] eqn:Hs; [by apply split_nonempty in Hs|].
    inversion IH as [|? ? Hp Hps]; subst. constructor; [|done].
    unfold nl_free in *. simpl. rewrite Ascii.eqb_sym, Hc. done.
Qed.

Lemma join_app (sep : string) (l1 l2 : list string) :
  l1 <> [] -> l2 <> [] ->
  join sep (l1 ++ l2) = join sep l1 +:+ sep +:+ join sep l2.
Proof.
  intros H1 H2. induction l1 as [|x l1 IH]; [done|].
  destruct l1 as [|y l1].
  - simpl. by destruct l2.
  - change ((x :: y :: l1) ++ l2) with (x :: ((y :: l1) ++ l2)).
    rewrite join_cons by done. rewrite IH by done.
    rewrite (join_cons sep x (y :: l1)) by done.
    by rewrite !str_app_assoc.
Qed.

(** Joining joined groups of lines is joining all the lines. *)
Lemma join_join (groups : list (list string)) :
  Forall (fun g => g <> []) groups ->
  join nl (map (join nl) groups) = join nl (concat groups).
Proof.
  induction 1 as [|g gs Hg Hgs IH]; [done|].
  destruct gs as [|g' gs].
  - simpl. by rewrite app_nil_r.
  - change (map (join nl) (g :: g' :: gs))
      with (join nl g :: map (join nl) (g' :: gs)).
    change (concat (g :: g' :: gs)) with (g ++ concat (g' :: gs)).
    rewrite join_cons by done.
    inversion Hgs as [|? ? Hg' _]; subst.
    rewrite join_app; [|done|simpl; destruct g'; done].
    by rewrite <- IH.
Qed.

(** *** Whitespace *)

Lemma all_chars_app (p : ascii -> bool) (s t : string) :
  all_chars p (s +:+ t) = all_chars p s && all_chars p t.
Proof.
  induction s as [|c s IH]; [done|]. rewrite str_app_cons. simpl.
  by rewrite IH, andb_assoc.
Qed.

Lemma rev_app_spec (s t : string) : String.rev_app s t = String.rev s +:+ t.
Proof.
  unfold String.rev. revert t. induction s as [|c s IH]; intros t; [done|].
  simpl. rewrite IH, (IH (String c "")). by rewrite str_app_assoc.
Qed.

Lemma rev_cons (c : ascii) (s : string) :
  String.rev (String c s) = String.rev s +:+ String c "".
Proof. unfold String.rev at 1. simpl. by rewrite rev_app_spec. Qed.

Lemma rev_app_str (s t : string) :
  String.rev (s +:+ t) = String.rev t +:+ String.rev s.
Proof.
  induction s as [|c s IH].
  - by rewrite str_app_nil_l, str_app_nil_r.
  - by rewrite str_app_cons, !rev_cons, IH, str_app_assoc.
Qed.

Lemma rev_involutive_str (s : string) : String.rev (String.rev s) = s.
Proof.
  induction s as [|c s IH]; [done|].
  by rewrite rev_cons, rev_app_str, IH.
Qed.

Lemma all_chars_rev (p : ascii -> bool) (s : string) :
  all_chars p (String.rev s) = all_chars p s.
Proof.
  induction s as [|c s IH]; [done|].
  rewrite rev_cons, all_chars_app, IH. simpl.
  by rewrite andb_true_r, andb_comm.
Qed.

Lemma lstrip_blank (s : string) : blank s = true -> lstrip s = "".
Proof.
  unfold blank. induction s as [|c s IH]; [done|]. simpl.
  intros [Hc Hs]%andb_true_iff. rewrite Hc. by apply IH.
Qed.

Lemma lstrip_empty_blank (s : string) : lstrip s = "" -> blank s = true.
Proof.
  unfold blank. induction s as [|c s IH]; [done|]. simpl.
  destruct (isspace c); [by apply IH|done].
Qed.

Lemma lstrip_keeps_blank (s : string) : blank (lstrip s) = true -> blank s = true.
Proof.
  unfold blank. induction s as [|c s IH]; [done|]. simpl.
  destruct (isspace c) eqn:Hc; [by apply IH|]. simpl. by rewrite Hc.
Qed.

(** [strip] leaves nothing exactly of the texts of whitespace. *)
Lemma strip_empty_blank (s : string) : strip s = "" <-> blank s = true.
Proof.
  unfold strip, rstrip. split.
  - intros H%lstrip_empty_blank. unfold blank in H.
    rewrite all_chars_rev in H. apply lstrip_keeps_blank in H.
    unfold blank in H. by rewrite all_chars_rev in H.
  - intros H. rewrite (lstrip_blank (String.rev s)); [done|].
    unfold blank. by rewrite all_chars_rev.
Qed.

Lemma lstrip_padded (ws core : string) :
  blank ws = true -> lstrip core = core -> lstrip (ws +:+ core) = core.
Proof.
  unfold blank. induction ws as [|c ws IH]; [done|]. simpl.
  intros [Hc Hws]%andb_true_iff Hcore. rewrite ?str_app_cons. simpl.
  rewrite Hc. by apply IH.
Qed.

Lemma lstrip_length (s : string) : (String.length (lstrip s) <= String.length s)%nat.
Proof.
  induction s as [|c s IH]; simpl; [lia|].
  destruct (isspace c); simpl; lia.
Qed.

Lemma lstrip_fixed (c : ascii) (s : string) :
  lstrip (String c s) = String c s -> isspace c = false.
Proof.
  simpl. destruct (isspace c); [|done].
  intros H. pose proof (lstrip_length s) as Hlen. rewrite H in Hlen.
  simpl in Hlen. lia.
Qed.

(** [strip] removes the whitespace around a text that neither begins nor
    ends with whitespace. *)
Lemma strip_padded (ws1 core ws2 : string) :
  blank ws1 = true -> blank ws2 = true ->
  lstrip core = core -> lstrip (String.rev core) = String.rev core ->
  strip (ws1 +:+ core +:+ ws2) = core.
Proof.
  intros H1 H2 Hl Hr. destruct (String.rev core) as [|c r] eqn:Hcore.
  - apply (f_equal String.rev) in Hcore. rewrite rev_involutive_str in Hcore.
    subst core. rewrite str_app_nil_l. apply strip_empty_blank.
    unfold blank in *. by rewrite all_chars_app, H1, H2.
  - apply lstrip_fixed in Hr. unfold strip, rstrip.
    rewrite !rev_app_str, Hcore, str_app_assoc.
    rewrite (lstrip_padded (String.rev ws2)).
    + rewrite <- Hcore, <- rev_app_str, rev_involutive_str.
      by apply lstrip_padded.
    + unfold blank. by rewrite all_chars_rev.
    + rewrite str_app_cons. simpl. by rewrite Hr.
Qed.

End line_facts.

(** ** DiffChunker: what [chunk_diff] keeps *)

Section chunker_extras.

Import Chunker.

Variable max_chars : Z.

Lemma greedy_cons2 (a b : list string) (T : list (list string)) :
  greedy max_chars (a :: b :: T)
  <-> (exists s r, b = s :: r /\ max_chars < total_len a + len s)
      /\ greedy max_chars (b :: T).
Proof. reflexivity. Qed.

Lemma greedy_snoc (L : list (list string)) (g : list string) (s : string)
    (r : list string) :
  greedy max_chars (L ++ [g]) -> max_chars < total_len g + len s ->
  greedy max_chars ((L ++ [g]) ++ [s :: r]).
Proof.
  intros HL Hs. induction L as [|a L IH].
  - simpl. split; [by exists s, r|done].
  - destruct L as [|b L].
    + simpl in HL |- *. destruct HL as [Hab _].
      split; [done|]. split; [by exists s, r|done].
    + change (greedy max_chars (a :: b :: ((L ++ [g]) ++ [s :: r]))).
      change (greedy max_chars (a :: b :: (L ++ [g]))) in HL.
      apply greedy_cons2 in HL as [Hab HL]. apply greedy_cons2.
      split; [done|]. by apply IH.
Qed.

Lemma greedy_grow (L : list (list string)) (g : list string) (s : string) :
  g <> [] -> greedy max_chars (L ++ [g]) -> greedy max_chars (L ++ [g ++ [s]]).
Proof.
  intros Hg HL. induction L as [|a L IH]; [done|].
  destruct L as [|b L].
  - simpl in HL |- *. destruct HL as [(s0 & r0 & -> & Hlt) _].
    split; [|done]. by exists s0, (r0 ++ [s]).
  - change (greedy max_chars (a :: b :: (L ++ [g ++ [s]]))).
    change (greedy max_chars (a :: b :: (L ++ [g]))) in HL.
    apply greedy_cons2 in HL as [Hab HL]. apply greedy_cons2.
    split; [done|]. by apply IH.
Qed.

Lemma gstep_packed (g : gstate) (p : nat * string) :
  packed max_chars g -> packed max_chars (gstep max_chars g p).
Proof.
  intros (Hs & Hne & Hg). destruct p as [i fd]. unfold gstep.
  destruct ((i =? 0)%nat && negb (truthy (strip fd))); [done|].
  destruct (max_chars <? group_size g + len (section_of i fd)) eqn:Hlt;
    case_bool_decide as Hnil; simpl; unfold packed; simpl.
  - rewrite Hnil in *. simpl in *. split; [lia|]. split; [done|].
    right. split; [done|]. destruct Hg as [[-> _]|[? _]]; done.
  - apply Z.ltb_lt in Hlt. split; [lia|].
    split; [apply Forall_app; split; [done|by constructor]|].
    right. split; [done|].
    destruct Hg as [[_ ?]|[_ Hg]]; [done|].
    apply greedy_snoc; [done|lia].
  - rewrite Hnil in *. simpl in *. split; [lia|]. split; [done|].
    right. split; [done|]. destruct Hg as [[-> _]|[? _]]; done.
  - rewrite total_len_snoc. split; [lia|]. split; [done|].
    right. split; [by destruct (current_group g)|].
    destruct Hg as [[_ ?]|[_ Hg]]; [done|]. by apply greedy_grow.
Qed.

Lemma gfold_packed (l : list (nat * string)) (g : gstate) :
  packed max_chars g -> packed max_chars (fold_left (gstep max_chars) l g).
Proof.
  revert g. induction l as [|p l IH]; intros g H; [done|].
  simpl. by apply IH, gstep_packed.
Qed.

Lemma gfinish_packed (g : gstate) :
  packed max_chars g ->
  Forall (fun x => x <> []) (gfinish g) /\ greedy max_chars (gfinish g).
Proof.
  intros (_ & Hne & Hg). unfold gfinish. case_bool_decide as Hnil.
  - split; [done|]. destruct Hg as [[-> _]|[? _]]; done.
  - destruct Hg as [[_ ?]|[_ Hg]]; [done|].
    split; [|done]. apply Forall_app. split; [done|by constructor].
Qed.

(** Consecutive groups of a greedy list, by their positions. *)
Lemma greedy_lookup (gs : list (list string)) (i : nat) (g : list string)
    (s : string) (r : list string) :
  greedy max_chars gs -> gs !! i = Some g -> gs !! S i = Some (s :: r) ->
  max_chars < total_len g + len s.
Proof.
  revert i. induction gs as [|a gs IH]; intros i Hgs Hi Hsi; [done|].
  destruct gs as [|b gs]; [done|].
  apply greedy_cons2 in Hgs as [(s0 & r0 & Hb & Hlt) Hgs].
  destruct i as [|i].
  - simpl in Hi, Hsi. congruence.
  - apply (IH i); done.
Qed.

End chunker_extras.

Lemma len_join_nl (g : list string) :
  g <> [] -> len (join nl g) = total_len g + Z.of_nat (length g) - 1.
Proof.
  induction g as [|x g IH]; [done|]. intros _.
  destruct g as [|y g].
  - simpl. lia.
  - rewrite join_cons by done. rewrite !len_app, IH by done.
    change (len nl) with 1. cbn [total_len foldr length]. unfold total_len. lia.
Qed.

Lemma chunk_sections_packed (d : string) (m : Z) :
  Forall (fun x => x <> []) (Chunker.chunk_sections d m)
  /\ greedy (m * 4) (Chunker.chunk_sections d m).
Proof.
  unfold Chunker.chunk_sections. destruct (len d <=? m * 4).
  { split; [by repeat constructor|done]. }
  apply gfinish_packed, gfold_packed. repeat split; [done|]. by left.
Qed.

(** A text of whitespace has no header. *)
Lemma split_blank (d : string) :
  blank d = true -> split d Chunker.header = [d].
Proof.
  unfold blank. induction d as [|c d IH]; [done|]. simpl.
  intros [Hc Hd]%andb_true_iff. rewrite split_unfold by done.
  assert (drop_prefix Chunker.header (String c d) = None) as ->.
  { unfold Chunker.header. cbn [drop_prefix].
    destruct (Ascii.eqb_spec "d" c) as [<-|]; [done|done]. }
  by rewrite (IH Hd).
Qed.

(** X1.  [chunk_diff] returns no chunk at all exactly for a diff of
    whitespace that exceeds the bound; every other diff gives at least one
    chunk. *)
Theorem chunk_diff_empty (d : string) (m : Z) :
  Chunker.chunk_diff d m = [] <-> m * 4 < len d /\ blank d = true.
Proof.
  split.
  - intros Hnil.
    pose proof (chunk_sections_concat d m) as Hcat.
    pose proof (dropped_preamble_blank d m) as Hblank.
    rewrite chunk_diff_sections in Hnil. apply map_eq_nil in Hnil.
    rewrite Hnil in Hcat. simpl in Hcat. rewrite str_app_nil_r in Hcat.
    rewrite Hcat in Hblank. split; [|by apply strip_empty_blank].
    unfold Chunker.chunk_sections in Hnil.
    destruct (Z.leb_spec (len d) (m * 4)); [done|lia].
  - intros [Hlt Hb]. unfold Chunker.chunk_diff.
    destruct (Z.leb_spec (len d) (m * 4)); [lia|].
    rewrite split_blank by done. apply strip_empty_blank in Hb.
    unfold Chunker.enumerate. simpl. by rewrite Hb.
Qed.

(** X2.  Every chunk is the newline join of a group of at least one section:
    its length is the sum of the section sizes plus one per joining newline,
    and that sum is within the bound unless the group is one section. *)
Theorem chunk_sizes (d : string) (m : Z) :
  Forall2
    (fun chunk g =>
       g <> []
       /\ len chunk = total_len g + Z.of_nat (length g) - 1
       /\ (length g = 1%nat \/ total_len g <= m * 4))
    (Chunker.chunk_diff d m) (Chunker.chunk_sections d m).
Proof.
  rewrite chunk_diff_sections.
  pose proof (chunk_sections_bound d m) as Hb.
  destruct (chunk_sections_packed d m) as [Hne _].
  induction Hb as [|g gs Hg Hgs IH]; simpl; [constructor|].
  inversion Hne as [|? ? Hg' Hgs']; subst.
  constructor; [|by apply IH].
  split; [done|]. split; [by apply len_join_nl|done].
Qed.

(** X3.  The packing is greedy: a chunk is closed only when the next section
    does not fit, so the sizes of the sections of a chunk and of the first
    section of the chunk after it add up to more than the bound. *)
Theorem chunk_greedy (d : string) (m : Z) (i : nat) (g : list string)
    (s : string) (r : list string) :
  Chunker.chunk_sections d m !! i = Some g ->
  Chunker.chunk_sections d m !! S i = Some (s :: r) ->
  m * 4 < total_len g + len s.
Proof.
  destruct (chunk_sections_packed d m) as [_ Hgreedy].
  by apply greedy_lookup.
Qed.

Lemma chunk_greedy_witness : 11 * 4 < 44 + 22.
Proof.
  apply (chunk_greedy three_file_diff 11 0
           ["diff --git a/x b/x" +:+ nl +:+ "+1" +:+ nl;
            "diff --git a/y b/y" +:+ nl +:+ "+2" +:+ nl]
           ("diff --git a/z b/z" +:+ nl +:+ "+3" +:+ nl) []);
    reflexivity.
Defined.

(** ** DiffSegmenter: what [parse_diff_sections] keeps *)

Section segment_extras.

Import Segmenter.

Lemma blocks_go_wf (ls : list string) :
  Forall (fun l => nl_free l = true) ls ->
  Forall (fun l => match_header l = None) (blocks_go ls).1
  /\ Forall (fun l => nl_free l = true) (blocks_go ls).1
  /\ Forall wf_block (blocks ls).
Proof.
  unfold blocks. induction 1 as [|l ls Hl Hls IH]; [by repeat constructor|].
  cbn [blocks_go]. destruct (blocks_go ls) as [body bs].
  destruct IH as (Hb & Hf & Hw). cbn [fst snd] in *.
  destruct (match_header l) as [p|] eqn:Hm; cbn [fst snd].
  - split; [constructor|]. split; [constructor|].
    constructor; [|done]. exists l, body. by repeat split; try constructor.
  - repeat split; try constructor; done.
Qed.

Lemma blocks_go_lines (ls : list string) :
  Forall (fun l => nl_free l = true) ls ->
  ls = (blocks_go ls).1 ++ lines_of (blocks ls).
Proof.
  unfold blocks, lines_of. induction 1 as [|l ls Hl Hls IH]; [done|].
  pose proof (blocks_go_wf ls Hls) as (_ & Hf & _).
  cbn [blocks_go]. destruct (blocks_go ls) as [body bs].
  cbn [fst snd] in *.
  destruct (match_header l); cbn [fst snd map concat app].
  - rewrite split_join_lines; [|done|by constructor].
    by rewrite <- app_comm_cons, <- IH.
  - by rewrite <- IH.
Qed.

Lemma elem_of_dict_set (d : list (string * string)) (k v : string)
    (b : string * string) :
  b ∈ dict_set d k v -> b ∈ d \/ b = (k, v).
Proof.
  induction d as [|[k' v'] d IH]; simpl.
  - intros ->%list_elem_of_singleton. by right.
  - destruct (decide (k' = k)) as [->|].
    + intros [->|H]%elem_of_cons; [by right|]. left. by right.
    + intros [->|H]%elem_of_cons; [left; by left|].
      destruct (IH H) as [?|?]; [left; by right|by right].
Qed.

Lemma elem_of_set_all (bs d : list (string * string)) (b : string * string) :
  b ∈ set_all bs d -> b ∈ d \/ b ∈ bs.
Proof.
  unfold set_all. revert d. induction bs as [|[k v] bs IH]; intros d; simpl.
  - by left.
  - intros H. destruct (IH _ H) as [H'|H']; [|right; by right].
    apply elem_of_dict_set in H' as [?|Heq]; [by left|].
    right. rewrite Heq. by left.
Qed.

Lemma set_all_NoDup (bs d : list (string * string)) :
  NoDup d.*1 -> NoDup (set_all bs d).*1.
Proof.
  unfold set_all. revert d. induction bs as [|[k v] bs IH]; intros d Hd; [done|].
  simpl. apply IH. rewrite dict_set_keys. case_bool_decide as Hin; [done|].
  apply NoDup_app. split; [done|]. split; [|by apply NoDup_singleton].
  by intros x Hx ->%list_elem_of_singleton.
Qed.

Lemma parse_wf (d : string) :
  Forall wf_block (parse_diff_sections d)
  /\ NoDup (parse_diff_sections d).*1.
Proof.
  unfold parse_diff_sections. rewrite parse_lines_blocks. split.
  - apply Forall_forall. intros b [Hb|Hb]%elem_of_set_all; [by inversion Hb|].
    pose proof (blocks_go_wf _ (split_lines_nl_free d)) as (_ & _ & Hw).
    rewrite Forall_forall in Hw. by apply Hw.
  - apply set_all_NoDup. constructor.
Qed.

Lemma blocks_go_header (h p : string) (t : list string) :
  match_header h = Some p -> (blocks_go (h :: t)).1 = [].
Proof. intros H. cbn [blocks_go]. destruct (blocks_go t). by rewrite H. Qed.

Lemma lines_of_header (bs : list (string * string)) :
  Forall wf_block bs -> (blocks_go (lines_of bs)).1 = [].
Proof.
  unfold lines_of. destruct 1 as [|b bs (h & body & Hc & Hh & Hb & Hf) _]; [done|].
  cbn [map concat]. rewrite Hc, split_join_lines by done.
  rewrite <- app_comm_cons. by apply (blocks_go_header h b.1).
Qed.

(** The blocks of the lines of well-formed sections are these sections. *)
Lemma blocks_lines_of (bs : list (string * string)) :
  Forall wf_block bs -> blocks (lines_of bs) = bs.
Proof.
  induction 1 as [|b bs Hw Hbs IH]; [done|].
  pose proof (lines_of_header bs Hbs) as Hhead.
  destruct Hw as (h & body & Hc & Hh & Hb & Hf).
  unfold lines_of in *. cbn [map concat]. rewrite Hc at 1.
  rewrite split_join_lines by done. rewrite <- app_comm_cons.
  rewrite (blocks_section h b.1) by done. rewrite IH, <- Hc.
  by destruct b.
Qed.

Lemma map_join_split (bs : list (string * string)) :
  map (join nl) (map (fun b => split b.2 nl) bs) = bs.*2.
Proof.
  induction bs as [|b bs IH]; [done|].
  simpl. rewrite join_split by done. f_equal. exact IH.
Qed.

Lemma map_join_singletons (pre : list string) :
  map (join nl) (map (fun l => [l]) pre) = pre.
Proof. induction pre as [|l pre IH]; [done|]. simpl. by rewrite IH. Qed.

Lemma concat_singletons (pre : list string) :
  concat (map (fun l => [l]) pre) = pre.
Proof. induction pre as [|l pre IH]; [done|]. simpl. by rewrite IH. Qed.

Lemma join_contents (bs : list (string * string)) :
  bs <> [] -> split (join nl bs.*2) nl = lines_of bs.
Proof.
  intros Hne. unfold lines_of.
  rewrite <- map_join_split, join_join.
  - apply split_join_lines.
    + destruct bs as [|b bs]; [done|]. cbn [map concat].
      destruct (split b.2 nl) eqn:Hs; [by apply split_nonempty in Hs|done].
    + apply Forall_concat, Forall_forall.
      intros ls (b & -> & _)%(list_elem_of_fmap (fun b => split b.2 nl)).
      apply split_lines_nl_free.
  - apply Forall_forall.
    intros ls (b & -> & _)%(list_elem_of_fmap (fun b => split b.2 nl)).
    apply split_nonempty.
Qed.

(** Sections that are well formed and have different paths are the sections
    of their texts joined by newlines. *)
Lemma parse_join_contents (bs : list (string * string)) :
  Forall wf_block bs -> NoDup bs.*1 ->
  parse_diff_sections (join nl bs.*2) = bs.
Proof.
  intros Hw Hnd. unfold parse_diff_sections. rewrite parse_lines_blocks.
  destruct bs as [|b bs]; [done|].
  rewrite join_contents by done. rewrite blocks_lines_of by done.
  by apply set_all_distinct.
Qed.

End segment_extras.

(** X4.  The sections of a diff have pairwise different paths, and the text
    of each is a header line naming its path, followed by lines that are no
    header lines. *)
Theorem sections_well_formed (diff_content : string) :
  NoDup (Segmenter.parse_diff_sections diff_content).*1
  /\ Forall
       (fun b =>
          exists (h : string) (body : list string),
            b.2 = join nl (h :: body)
            /\ Segmenter.match_header h = Some b.1
            /\ Forall (fun l => Segmenter.match_header l = None) body)
       (Segmenter.parse_diff_sections diff_content).
Proof.
  destruct (parse_wf diff_content) as [Hw Hnd]. split; [done|].
  eapply Forall_impl; [exact Hw|].
  intros b (h & body & ? & ? & ? & _). by exists h, body.
Qed.

(** X5.  Sections taken from a diff, in their order and with any of them
    left out, and joined by newlines, parse to these sections again; so do
    all the sections of the diff. *)
Theorem sections_reparse (diff_content : string) (kept : list (string * string)) :
  kept `sublist_of` Segmenter.parse_diff_sections diff_content ->
  Segmenter.parse_diff_sections (join nl kept.*2) = kept.
Proof.
  intros Hsub. destruct (parse_wf diff_content) as [Hw Hnd].
  apply parse_join_contents.
  - apply Forall_forall. intros b Hb. rewrite Forall_forall in Hw.
    by eapply Hw, elem_of_sublist.
  - eapply sublist_NoDup; [exact Hnd|]. by apply fmap_sublist.
Qed.

Lemma sections_reparse_witness :
  Segmenter.parse_diff_sections
    (join nl (Segmenter.parse_diff_sections twice_x_diff).*2)
  = Segmenter.parse_diff_sections twice_x_diff.
Proof. apply (sections_reparse twice_x_diff). reflexivity. Defined.

(** X6.  When the header lines of a diff name pairwise different paths, the
    diff is the lines before its first header line followed by the texts of
    its sections, all joined by newlines: the segmenter loses no line but
    those. *)
Theorem sections_cover (diff_content : string) :
  NoDup (omap Segmenter.match_header (split diff_content nl)) ->
  exists pre : list string,
    Forall (fun l => Segmenter.match_header l = None) pre
    /\ diff_content
       = join nl (pre ++ (Segmenter.parse_diff_sections diff_content).*2).
Proof.
  intros Hnd.
  pose proof (split_lines_nl_free diff_content) as Hfree.
  destruct (blocks_go_wf _ Hfree) as (Hpre & _ & Hw).
  exists (blocks_go (split diff_content nl)).1. split; [done|].
  unfold Segmenter.parse_diff_sections.
  rewrite parse_lines_blocks, set_all_distinct by (by rewrite blocks_paths).
  cbn [app]. rewrite <- (join_split diff_content nl) at 1 by done.
  rewrite (blocks_go_lines _ Hfree) at 1.
  set (pre := (blocks_go (split diff_content nl)).1).
  set (bs := blocks (split diff_content nl)).
  transitivity (join nl (concat (map (fun l => [l]) pre
                                 ++ map (fun b => split b.2 nl) bs))).
  { by rewrite concat_app, concat_singletons. }
  rewrite <- join_join.
  - by rewrite map_app, map_join_singletons, map_join_split.
  - apply Forall_app. split; apply Forall_forall.
    + by intros ls (l & -> & _)%(list_elem_of_fmap (fun l => [l])).
    + intros ls (b & -> & _)%(list_elem_of_fmap (fun b => split b.2 nl)).
      apply split_nonempty.
Qed.

Lemma sections_cover_witness :
  exists pre : list string,
    Forall (fun l => Segmenter.match_header l = None) pre
    /\ "intro" +:+ nl +:+ "diff --git a/x b/x" +:+ nl +:+ "+1"
       = join nl (pre ++ (Segmenter.parse_diff_sections
                            ("intro" +:+ nl +:+ "diff --git a/x b/x" +:+ nl +:+ "+1")).*2).
Proof.
  apply (sections_cover ("intro" +:+ nl +:+ "diff --git a/x b/x" +:+ nl +:+ "+1")).
  vm_compute. repeat constructor; by inversion 1.
Defined.

(** ** DiffSegmenter: filtering a diff *)

Section filter_extras.

Import Filter.

Variable re_search : string -> string -> outcome bool.

Lemma lstrip_slash_idem (s : string) : lstrip_slash (lstrip_slash s) = lstrip_slash s.
Proof.
  induction s as [|c s IH]; [done|]. simpl.
  destruct (Ascii.eqb c "/") eqn:Hc; [done|]. simpl. by rewrite Hc.
Qed.

Lemma included_spec (include_files : list string) (file_path : string) :
  included include_files file_path = true
  <-> lstrip_slash file_path ∈ lstrip_slash <$> include_files.
Proof.
  unfold included, include_set.
  rewrite orb_true_iff, !bool_decide_eq_true, !elem_of_union, !elem_of_list_to_set.
  rewrite !list_elem_of_fmap. split.
  - intros [[H|(f & -> & H)]|[H|(f & Hf & H)]].
    + by exists file_path.
    + exists f. by rewrite lstrip_slash_idem.
    + exists (lstrip_slash file_path). by rewrite lstrip_slash_idem.
    + by exists f.
  - intros (f & Hf & H). right. right. by exists f.
Qed.

Lemma filter_loop_spec (include_files : list string)
    (exclude_patterns : option (list string))
    (sections : list (string * string)) (out : list string) :
  filter_loop re_search include_files exclude_patterns sections = Returned out ->
  out = (filter (fun b => keeps re_search include_files exclude_patterns b.1)
                sections).*2.
Proof.
  revert out. induction sections as [|[p c] secs IH]; intros out.
  - by intros [= <-].
  - cbn [filter_loop].
    destruct (included include_files p) eqn:Hinc.
    2: { intros H. rewrite filter_cons_False; [exact (IH _ H)|].
         unfold keeps. cbn [fst]. rewrite Hinc. simpl. tauto. }
    assert (forall found : bool,
              match exclude_patterns with
              | Some patterns =>
                  match any_match re_search patterns p with
                  | Returned f => f
                  | Raised _ _ => false
                  end
              | None => false
              end = found ->
              forall r : list string,
                filter_loop re_search include_files exclude_patterns secs
                = Returned r ->
                (if found then r else c :: r)
                = (filter (fun b => keeps re_search include_files exclude_patterns b.1)
                          ((p, c) :: secs)).*2) as Hcase.
    { intros found Hfound r Hr. apply IH in Hr. subst r.
      destruct found.
      - rewrite filter_cons_False; [done|].
        unfold keeps. cbn [fst]. rewrite Hinc, Hfound. simpl. tauto.
      - rewrite filter_cons_True; [done|].
        unfold keeps. cbn [fst]. rewrite Hinc, Hfound. simpl. tauto. }
    destruct exclude_patterns as [[|pat pats]|].
    + destruct (filter_loop _ _ _ secs) as [r|]; [|done].
      intros [= <-]. by apply (Hcase false).
    + destruct (any_match re_search (pat :: pats) p) as [found|]; [|done].
      cbn [bind]. destruct (filter_loop _ _ _ secs) as [r|]; [|done].
      intros [= <-]. by apply (Hcase found).
    + destruct (filter_loop _ _ _ secs) as [r|]; [|done].
      intros [= <-]. by apply (Hcase false).
Qed.

Lemma filter_loop_no_patterns (include_files : list string)
    (exclude_patterns : option (list string))
    (sections : list (string * string)) :
  exclude_patterns = None \/ exclude_patterns = Some [] ->
  exists out : list string,
    filter_loop re_search include_files exclude_patterns sections = Returned out.
Proof.
  intros Hex. induction sections as [|[p c] secs [out IH]]; [by eexists|].
  cbn [filter_loop]. rewrite IH.
  destruct (included include_files p); [|by eexists].
  destruct Hex as [-> | ->]; by eexists.
Qed.

Lemma filter_loop_nothing_included (exclude_patterns : option (list string))
    (sections : list (string * string)) :
  filter_loop re_search [] exclude_patterns sections = Returned [].
Proof.
  induction sections as [|[p c] secs IH]; [done|].
  cbn [filter_loop]. by rewrite IH.
Qed.

Lemma any_match_raised (patterns : list string) (file_path : string)
    (exception message : string) :
  any_match re_search patterns file_path = Raised exception message ->
  exists pattern : string,
    pattern ∈ patterns
    /\ re_search pattern file_path = Raised exception message.
Proof.
  induction patterns as [|pattern patterns IH]; [done|]. cbn [any_match].
  destruct (re_search pattern file_path) as [found|e m] eqn:Hsearch.
  - destruct found; [done|]. cbn [bind]. intros (p & Hp & Hraise)%IH.
    exists p. split; [by right|done].
  - intros [= -> ->]. exists pattern. split; [by left|done].
Qed.

Lemma filter_loop_raised (include_files : list string)
    (exclude_patterns : option (list string))
    (sections : list (string * string)) (exception message : string) :
  filter_loop re_search include_files exclude_patterns sections
  = Raised exception message ->
  exists (patterns : list string) (pattern file_path : string),
    exclude_patterns = Some patterns
    /\ pattern ∈ patterns
    /\ file_path ∈ sections.*1
    /\ included include_files file_path = true
    /\ re_search pattern file_path = Raised exception message.
Proof.
  induction sections as [|[p c] secs IH]; [done|]. cbn [filter_loop].
  assert (filter_loop re_search include_files exclude_patterns secs
          = Raised exception message ->
          exists (patterns : list string) (pattern file_path : string),
            exclude_patterns = Some patterns
            /\ pattern ∈ patterns
            /\ file_path ∈ ((p, c) :: secs).*1
            /\ included include_files file_path = true
            /\ re_search pattern file_path = Raised exception message) as Hrest.
  { intros (patterns & pattern & path & ? & ? & ? & ? & ?)%IH.
    exists patterns, pattern, path. repeat split; [done..| |done|done].
    rewrite fmap_cons. by right. }
  destruct (included include_files p) eqn:Hinc; [|exact Hrest].
  destruct exclude_patterns as [[|pat pats]|].
  - destruct (filter_loop _ _ _ secs) as [r|e m]; [done|].
    intros [= -> ->]. by apply Hrest.
  - destruct (any_match re_search (pat :: pats) p) as [found|e m] eqn:Hany.
    + cbn [bind]. destruct (filter_loop _ _ _ secs) as [r|e m]; [done|].
      intros [= -> ->]. by apply Hrest.
    + intros [= -> ->]. apply any_match_raised in Hany as (pattern & Hin & Hraise).
      exists (pat :: pats), pattern, p. repeat split; [done..| |done|done].
      rewrite fmap_cons. by left.
  - destruct (filter_loop _ _ _ secs) as [r|e m]; [done|].
    intros [= -> ->]. by apply Hrest.
Qed.

End filter_extras.

(** X7.  When [filter_diff] returns, the sections of the filtered diff are
    the sections of the diff whose path is included and not excluded, in
    their order and with their texts; so the second number reported is at
    most the first. *)
Theorem filter_diff_sections (re_search : string -> string -> outcome bool)
    (diff_content : string) (include_files : list string)
    (exclude_patterns : option (list string)) (filtered : string) :
  Filter.filter_diff re_search diff_content include_files exclude_patterns
  = Returned filtered ->
  Segmenter.parse_diff_sections filtered
  = filter (fun b => keeps re_search include_files exclude_patterns b.1)
           (Segmenter.parse_diff_sections diff_content)
  /\ ((Filter.file_counts diff_content filtered).2
      <= (Filter.file_counts diff_content filtered).1)%nat.
Proof.
  unfold Filter.filter_diff.
  destruct (Filter.filter_loop _ _ _ _) as [out|] eqn:Hloop; [|done].
  intros [= <-]. apply filter_loop_spec in Hloop. subst out.
  assert (Segmenter.parse_diff_sections
            (join nl (filter (fun b => keeps re_search include_files exclude_patterns b.1)
                        (Segmenter.parse_diff_sections diff_content)).*2)
          = filter (fun b => keeps re_search include_files exclude_patterns b.1)
              (Segmenter.parse_diff_sections diff_content)) as Heq.
  { apply (sections_reparse diff_content), sublist_filter. }
  split; [done|]. unfold Filter.file_counts. cbn [fst snd].
  rewrite Heq. apply length_filter.
Qed.

Lemma filter_diff_sections_witness :
  Segmenter.parse_diff_sections
    ("diff --git a/y b/y" +:+ nl +:+ "-2")
  = filter (fun b => keeps prefix_search ["/y"; "x.py"] (Some ["x"]) b.1)
           (Segmenter.parse_diff_sections twice_x_diff).
Proof.
  apply (filter_diff_sections prefix_search twice_x_diff ["/y"; "x.py"]
           (Some ["x"])).
  reflexivity.
Defined.

(** X8.  Leading slashes do not matter for inclusion: a path is included
    exactly when it agrees with an entry of the include list once the
    leading slashes of both are removed. *)
Theorem included_up_to_slashes (include_files : list string) (file_path : string) :
  Filter.included include_files file_path = true
  <-> exists f : string,
        f ∈ include_files
        /\ Filter.lstrip_slash file_path = Filter.lstrip_slash f.
Proof.
  rewrite included_spec, list_elem_of_fmap. split.
  - intros (f & ? & ?). by exists f.
  - intros (f & ? & ?). by exists f.
Qed.

(** X9.  [filter_diff] raises only what [re.search] raises: an exception of
    [filter_diff] is the exception of the search of one of the patterns in
    the path of one of the included sections of the diff.  So it returns
    when these searches return, and in particular without patterns to
    exclude, be the list absent or empty; with nothing to include it returns
    the empty text, whatever the patterns are. *)
Theorem filter_diff_returns (re_search : string -> string -> outcome bool)
    (diff_content : string) (include_files : list string)
    (exclude_patterns : option (list string)) :
  (forall exception message : string,
     Filter.filter_diff re_search diff_content include_files exclude_patterns
     = Raised exception message ->
     exists (patterns : list string) (pattern file_path : string),
       exclude_patterns = Some patterns
       /\ pattern ∈ patterns
       /\ file_path ∈ (Segmenter.parse_diff_sections diff_content).*1
       /\ Filter.included include_files file_path = true
       /\ re_search pattern file_path = Raised exception message)
  /\ ((forall pattern file_path : string,
         pattern ∈ default [] exclude_patterns ->
         file_path ∈ (Segmenter.parse_diff_sections diff_content).*1 ->
         Filter.included include_files file_path = true ->
         exists found : bool, re_search pattern file_path = Returned found) ->
      exists filtered : string,
        Filter.filter_diff re_search diff_content include_files exclude_patterns
        = Returned filtered)
  /\ (exclude_patterns = None \/ exclude_patterns = Some [] ->
      exists filtered : string,
        Filter.filter_diff re_search diff_content include_files exclude_patterns
        = Returned filtered)
  /\ Filter.filter_diff re_search diff_content [] exclude_patterns = Returned "".
Proof.
  assert (forall exception message : string,
            Filter.filter_diff re_search diff_content include_files
              exclude_patterns = Raised exception message ->
            exists (patterns : list string) (pattern file_path : string),
              exclude_patterns = Some patterns
              /\ pattern ∈ patterns
              /\ file_path ∈ (Segmenter.parse_diff_sections diff_content).*1
              /\ Filter.included include_files file_path = true
              /\ re_search pattern file_path = Raised exception message)
    as Hraised.
  { intros exception message. unfold Filter.filter_diff.
    destruct (Filter.filter_loop _ _ _ _) as [out|e m] eqn:Hloop; [done|].
    intros [= -> ->]. by apply filter_loop_raised in Hloop. }
  split; [exact Hraised|]. split; [|split].
  - intros Hsearch.
    destruct (Filter.filter_diff re_search diff_content include_files
                exclude_patterns) as [filtered|exception message] eqn:Hdiff;
      [by eexists|].
    destruct (Hraised _ _ eq_refl)
      as (patterns & pattern & path & -> & Hpat & Hpath & Hinc & Hraise).
    destruct (Hsearch pattern path Hpat Hpath Hinc) as [found Hfound].
    congruence.
  - unfold Filter.filter_diff. intros Hex.
    destruct (filter_loop_no_patterns re_search include_files exclude_patterns
                (Segmenter.parse_diff_sections diff_content) Hex) as [out ->].
    by eexists.
  - unfold Filter.filter_diff. by rewrite filter_loop_nothing_included.
Qed.
(** ** ResultAggregator: how merges compose *)

Section merge_extras.

Import Merge.

Lemma acc_join_init_l (a : acc) : acc_join init a = a.
Proof.
  destruct a. unfold acc_join, init. simpl. f_equal.
  - apply (left_id_L ∅ (∪)).
Qed.

Lemma acc_join_assoc (a b c : acc) :
  acc_join (acc_join a b) c = acc_join a (acc_join b c).
Proof.
  unfold acc_join. simpl. f_equal; try (by rewrite app_assoc).
  - by rewrite (assoc_L (∪)).
  - lia.
  - lia.
Qed.

Lemma step_join (a : acc) (r : result) : step a r = acc_join a (step init r).
Proof.
  unfold step. destruct (error r).
  - destruct a. unfold acc_join, init. simpl.
    rewrite !app_nil_r, Z.add_0_r, Z.add_0_r. f_equal.
    apply symmetry, (right_id_L ∅ (∪)).
  - unfold acc_join, init. simpl. f_equal.
    + by rewrite (left_id_L ∅ (∪)).
Qed.

Lemma fold_step_join (rs : list result) (a : acc) :
  fold_left step rs a = acc_join a (acc_of rs).
Proof.
  unfold acc_of. revert a. induction rs as [|r rs IH]; intros a.
  - destruct a. unfold acc_join, init. simpl.
    rewrite !app_nil_r, !Z.add_0_r. f_equal.
    apply symmetry, (right_id_L ∅ (∪)).
  - simpl. rewrite IH, (IH (step init r)), <- acc_join_assoc.
    by rewrite <- step_join.
Qed.

Lemma acc_of_app (rs1 rs2 : list result) :
  acc_of (rs1 ++ rs2) = acc_join (acc_of rs1) (acc_of rs2).
Proof. unfold acc_of at 1. by rewrite fold_left_app, fold_step_join. Qed.

Lemma acc_of_cons (r : result) (rs : list result) :
  acc_of (r :: rs) = acc_join (step init r) (acc_of rs).
Proof. unfold acc_of at 1. simpl. by rewrite fold_step_join. Qed.

Implicit Types (seen : gset (value * value * value)) (l : list violation).

Lemma keys_of_dedup l seen : seen ∪ keys_of (dedup_from seen l) = seen ∪ keys_of l.
Proof.
  unfold keys_of. revert seen. induction l as [|v l IH]; intros seen; [done|].
  simpl. destruct (decide (key v ∈ seen)) as [Hin|Hin].
  - rewrite IH. apply set_eq. intros x.
    rewrite !elem_of_union, elem_of_singleton. naive_solver.
  - simpl. specialize (IH ({[key v]} ∪ seen)). apply set_eq. intros x.
    assert (x ∈ {[key v]} ∪ seen
                ∪ list_to_set (key <$> dedup_from ({[key v]} ∪ seen) l)
            <-> x ∈ {[key v]} ∪ seen ∪ list_to_set (key <$> l)) as Hx
      by (by rewrite IH).
    revert Hx. rewrite !elem_of_union, !elem_of_singleton. tauto.
Qed.

(** Deduplicating what is left of a deduplication. *)
Lemma dedup_from_dedup l (seen seen' : gset (value * value * value)) :
  dedup_from seen (dedup_from seen' l) = dedup_from (seen ∪ seen') l.
Proof.
  revert seen seen'. induction l as [|v l IH]; intros seen seen'; [done|].
  simpl. destruct (decide (key v ∈ seen')) as [Hin'|Hin'].
  - rewrite decide_True by (apply elem_of_union; by right). apply IH.
  - simpl. destruct (decide (key v ∈ seen)) as [Hin|Hin].
    + rewrite decide_True by (apply elem_of_union; by left).
      rewrite IH. f_equal. apply set_eq. intros x.
      rewrite !elem_of_union, elem_of_singleton. naive_solver.
    + rewrite decide_False by (rewrite elem_of_union; tauto).
      f_equal. rewrite IH. f_equal. apply set_eq. intros x.
      rewrite !elem_of_union, !elem_of_singleton. naive_solver.
Qed.

Lemma dedup_two_stage (l1 l2 : list violation) :
  dedup_from ∅ (dedup_from ∅ l1 ++ dedup_from ∅ l2) = dedup_from ∅ (l1 ++ l2).
Proof.
  rewrite !dedup_from_app.
  rewrite (dedup_from_id (dedup_from ∅ l1));
    [|apply dedup_from_NoDup|apply disjoint_empty_r].
  f_equal. rewrite dedup_from_dedup.
  f_equal. rewrite (right_id_L ∅ (∪)). apply keys_of_dedup.
Qed.

Lemma dedup_length l : length (dedup_from ∅ l) = size (keys_of l).
Proof.
  pose proof (keys_of_dedup l ∅) as Hk. rewrite !(left_id_L ∅ (∪)) in Hk.
  rewrite <- Hk. unfold keys_of.
  rewrite size_list_to_set by apply dedup_from_NoDup.
  by rewrite length_fmap.
Qed.

Lemma keys_of_perm (l1 l2 : list violation) :
  Permutation l1 l2 -> keys_of l1 = keys_of l2.
Proof.
  intros H. unfold keys_of. apply set_eq. intros x.
  rewrite !elem_of_list_to_set. by rewrite H.
Qed.

Lemma acc_similar_perm (rs rs' : list result) :
  Permutation rs rs' -> acc_similar (acc_of rs) (acc_of rs').
Proof.
  induction 1 as [|r rs rs' _ IH|r1 r2 rs|rs1 rs2 rs3 _ IH1 _ IH2].
  - by repeat split.
  - rewrite !acc_of_cons. destruct IH as (Hv & Hp & Hr & Hf & Hl).
    unfold acc_similar, acc_join. simpl.
    by rewrite Hv, Hp, Hr, Hf, Hl.
  - rewrite !acc_of_cons, <- !acc_join_assoc.
    generalize (acc_of rs), (step init r1), (step init r2). intros a b c.
    unfold acc_similar, acc_join. simpl. repeat split.
    + by rewrite (Permutation_app_comm (acc_violations c)).
    + by rewrite (comm_L (∪) (acc_passed_checks c)).
    + by rewrite (Permutation_app_comm (acc_recommendations c)).
    + lia.
    + lia.
  - destruct IH1 as (? & ? & ? & ? & ?), IH2 as (? & ? & ? & ? & ?).
    repeat split; etrans; done.
Qed.

Lemma passed_checks_acc (rs : list result) (x : string) :
  x ∈ acc_passed_checks (acc_of rs)
  <-> exists r : result,
        r ∈ rs /\ error r = None /\ x ∈ default [] (passed_checks r).
Proof.
  induction rs as [|r rs IH].
  - unfold acc_of. simpl. split; [by intros ?%not_elem_of_empty|].
    by intros (r & ?%elem_of_nil & _).
  - rewrite acc_of_cons. unfold acc_join. simpl.
    rewrite elem_of_union, IH. unfold step. split.
    + intros [H|(r' & ? & ? & ?)].
      * destruct (error r) eqn:He; simpl in H.
        { by apply not_elem_of_empty in H. }
        apply elem_of_union in H as [?%not_elem_of_empty|H]; [done|].
        apply elem_of_list_to_set in H. exists r. by repeat split; [left|..].
      * exists r'. by repeat split; [right|..].
    + intros (r' & [->|Hin]%elem_of_cons & He & Hx).
      * left. rewrite He. simpl. apply elem_of_union. right.
        by apply elem_of_list_to_set.
      * right. by exists r'.
Qed.

Lemma recommendations_acc (rs : list result) (x : string) :
  x ∈ acc_recommendations (acc_of rs)
  <-> exists r : result,
        r ∈ rs /\ error r = None /\ x ∈ default [] (recommendations r).
Proof.
  induction rs as [|r rs IH].
  - unfold acc_of. simpl. split; [by intros ?%elem_of_nil|].
    by intros (r & ?%elem_of_nil & _).
  - rewrite acc_of_cons. unfold acc_join. simpl.
    rewrite elem_of_app, IH. unfold step. split.
    + intros [H|(r' & ? & ? & ?)].
      * destruct (error r) eqn:He; simpl in H.
        { by apply elem_of_nil in H. }
        exists r. by repeat split; [left|..].
      * exists r'. by repeat split; [right|..].
    + intros (r' & [->|Hin]%elem_of_cons & He & Hx).
      * left. by rewrite He.
      * right. by exists r'.
Qed.

End merge_extras.

Section merge_composition.

Import Merge.

Lemma acc_join_init_r (a : acc) : acc_join a init = a.
Proof.
  destruct a. unfold acc_join, init. simpl.
  rewrite !app_nil_r, !Z.add_0_r. f_equal. apply (right_id_L ∅ (∪)).
Qed.

(** The merged result, read off the accumulation. *)
Lemma merge_of_acc (rs : list result) :
  merge_chunk_results rs
  = Result None None
      (Some (if bool_decide (summaries (acc_of rs) = []) then "Analysis complete."
             else join " " (summaries (acc_of rs))))
      (Some (dedup_from ∅ (acc_violations (acc_of rs))))
      (Some (elements (acc_passed_checks (acc_of rs))))
      (Some (elements (list_to_set (C := gset string)
                         (acc_recommendations (acc_of rs)))))
      (Some (Metrics (Some (acc_files_analyzed (acc_of rs)))
                     (Some (acc_total_lines (acc_of rs)))
                     (Some (density (length (dedup_from ∅ (acc_violations (acc_of rs))))
                                    (acc_total_lines (acc_of rs))))))
      None None.
Proof.
  unfold merge_chunk_results, acc_of. by rewrite unique_violations_dedup.
Qed.

(** What a merged result adds when it is merged again. *)
Lemma step_merged (rs : list result) :
  step init (merge_chunk_results rs)
  = Acc [if bool_decide (summaries (acc_of rs) = []) then "Analysis complete."
         else join " " (summaries (acc_of rs))]
        (dedup_from ∅ (acc_violations (acc_of rs)))
        (acc_passed_checks (acc_of rs))
        (elements (list_to_set (C := gset string) (acc_recommendations (acc_of rs))))
        (acc_files_analyzed (acc_of rs))
        (acc_total_lines (acc_of rs)).
Proof.
  rewrite merge_of_acc. unfold step, init. simpl. f_equal.
  by rewrite (left_id_L ∅ (∪)), list_to_set_elements_L.
Qed.

Lemma summaries_usable (rs : list result) :
  summaries (acc_of rs) = map (fun r => default "" (summary r)) (filter usable rs).
Proof. unfold acc_of. by rewrite fold_step_summaries. Qed.

End merge_composition.

(** Two stages against one, with the sets listed in the fixed order of the
    model. *)
Lemma two_stage_listed (rs1 rs2 : list result) :
  violations (Merge.merge_chunk_results
                [Merge.merge_chunk_results rs1; Merge.merge_chunk_results rs2])
  = violations (Merge.merge_chunk_results (rs1 ++ rs2))
  /\ passed_checks (Merge.merge_chunk_results
                      [Merge.merge_chunk_results rs1; Merge.merge_chunk_results rs2])
     = passed_checks (Merge.merge_chunk_results (rs1 ++ rs2))
  /\ recommendations (Merge.merge_chunk_results
                        [Merge.merge_chunk_results rs1; Merge.merge_chunk_results rs2])
     = recommendations (Merge.merge_chunk_results (rs1 ++ rs2))
  /\ metrics (Merge.merge_chunk_results
                [Merge.merge_chunk_results rs1; Merge.merge_chunk_results rs2])
     = metrics (Merge.merge_chunk_results (rs1 ++ rs2))
  /\ (filter Merge.usable rs1 <> [] -> filter Merge.usable rs2 <> [] ->
      summary (Merge.merge_chunk_results
                 [Merge.merge_chunk_results rs1; Merge.merge_chunk_results rs2])
      = summary (Merge.merge_chunk_results (rs1 ++ rs2))).
Proof.
  rewrite (merge_of_acc [_; _]), (merge_of_acc (rs1 ++ rs2)).
  rewrite !acc_of_cons, !step_merged, acc_of_app.
  change (acc_of []) with Merge.init. rewrite acc_join_init_r.
  unfold acc_join. cbn [Merge.summaries Merge.acc_violations
    Merge.acc_passed_checks Merge.acc_recommendations Merge.acc_files_analyzed
    Merge.acc_total_lines violations passed_checks recommendations metrics summary].
  rewrite dedup_two_stage.
  assert (list_to_set (C := gset string)
            (elements (list_to_set (C := gset string)
                         (Merge.acc_recommendations (acc_of rs1)))
             ++ elements (list_to_set (C := gset string)
                            (Merge.acc_recommendations (acc_of rs2))))
          = list_to_set (Merge.acc_recommendations (acc_of rs1)
                         ++ Merge.acc_recommendations (acc_of rs2))) as ->.
  { by rewrite !list_to_set_app_L, !list_to_set_elements_L. }
  repeat split.
  intros H1 H2. f_equal. rewrite !summaries_usable.
  destruct (filter Merge.usable rs1) as [|r1 l1]; [done|].
  destruct (filter Merge.usable rs2) as [|r2 l2]; [done|].
  rewrite !bool_decide_eq_false_2 by done.
  by rewrite !join_app.
Qed.


(** X10.  Merging in two stages, each part first and the two merged results
    after, gives the violations and the metrics of merging all results at
    once, and the same passed checks and recommendations up to their order;
    it gives the same summary too when each part has a result without
    error. *)
Theorem merge_two_stage (rs1 rs2 : list result) :
  let staged :=
    Merge.merge_chunk_results
      [Merge.merge_chunk_results rs1; Merge.merge_chunk_results rs2] in
  let direct := Merge.merge_chunk_results (rs1 ++ rs2) in
  violations staged = violations direct
  /\ default [] (passed_checks staged) ≡ₚ default [] (passed_checks direct)
  /\ default [] (recommendations staged) ≡ₚ default [] (recommendations direct)
  /\ metrics staged = metrics direct
  /\ (filter Merge.usable rs1 <> [] -> filter Merge.usable rs2 <> [] ->
      summary staged = summary direct).
Proof.
  intros staged direct.
  destruct (two_stage_listed rs1 rs2) as (Hv & Hp & Hr & Hm & Hs).
  fold staged direct in Hv, Hp, Hr, Hm, Hs.
  by rewrite Hp, Hr.
Qed.

Lemma merge_two_stage_witness :
  summary (Merge.merge_chunk_results
             [Merge.merge_chunk_results [result_of [v_low]; failed_result];
              Merge.merge_chunk_results [result_of [v_low; v_high]]])
  = summary (Merge.merge_chunk_results
               ([result_of [v_low]; failed_result] ++ [result_of [v_low; v_high]])).
Proof.
  apply (merge_two_stage [result_of [v_low]; failed_result]
           [result_of [v_low; v_high]]); by vm_compute.
Defined.

(** Results in another order, with the sets listed in the fixed order of
    the model. *)
Lemma any_order_listed (rs rs' : list result) :
  Permutation rs rs' ->
  passed_checks (Merge.merge_chunk_results rs)
  = passed_checks (Merge.merge_chunk_results rs')
  /\ recommendations (Merge.merge_chunk_results rs)
     = recommendations (Merge.merge_chunk_results rs')
  /\ metrics (Merge.merge_chunk_results rs)
     = metrics (Merge.merge_chunk_results rs')
  /\ (forall k : value * value * value,
        k ∈ Merge.key <$> default [] (violations (Merge.merge_chunk_results rs))
        <-> k ∈ Merge.key <$> default [] (violations (Merge.merge_chunk_results rs')))
  /\ length (default [] (violations (Merge.merge_chunk_results rs)))
     = length (default [] (violations (Merge.merge_chunk_results rs'))).
Proof.
  intros Hperm. destruct (acc_similar_perm rs rs' Hperm) as (Hv & Hp & Hr & Hf & Hl).
  rewrite !merge_of_acc. cbn [violations passed_checks recommendations metrics default].
  pose proof (keys_of_perm _ _ Hv) as Hk.
  assert (length (dedup_from ∅ (Merge.acc_violations (acc_of rs)))
          = length (dedup_from ∅ (Merge.acc_violations (acc_of rs')))) as Hlen.
  { by rewrite !dedup_length, Hk. }
  rewrite Hp, Hf, Hl, Hlen.
  assert (list_to_set (C := gset string) (Merge.acc_recommendations (acc_of rs))
          = list_to_set (Merge.acc_recommendations (acc_of rs'))) as ->.
  { apply set_eq. intros x. rewrite !elem_of_list_to_set. by rewrite Hr. }
  repeat split; try done.
  - intros Hin. apply (elem_of_list_to_set (C := gset _)) in Hin.
    apply (elem_of_list_to_set (C := gset _)).
    pose proof (keys_of_dedup (Merge.acc_violations (acc_of rs)) ∅) as H1.
    pose proof (keys_of_dedup (Merge.acc_violations (acc_of rs')) ∅) as H2.
    rewrite !(left_id_L ∅ (∪)) in H1, H2. unfold keys_of, id in *.
    rewrite H2, <- Hk, <- H1. done.
  - intros Hin. apply (elem_of_list_to_set (C := gset _)) in Hin.
    apply (elem_of_list_to_set (C := gset _)).
    pose proof (keys_of_dedup (Merge.acc_violations (acc_of rs)) ∅) as H1.
    pose proof (keys_of_dedup (Merge.acc_violations (acc_of rs')) ∅) as H2.
    rewrite !(left_id_L ∅ (∪)) in H1, H2. unfold keys_of, id in *.
    rewrite H1, Hk, <- H2. done.
Qed.


(** X11.  The order of the results decides which of two duplicates is kept
    and nothing else about the findings: results in another order give the
    same metrics, the same passed checks and recommendations up to their
    order, violations with the same triples (file, line, rule_id), and as
    many of them. *)
Theorem merge_any_order (rs rs' : list result) :
  Permutation rs rs' ->
  default [] (passed_checks (Merge.merge_chunk_results rs))
  ≡ₚ default [] (passed_checks (Merge.merge_chunk_results rs'))
  /\ default [] (recommendations (Merge.merge_chunk_results rs))
     ≡ₚ default [] (recommendations (Merge.merge_chunk_results rs'))
  /\ metrics (Merge.merge_chunk_results rs)
     = metrics (Merge.merge_chunk_results rs')
  /\ (forall k : value * value * value,
        k ∈ Merge.key <$> default [] (violations (Merge.merge_chunk_results rs))
        <-> k ∈ Merge.key <$> default [] (violations (Merge.merge_chunk_results rs')))
  /\ length (default [] (violations (Merge.merge_chunk_results rs)))
     = length (default [] (violations (Merge.merge_chunk_results rs'))).
Proof.
  intros Hperm.
  destruct (any_order_listed rs rs' Hperm) as (Hp & Hr & Hm & Hk & Hl).
  by rewrite Hp, Hr.
Qed.

Lemma merge_any_order_witness :
  length (default [] (violations (Merge.merge_chunk_results
                                    [result_of [v_low; v_high]; result_of [v_high]])))
  = length (default [] (violations (Merge.merge_chunk_results
                                    [result_of [v_high]; result_of [v_low; v_high]]))).
Proof.
  apply (merge_any_order [result_of [v_low; v_high]; result_of [v_high]]
           [result_of [v_high]; result_of [v_low; v_high]]).
  apply perm_swap.
Defined.

(** X12.  The passed checks and the recommendations of the merged result
    have no entry twice, and their entries are those of the results without
    error. *)
Theorem merged_lists_are_sets (rs : list result) :
  NoDup (default [] (passed_checks (Merge.merge_chunk_results rs)))
  /\ (forall x : string,
        x ∈ default [] (passed_checks (Merge.merge_chunk_results rs))
        <-> exists r : result,
              r ∈ rs /\ error r = None /\ x ∈ default [] (passed_checks r))
  /\ NoDup (default [] (recommendations (Merge.merge_chunk_results rs)))
  /\ (forall x : string,
        x ∈ default [] (recommendations (Merge.merge_chunk_results rs))
        <-> exists r : result,
              r ∈ rs /\ error r = None /\ x ∈ default [] (recommendations r)).
Proof.
  rewrite merge_of_acc. cbn [passed_checks recommendations default].
  unfold id. split; [apply NoDup_elements|].
  split; [intros x; by rewrite elem_of_elements, passed_checks_acc|].
  split; [apply NoDup_elements|].
  intros x. by rewrite elem_of_elements, elem_of_list_to_set, recommendations_acc.
Qed.

(** ** ResultAggregator: the maximum severity *)

Section severity_extras.

Import Review.

Lemma first_present_Some (order severities : list string) (s : string) :
  first_present order severities = Some s ->
  exists i : nat,
    order !! i = Some s /\ s ∈ severities
    /\ forall (j : nat) (s' : string),
         (j < i)%nat -> order !! j = Some s' -> s' ∉ severities.
Proof.
  induction order as [|o order IH]; [done|]. simpl.
  case_bool_decide as Ho.
  - intros [= <-]. exists 0%nat. repeat split; [done|]. intros; lia.
  - intros (i & Hi & Hs & Hbefore)%IH. exists (S i). repeat split; [done..|].
    intros [|j] s' Hj Hs'; simpl in Hs'; [congruence|].
    apply (Hbefore j); [lia|done].
Qed.

Lemma first_present_None_all (order severities : list string) :
  first_present order severities = None ->
  Forall (fun s => s ∉ severities) order.
Proof.
  induction order as [|o order IH]; [constructor|]. simpl.
  case_bool_decide as Ho; [done|]. intros H. constructor; [done|by apply IH].
Qed.

Lemma index_of_Some (x : string) (l : list string) (j : nat) :
  index_of x l = Some j -> l !! j = Some x.
Proof.
  revert j. induction l as [|y l IH]; intros j; [done|]. simpl.
  destruct (decide (y = x)) as [->|].
  - by intros [= <-].
  - destruct (index_of x l) as [i|]; [|done]. intros [= <-]. by apply IH.
Qed.

Lemma effective_in (v : violation) (vs : list violation) :
  v ∈ vs -> effective_severity v ∈ map effective_severity vs.
Proof. intros H. apply list_elem_of_In, in_map_iff. exists v. by rewrite <- list_elem_of_In. Qed.

End severity_extras.

(** X13.  [get_max_severity] answers "none" exactly for no violations.
    Otherwise it answers a severity of the fixed order whose rank is at most
    the rank of every violation, and that is the severity, in lower case, of
    one of the violations when one of them has a severity of the fixed
    order. *)
Theorem max_severity_spec (violations : list violation) :
  (Review.get_max_severity violations = "none" <-> violations = [])
  /\ (forall v : violation,
        v ∈ violations ->
        exists i : nat,
          Review.SEVERITY_ORDER !! i = Some (Review.get_max_severity violations)
          /\ Z.of_nat i <= Review.severity_key v)
  /\ ((exists v : violation,
         v ∈ violations /\ Review.effective_severity v ∈ Review.SEVERITY_ORDER) ->
      exists v : violation,
        v ∈ violations
        /\ Review.effective_severity v = Review.get_max_severity violations).
Proof.
  destruct violations as [|w ws].
  { split; [done|]. split; [by intros v ?%elem_of_nil|].
    by intros (v & ?%elem_of_nil & _). }
  unfold Review.get_max_severity.
  set (vs := w :: ws). set (sevs := map Review.effective_severity vs).
  destruct (Review.first_present Review.SEVERITY_ORDER sevs) as [s|] eqn:Hfp.
  - apply first_present_Some in Hfp as (i & Hi & Hs & Hbefore). simpl.
    split; [|split].
    + split; [|done]. intros ->.
      do 5 (destruct i as [|i]; [discriminate|]). done.
    + intros v Hv. exists i. split; [done|].
      pose proof (effective_in v vs Hv) as Hin.
      unfold Review.severity_key.
      destruct (Review.index_of (Review.effective_severity v) Review.SEVERITY_ORDER)
        as [j|] eqn:Hidx.
      * apply index_of_Some in Hidx.
        destruct (decide (j < i)%nat) as [Hlt|]; [|lia].
        by destruct (Hbefore j _ Hlt Hidx).
      * apply lookup_lt_Some in Hi. simpl in Hi. lia.
    + intros _. apply list_elem_of_In, in_map_iff in Hs as (v & Hv & Hin).
      exists v. by rewrite <- list_elem_of_In in Hin.
  - apply first_present_None_all in Hfp. simpl. split; [|split].
    + done.
    + intros v Hv. exists 2%nat. split; [done|].
      rewrite severity_key_unknown; [lia|].
      intros Hin. rewrite Forall_forall in Hfp.
      apply (Hfp _ Hin). by apply effective_in.
    + intros (v & Hv & Hin). exfalso. rewrite Forall_forall in Hfp.
      apply (Hfp _ Hin). by apply effective_in.
Qed.

Lemma max_severity_spec_witness :
  exists i : nat,
    Review.SEVERITY_ORDER !! i
    = Some (Review.get_max_severity [v_low; v_HIGH; v_unrated])
    /\ Z.of_nat i <= Review.severity_key v_unrated.
Proof.
  apply (proj1 (proj2 (max_severity_spec [v_low; v_HIGH; v_unrated])) v_unrated).
  apply list_elem_of_In. simpl. tauto.
Defined.

(** ** ReportFormatter: the inline comments *)

Section inline_extras.

Import Review.

Lemma int_of_digits_nonneg (s : string) (acc n : Z) :
  int_of_digits acc s = Some n -> 0 <= acc -> 0 <= n.
Proof.
  revert acc. induction s as [|c s IH]; intros acc; simpl.
  - by intros [= <-].
  - unfold decimal_value.
    destruct ((48 <=? nat_of_ascii c)%nat && (nat_of_ascii c <=? 57)%nat); [|done].
    intros H Hacc. apply (IH _ H). lia.
Qed.

Lemma int_of_digits_decimal (s : string) (acc : Z) :
  decimal s = true -> exists n : Z, int_of_digits acc s = Some n.
Proof.
  unfold decimal. revert acc. induction s as [|c s IH]; intros acc; simpl.
  - by eexists.
  - intros [Hc Hs]%andb_true_iff. apply bool_decide_eq_true in Hc as [d Hd].
    rewrite Hd. by apply IH.
Qed.

Lemma format_value_printable (v : value) :
  printable v = true -> format_value v = Returned (str_of_value v).
Proof.
  destruct v as [|z|s]; simpl; [done| |done].
  unfold checked_str_of_int. intros Hz%Nat.leb_le.
  by destruct (Nat.ltb_spec int_max_str_digits (digits z)); [lia|].
Qed.

Lemma format_value_raised (v : value) (exception message : string) :
  format_value v = Raised exception message ->
  exception = "ValueError" /\ printable v = false.
Proof.
  destruct v as [|z|s]; simpl; [done| |done].
  unfold checked_str_of_int.
  destruct (Nat.ltb_spec int_max_str_digits (digits z)) as [Hlt|]; [|done].
  intros [= <- _]. split; [done|]. apply Nat.leb_gt. lia.
Qed.

Lemma line_number_nonneg (l : value) (n : Z) :
  line_number l = Returned (Some n) -> 0 <= n.
Proof.
  destruct l as [|z|s]; simpl; [done| |].
  - unfold checked_str_of_int.
    destruct (int_max_str_digits <? digits z)%nat; [done|]. cbn [bind].
    rewrite isdigit_str_of_int. destruct (Z.leb_spec 0 z); [|done].
    by intros [= <-].
  - destruct (isdigit s); [|done].
    destruct (int_of_digits 0 s) as [m|] eqn:Hm; [|done].
    destruct (int_max_str_digits <? String.length s)%nat; [done|].
    intros [= <-]. by apply (int_of_digits_nonneg s 0).
Qed.

Lemma line_number_converts (l : value) :
  line_converts l = true -> exists n : option Z, line_number l = Returned n.
Proof.
  destruct l as [|z|s]; simpl; [by eexists| |].
  - unfold checked_str_of_int. intros Hz%Nat.leb_le.
    destruct (Nat.ltb_spec int_max_str_digits (digits z)); [lia|]. by eexists.
  - destruct (isdigit s); [|by eexists]. simpl.
    intros [Hdec Hlen%Nat.leb_le]%andb_true_iff.
    destruct (int_of_digits_decimal s 0 Hdec) as [m ->].
    destruct (Nat.ltb_spec int_max_str_digits (String.length s)); [lia|].
    by eexists.
Qed.

Lemma line_number_raised (l : value) (exception message : string) :
  line_number l = Raised exception message ->
  exception = "ValueError" /\ line_converts l = false.
Proof.
  destruct l as [|z|s]; simpl; [done| |].
  - unfold checked_str_of_int.
    destruct (Nat.ltb_spec int_max_str_digits (digits z)) as [Hlt|]; [|done].
    intros [= <- _]. split; [done|]. apply Nat.leb_gt. lia.
  - destruct (isdigit s); [|done]. simpl.
    destruct (int_of_digits 0 s) as [m|] eqn:Hm.
    + destruct (Nat.ltb_spec int_max_str_digits (String.length s)) as [Hlt|];
        [|done].
      intros [= <- _]. split; [done|]. apply andb_false_iff. right.
      apply Nat.leb_gt. lia.
    + intros [= <- _]. split; [done|]. apply andb_false_iff. left.
      destruct (decimal s) eqn:Hdec; [|done].
      destruct (int_of_digits_decimal s 0 Hdec) as [m' Hm']. congruence.
Qed.

Lemma comment_of_fields (v : violation) (c : comment) :
  comment_of v = Returned (Some c) ->
  c_path c = get_or_none (file v)
  /\ truthy_value (c_path c) = true
  /\ c_severity c = effective_severity v
  /\ line_number (get_or_none (line v)) = Returned (c_line c).
Proof.
  unfold comment_of.
  destruct (truthy_value (get_or_none (file v))) eqn:Hf; [|done].
  destruct (truthy_value (get_or_none (line v))); [|done].
  case_bool_decide; [done|]. cbn [negb orb].
  destruct (format_value (default (VStr "") (rule_id v))) as [text|]; [|done].
  cbn [bind].
  destruct (line_number (get_or_none (line v))) as [n|]; [|done].
  cbn [bind]. by intros [= <-].
Qed.

Lemma inline_loop_kept (vs : list violation) (l : list comment) :
  inline_loop vs = Returned l ->
  exists kept : list violation,
    kept `sublist_of` vs
    /\ Forall2 (fun v c => comment_of v = Returned (Some c)) kept l.
Proof.
  revert l. induction vs as [|v vs IH]; intros l; simpl.
  - intros [= <-]. by exists [].
  - destruct (comment_of v) as [oc|] eqn:Hc; [|done]. cbn [bind].
    destruct (inline_loop vs) as [r|]; [|done]. cbn [bind].
    destruct (IH r eq_refl) as (kept & Hsub & Hall).
    intros [= <-]. destruct oc as [c|].
    + exists (v :: kept). split; [by apply sublist_skip|by constructor].
    + exists kept. split; [by apply sublist_cons|done].
Qed.

Lemma Forall2_sublist_r {A B} (R : A -> B -> Prop) (k : list A) (l l' : list B) :
  Forall2 R k l -> l' `sublist_of` l ->
  exists k' : list A, k' `sublist_of` k /\ Forall2 R k' l'.
Proof.
  intros HR Hsub. revert k HR.
  induction Hsub as [|x l1 l2 _ IH|x l1 l2 _ IH]; intros k HR.
  - exists []. split; [apply sublist_nil_l|constructor].
  - inversion HR as [|a ? k0 ? Ha Hk]; subst.
    destruct (IH _ Hk) as (k' & ? & ?). exists (a :: k').
    split; [by apply sublist_skip|by constructor].
  - inversion HR as [|a ? k0 ? Ha Hk]; subst.
    destruct (IH _ Hk) as (k' & ? & ?). exists k'.
    split; [by apply sublist_cons|done].
Qed.

Lemma filter_has_line_sublist (l : list comment) :
  List.filter has_line l `sublist_of` l.
Proof.
  induction l as [|c l IH]; [done|]. simpl.
  destruct (has_line c); [by apply sublist_skip|by apply sublist_cons].
Qed.

Lemma comment_of_integer (v : violation) :
  (forall s : string, get_or_none (line v) <> VStr s) ->
  comment_converts v = true ->
  exists oc : option comment,
    comment_of v = Returned oc
    /\ match oc with
       | Some c =>
           if has_line c then integer_place v = Some (c_path c, c_line c)
           else integer_place v = None
       | None => integer_place v = None
       end.
Proof.
  intros Hint [Hline Hrule]%andb_true_iff. unfold comment_of, integer_place.
  rewrite (format_value_printable _ Hrule).
  destruct (get_or_none (line v)) as [|z|s] eqn:Hl; [| |by destruct (Hint s)].
  - exists None. split; [|done].
    by destruct (truthy_value (get_or_none (file v))).
  - destruct (truthy_value (get_or_none (file v))) eqn:Hf; cbn [negb orb andb].
    2: { by exists None. }
    cbn [truthy_value]. destruct (Z.eqb_spec z 0) as [->|Hz]; cbn [negb].
    { by exists None. }
    rewrite bool_decide_eq_false_2 by done. cbn [bind].
    rewrite line_number_int by (by apply Nat.leb_le). cbn [bind].
    eexists. split; [done|]. unfold has_line. cbn [c_line c_path].
    destruct (Z.leb_spec 0 z), (Z.ltb_spec 0 z); try done; lia.
Qed.

Lemma inline_loop_integer (vs : list violation) :
  Forall (fun v => (forall s : string, get_or_none (line v) <> VStr s)
                   /\ comment_converts v = true) vs ->
  exists l : list comment,
    inline_loop vs = Returned l
    /\ map (fun c => (c_path c, c_line c)) (List.filter has_line l)
       = omap integer_place vs.
Proof.
  induction 1 as [|v vs [Hv Hc] _ (l & Hl & IH)]; [by exists []|].
  destruct (comment_of_integer v Hv Hc) as (oc & Hoc & Hplace).
  cbn [inline_loop]. rewrite Hoc, Hl. cbn [bind].
  eexists. split; [done|]. cbn [omap list_omap].
  change (list_omap _ _ integer_place vs) with (omap integer_place vs).
  destruct oc as [c|].
  - cbn [List.filter]. destruct (has_line c); rewrite Hplace; cbn; by rewrite IH.
  - by rewrite Hplace.
Qed.

Lemma comment_of_returns (v : violation) :
  comment_converts v = true ->
  exists oc : option comment, comment_of v = Returned oc.
Proof.
  intros [Hline Hrule]%andb_true_iff. unfold comment_of.
  destruct (negb _ || negb _ || bool_decide _); [by eexists|].
  rewrite (format_value_printable _ Hrule). cbn [bind].
  destruct (line_number_converts _ Hline) as [n ->]. by eexists.
Qed.

Lemma comment_of_raised (v : violation) (exception message : string) :
  comment_of v = Raised exception message ->
  exception = "ValueError" /\ comment_converts v = false.
Proof.
  unfold comment_of, comment_converts.
  destruct (negb _ || negb _ || bool_decide _); [done|].
  destruct (format_value (default (VStr "") (rule_id v))) as [text|e m] eqn:Hf.
  - cbn [bind].
    destruct (line_number (get_or_none (line v))) as [n|e m] eqn:Hn; [done|].
    intros [= -> ->]. apply line_number_raised in Hn as [-> ->]. by split.
  - intros [= -> ->]. apply format_value_raised in Hf as [-> ->].
    split; [done|]. apply andb_false_r.
Qed.

Lemma inline_loop_raised (vs : list violation) (exception message : string) :
  inline_loop vs = Raised exception message ->
  exception = "ValueError"
  /\ exists v : violation, v ∈ vs /\ comment_converts v = false.
Proof.
  induction vs as [|v vs IH]; [done|]. cbn [inline_loop].
  destruct (comment_of v) as [oc|e m] eqn:Hc.
  - cbn [bind]. destruct (inline_loop vs) as [l|e m]; [done|].
    intros [= -> ->]. destruct (IH eq_refl) as (-> & w & Hw & Hconv).
    split; [done|]. exists w. split; [by right|done].
  - intros [= -> ->]. apply comment_of_raised in Hc as [-> Hconv].
    split; [done|]. exists v. split; [by left|done].
Qed.

End inline_extras.

(** X14.  Every inline comment that [main] reports stands for one of the
    violations, in their order: it has the file and the severity, in lower
    case, of its violation; its file is true, and its line is an integer
    that is not negative.  There are at most 20 of them. *)
Theorem inline_comments_sound (violations : list violation)
    (comments : list Review.comment) :
  Review.inline_comments violations = Returned comments ->
  (length comments <= 20)%nat
  /\ Forall (fun c => truthy_value (Review.c_path c) = true
                      /\ exists n : Z, Review.c_line c = Some n /\ 0 <= n)
       comments
  /\ exists kept : list violation,
       kept `sublist_of` violations
       /\ Forall2 (fun v c =>
                     Review.c_path c = get_or_none (file v)
                     /\ Review.c_severity c = Review.effective_severity v)
            kept comments.
Proof.
  unfold Review.inline_comments, Review.extract_inline_comments.
  destruct (Review.inline_loop violations) as [l|] eqn:Hloop; [|done].
  cbn [bind]. intros [= <-].
  apply inline_loop_kept in Hloop as (kept0 & Hsub0 & Hall0).
  assert (take 20 (List.filter Review.has_line l) `sublist_of` l) as Hsub.
  { etrans; [apply sublist_take|apply filter_has_line_sublist]. }
  destruct (Forall2_sublist_r _ _ _ _ Hall0 Hsub) as (kept & Hk & Hall).
  split; [rewrite length_take; lia|]. split.
  - apply Forall_forall. intros c Hc.
    assert (c ∈ List.filter Review.has_line l) as Hin.
    { eapply elem_of_sublist; [exact Hc|apply sublist_take]. }
    apply list_elem_of_In, filter_In in Hin as [Hin Hline].
    apply list_elem_of_In in Hin.
    assert (c ∈ l) as Hcl by done.
    assert (exists v, Review.comment_of v = Returned (Some c)) as [v Hv].
    { clear -Hall0 Hcl. induction Hall0 as [|v c' ? ? Hvc _ IH]; [by inversion Hcl|].
      apply elem_of_cons in Hcl as [->|Hcl]; [by exists v|by apply IH]. }
    apply comment_of_fields in Hv as (_ & Ht & _ & Hn). split; [done|].
    unfold Review.has_line in Hline.
    destruct (Review.c_line c) as [n|]; [|done].
    exists n. split; [done|]. by apply line_number_nonneg in Hn.
  - exists kept. split; [by etrans|].
    eapply Forall2_impl; [exact Hall|].
    intros v c (? & _ & ? & _)%comment_of_fields. done.
Qed.

Lemma inline_comments_sound_witness :
  match Review.inline_comments [v_a10; v_b_unknown; v_null5] with
  | Returned comments => (length comments <= 20)%nat
  | Raised _ _ => False
  end.
Proof.
  destruct (Review.inline_comments [v_a10; v_b_unknown; v_null5])
    as [comments|] eqn:H.
  - apply (inline_comments_sound _ _ H).
  - vm_compute in H. discriminate H.
Defined.



(** ** ReportFormatter: the counts of the summary *)

Section counter_facts.

Context {K : Type} `{Countable K}.
Variable k : violation -> K.

Lemma total_count_step (m : gmap K Z) (x : K) :
  total_count (<[x := default 0 (m !! x) + 1]> m) = total_count m + 1.
Proof.
  unfold total_count.
  assert (forall (m' : gmap K Z) (j1 j2 : K) (z1 z2 y : Z),
            j1 <> j2 -> m' !! j1 = Some z1 -> m' !! j2 = Some z2 ->
            z1 + (z2 + y) = z2 + (z1 + y)) as Hcomm by (intros; lia).
  destruct (m !! x) as [n|] eqn:Hx; simpl.
  - rewrite <- insert_delete_eq.
    rewrite map_fold_insert_L; [|by apply Hcomm|by apply lookup_delete_eq].
    rewrite (map_fold_delete_L _ _ x n m); [lia|by apply Hcomm|done].
  - rewrite map_fold_insert_L; [lia|by apply Hcomm|done].
Qed.

Lemma counter_total (vs : list violation) (m : gmap K Z) :
  total_count (fold_left (counter_step k) vs m)
  = total_count m + Z.of_nat (length vs).
Proof.
  revert m. induction vs as [|v vs IH]; intros m; simpl; [lia|].
  rewrite IH. unfold counter_step. rewrite total_count_step. lia.
Qed.

Lemma counter_lookup (vs : list violation) (m : gmap K Z) (x : K) :
  default 0 (fold_left (counter_step k) vs m !! x)
  = default 0 (m !! x) + Z.of_nat (length (filter (fun v => k v = x) vs)).
Proof.
  revert m. induction vs as [|v vs IH]; intros m; simpl; [lia|].
  rewrite IH. unfold counter_step.
  destruct (decide (k v = x)) as [Heq|Hne].
  - rewrite filter_cons_True by done. rewrite Heq, lookup_insert_eq. simpl. lia.
  - rewrite filter_cons_False by done. by rewrite lookup_insert_ne.
Qed.

Lemma counter_positive (vs : list violation) (m : gmap K Z) :
  map_Forall (fun _ n => 0 < n) m ->
  map_Forall (fun _ n => 0 < n) (fold_left (counter_step k) vs m).
Proof.
  revert m. induction vs as [|v vs IH]; intros m Hm; simpl; [done|].
  apply IH. unfold counter_step. apply map_Forall_insert_2; [|done].
  destruct (m !! k v) as [n|] eqn:Hn; simpl; [|lia].
  specialize (Hm _ _ Hn). simpl in Hm. lia.
Qed.

Lemma counter_keys (vs : list violation) (x : K) :
  is_Some (fold_left (counter_step k) vs ∅ !! x) <-> exists v, v ∈ vs /\ k v = x.
Proof.
  assert (forall m : gmap K Z,
            is_Some (fold_left (counter_step k) vs m !! x)
            <-> is_Some (m !! x) \/ exists v, v ∈ vs /\ k v = x) as Hgen.
  { induction vs as [|v vs IH]; intros m; simpl.
    - split; [by left|]. intros [?|(v & ?%elem_of_nil & _)]; done.
    - rewrite IH. unfold counter_step. split.
      + intros [Hs|(w & Hw & Hk)].
        * destruct (decide (k v = x)) as [Heq|Hne].
          -- right. exists v. split; [by left|done].
          -- left. by rewrite lookup_insert_ne in Hs.
        * right. exists w. split; [by right|done].
      + intros [Hs|(w & Hw & Hk)].
        * left. destruct (decide (k v = x)) as [Heq|Hne].
          -- rewrite Heq, lookup_insert_eq. by eexists.
          -- by rewrite lookup_insert_ne.
        * apply elem_of_cons in Hw as [->|Hw].
          -- left. rewrite Hk, lookup_insert_eq. by eexists.
          -- right. by exists w. }
  rewrite Hgen, lookup_empty. split; [|by right].
  intros [[? [=]]|?]; done.
Qed.

End counter_facts.

Section summary_facts.

Import Review.

Lemma by_severity_counter (vs : list violation) :
  by_severity vs
  = fold_left (counter_step (fun v => default "medium" (severity v))) vs ∅.
Proof. reflexivity. Qed.

Lemma language_counts_counter (vs : list violation) :
  Summary.language_counts vs
  = fold_left (counter_step (fun v => default (VStr "common") (_language v))) vs ∅.
Proof. reflexivity. Qed.

Lemma max_severity_none (vs : list violation) :
  get_max_severity vs = "none" <-> vs = [].
Proof.
  destruct vs as [|w ws]; [done|]. split; [|done].
  unfold get_max_severity.
  destruct (first_present SEVERITY_ORDER (map effective_severity (w :: ws)))
    as [s|] eqn:Hfp; simpl; [|done].
  apply first_present_Some in Hfp as (i & Hi & _). intros ->.
  do 5 (destruct i as [|i]; [discriminate|]). done.
Qed.

Lemma filter_length_perm {A} (P : A -> Prop) `{!forall x, Decision (P x)}
    (l l' : list A) :
  Permutation l l' -> length (filter P l) = length (filter P l').
Proof.
  induction 1 as [|x l l' _ IH|x y l|l l' l'' _ IH1 _ IH2]; [done| | |congruence].
  - destruct (decide (P x)).
    + rewrite !filter_cons_True by done. simpl. by rewrite IH.
    + by rewrite !filter_cons_False.
  - destruct (decide (P x)), (decide (P y));
      rewrite ?filter_cons_True, ?filter_cons_False by done;
      rewrite ?filter_cons_True, ?filter_cons_False by done; done.
Qed.

Lemma collect_length (results : list result) :
  length (collect results) = length (raw_violations results).
Proof.
  unfold collect, raw_violations.
  induction results as [|r rs IH]; [done|]. simpl.
  by rewrite !length_app, length_map, IH.
Qed.

Lemma collect_severity (results : list result) (s : string) :
  length (filter (fun v => default "medium" (severity v) = s) (collect results))
  = length (filter (fun v => default "medium" (severity v) = s)
              (raw_violations results)).
Proof.
  unfold collect, raw_violations.
  induction results as [|r rs IH]; [done|]. simpl.
  rewrite !filter_app, !length_app, IH. f_equal.
  generalize (default [] (violations r)). intros vs.
  induction vs as [|v vs IHv]; [done|]. simpl.
  destruct (decide (default "medium" (severity v) = s)).
  - rewrite !filter_cons_True by done. simpl. by rewrite IHv.
  - by rewrite !filter_cons_False.
Qed.

Lemma collect_language (results : list result) (L : value) :
  length (filter (fun v => default (VStr "common") (_language v) = L)
            (collect results))
  = length (raw_violations (filter (fun r => language_of r = L) results)).
Proof.
  unfold collect, raw_violations.
  induction results as [|r rs IH]; [done|]. simpl.
  rewrite filter_app, length_app, IH.
  assert (forall vs : list violation,
            length (filter (fun v => default (VStr "common") (_language v) = L)
                      (map (tag (default "unknown" (_source_file r))
                                (language_of r)) vs))
            = if decide (language_of r = L) then length vs else 0%nat) as Htag.
  { induction vs as [|v vs IHv]; simpl; [by destruct (decide _)|].
    destruct (decide (language_of r = L)) as [Heq|Hne].
    - rewrite filter_cons_True by done. simpl. by rewrite IHv.
    - by rewrite filter_cons_False. }
  fold (language_of r). rewrite Htag.
  destruct (decide (language_of r = L)) as [Heq|Hne].
  - rewrite filter_cons_True by done. simpl. by rewrite length_app.
  - by rewrite filter_cons_False.
Qed.

End summary_facts.

(** X16.  In the summary that [main] writes, the total is the number of
    violations of all result files, [has_violations] holds exactly when the
    total is positive and exactly when the maximum severity is not "none",
    the counts by severity and the counts by language each add up to the
    total when they are there, every count is positive, and there are at
    most 20 inline comments and no more than violations. *)
Theorem summary_consistent (results : list result) (s : Summary.summary_dict) :
  Summary.main_summary results = Returned s ->
  Summary.total_violations s = Z.of_nat (length (raw_violations results))
  /\ (Summary.has_violations s = true <-> 0 < Summary.total_violations s)
  /\ (Summary.has_violations s = true <-> Summary.max_severity s <> "none")
  /\ (forall m : gmap string Z,
        Summary.by_severity s = Some m ->
        total_count m = Summary.total_violations s
        /\ map_Forall (fun _ n => 0 < n) m)
  /\ (forall m : gmap value Z,
        Summary.by_language s = Some m ->
        total_count m = Summary.total_violations s
        /\ map_Forall (fun _ n => 0 < n) m)
  /\ (length (Summary.inline_comments s) <= 20)%nat
  /\ Z.of_nat (length (Summary.inline_comments s)) <= Summary.total_violations s.
Proof.
  unfold Summary.main_summary. destruct results as [|r rs].
  { intros [= <-]. simpl. repeat split; try done; try lia. }
  set (results := r :: rs).
  destruct (Review.extract_inline_comments (Review.aggregate_violations results))
    as [l|] eqn:Hl; [|done].
  cbn [bind]. intros [= <-].
  cbn [Summary.total_violations Summary.has_violations Summary.max_severity
       Summary.by_severity Summary.by_language Summary.inline_comments].
  assert (length (Review.aggregate_violations results)
          = length (raw_violations results)) as Hlen.
  { unfold Review.aggregate_violations.
    by rewrite (Permutation_length (sorted_by_perm _ _)), collect_length. }
  rewrite Hlen. split; [done|]. split; [apply Z.ltb_lt|]. split.
  { rewrite Z.ltb_lt, max_severity_none.
    destruct (Review.aggregate_violations results) as [|a l']; simpl in Hlen |- *.
    - split; [lia|done].
    - split; [done|lia]. }
  split; [|split; [|split]].
  - intros m [= <-]. rewrite by_severity_counter. split.
    + rewrite counter_total. unfold total_count. rewrite map_fold_empty. lia.
    + apply counter_positive, map_Forall_empty.
  - intros m [= <-]. rewrite language_counts_counter. split.
    + rewrite counter_total. unfold total_count. rewrite map_fold_empty. lia.
    + apply counter_positive, map_Forall_empty.
  - rewrite length_take. lia.
  - unfold Review.extract_inline_comments in Hl.
    destruct (Review.inline_loop (Review.aggregate_violations results))
      as [l0|] eqn:Hl0; [|done].
    cbn [bind] in Hl. injection Hl as <-.
    apply inline_loop_kept in Hl0 as (kept & Hsub & Hall).
    apply sublist_length in Hsub. apply Forall2_length in Hall.
    pose proof (sublist_length _ _ (filter_has_line_sublist l0)).
    rewrite length_take. lia.
Qed.

Lemma summary_consistent_witness :
  match Summary.main_summary [result_of [v_a10; v_b_unknown]; failed_result] with
  | Returned s => Summary.total_violations s = 2
  | Raised _ _ => False
  end.
Proof.
  destruct (Summary.main_summary [result_of [v_a10; v_b_unknown]; failed_result])
    as [s|] eqn:Hs.
  - apply (summary_consistent _ _ Hs).
  - vm_compute in Hs. discriminate Hs.
Defined.

(** X17.  The counts of the summary are counts over the result files: the
    count under a severity is the number of violations that carry exactly
    that severity, a missing one being read as "medium"; the count under a
    language is the number of violations of the result files whose metadata
    give that language, a missing one being read as "common".  A key is
    there exactly when its count is positive. *)
Theorem summary_counts (results : list result) :
  let violations := Review.aggregate_violations results in
  (forall sev : string,
     default 0 (Review.by_severity violations !! sev)
     = Z.of_nat (length (filter (fun v => default "medium" (severity v) = sev)
                           (raw_violations results))))
  /\ (forall lang : value,
        default 0 (Summary.language_counts violations !! lang)
        = Z.of_nat (length (raw_violations
                              (filter (fun r => language_of r = lang) results))))
  /\ (forall sev : string,
        is_Some (Review.by_severity violations !! sev)
        <-> 0 < default 0 (Review.by_severity violations !! sev))
  /\ (forall lang : value,
        is_Some (Summary.language_counts violations !! lang)
        <-> 0 < default 0 (Summary.language_counts violations !! lang)).
Proof.
  intros vs.
  assert (Permutation vs (Review.collect results)) as Hperm
    by apply sorted_by_perm.
  split; [|split; [|split]].
  - intros sev. rewrite by_severity_counter, counter_lookup, lookup_empty. simpl.
    by rewrite (filter_length_perm _ _ _ Hperm), collect_severity.
  - intros lang. rewrite language_counts_counter, counter_lookup, lookup_empty.
    simpl. by rewrite (filter_length_perm _ _ _ Hperm), collect_language.
  - intros sev. rewrite by_severity_counter. split.
    + intros [n Hn]. rewrite Hn. simpl.
      by apply (counter_positive _ vs ∅ (map_Forall_empty _) _ _ Hn).
    + destruct (fold_left _ vs ∅ !! sev); [by eexists|simpl; lia].
  - intros lang. rewrite language_counts_counter. split.
    + intros [n Hn]. rewrite Hn. simpl.
      by apply (counter_positive _ vs ∅ (map_Forall_empty _) _ _ Hn).
    + destruct (fold_left _ vs ∅ !! lang); [by eexists|simpl; lia].
Qed.

(** ** ResponseNormalizer: the text between the code fences *)

Section fence_facts.

Import Normalizer.

Lemma fence_lines_body (ls after : list string) :
  Forall (fun l => startswith l fence = false) ls ->
  match after with
  | [] => True
  | closing :: _ => startswith closing fence = true
  end ->
  fence_lines true (ls ++ after) = ls.
Proof.
  intros Hls Hafter. induction Hls as [|l ls Hl _ IH]; simpl.
  - destruct after as [|closing rest]; [done|]. simpl. by rewrite Hafter.
  - by rewrite Hl, IH.
Qed.

Lemma startswith_join (opening p : string) (ls : list string) :
  startswith opening p = true -> startswith (join nl (opening :: ls)) p = true.
Proof.
  unfold startswith. destruct (drop_prefix p opening) as [r|] eqn:Hr; [|done].
  intros _. apply drop_prefix_Some in Hr. rewrite join_prefixed, Hr.
  by rewrite str_app_assoc, drop_prefix_app.
Qed.

(** The loop takes the lines up to the first fence line. *)
Lemma fence_lines_split (ls : list string) :
  exists body after : list string,
    ls = body ++ after
    /\ Forall (fun l => startswith l fence = false) body
    /\ match after with
       | [] => True
       | closing :: _ => startswith closing fence = true
       end
    /\ fence_lines true ls = body.
Proof.
  induction ls as [|l ls (body & after & -> & Hbody & Hafter & Hlines)].
  - by exists [], [].
  - destruct (startswith l fence) eqn:Hl.
    + exists [], (l :: body ++ after). repeat split; [constructor|done|].
      simpl. by rewrite Hl.
    + exists (l :: body), after. repeat split; [by constructor|done|].
      simpl. by rewrite Hl, Hlines.
Qed.

(** The first line of a text begins with what the text begins with, up to
    the first newline. *)
Lemma split_prefix_line (p s : string) :
  nl_free p = true ->
  exists (x : string) (xs : list string),
    split s nl = x :: xs /\ split (p +:+ s) nl = (p +:+ x) :: xs.
Proof.
  intros Hp. induction p as [|c p IH].
  - destruct (split s nl) as [|x xs] eqn:Hs; [by apply split_nonempty in Hs|].
    exists x, xs. by rewrite !str_app_nil_l.
  - unfold nl_free in Hp. simpl in Hp. apply andb_true_iff in Hp as [Hc Hp].
    destruct (IH Hp) as (x & xs & Hs & Hps). exists x, xs. split; [done|].
    rewrite !str_app_cons, split_nl_cons, Ascii.eqb_sym.
    destruct (Ascii.eqb c "010"); [done|]. by rewrite Hps.
Qed.

Lemma fenced_first_line (s : string) :
  startswith s fence = true ->
  exists (opening : string) (rest : list string),
    split s nl = opening :: rest /\ startswith opening fence = true.
Proof.
  unfold startswith. destruct (drop_prefix fence s) as [r|] eqn:Hr; [|done].
  intros _. apply drop_prefix_Some in Hr. subst s.
  destruct (split_prefix_line fence r eq_refl) as (x & xs & _ & ->).
  exists (fence +:+ x), xs. split; [done|]. by rewrite drop_prefix_app.
Qed.

End fence_facts.




(** X18.  A response that, stripped, begins with a fence line is reduced to
    the lines after that line and before the next line that begins with a
    fence; what follows the closing fence is dropped, and without a closing
    fence everything after the opening line is kept. *)
Theorem fenced_text_recovered (response opening : string)
    (ls after : list string) :
  strip response = join nl (opening :: ls ++ after) ->
  startswith opening Normalizer.fence = true ->
  Forall (fun l => nl_free l = true) (opening :: ls ++ after) ->
  Forall (fun l => startswith l Normalizer.fence = false) ls ->
  match after with
  | [] => True
  | closing :: _ => startswith closing Normalizer.fence = true
  end ->
  Normalizer.response_text response = join nl ls.
Proof.
  intros Hstrip Hopen Hfree Hls Hafter. unfold Normalizer.response_text.
  rewrite Hstrip, startswith_join by done.
  rewrite split_join_lines by done.
  cbn [Normalizer.fence_lines]. rewrite Hopen. cbn [negb andb].
  by rewrite fence_lines_body.
Qed.

Lemma fenced_text_recovered_witness :
  Normalizer.response_text
    ("  ```json" +:+ nl +:+ "{a" +:+ nl +:+ "b}" +:+ nl +:+ "```" +:+ nl
     +:+ "trailer" +:+ nl)
  = join nl ["{a"; "b}"].
Proof.
  apply (fenced_text_recovered _ "```json" ["{a"; "b}"] ["```"; "trailer"]).
  - reflexivity.
  - reflexivity.
  - repeat constructor.
  - repeat constructor.
  - reflexivity.
Defined.

(** ** LanguageDetector *)

Section table_facts.

Import Detect.

Context {A : Type}.
Implicit Types d : list (string * A).

Lemma table_get_set d (k p : string) (v : A) :
  table_get (table_set d k v) p
  = if decide (k = p) then Some v else table_get d p.
Proof.
  induction d as [|[k' v'] d IH]; simpl.
  - by destruct (decide (k = p)).
  - destruct (decide (k' = k)) as [->|Hne]; simpl.
    + by destruct (decide (k = p)).
    + rewrite IH. destruct (decide (k' = p)) as [->|]; [|done].
      by rewrite decide_False by congruence.
Qed.

Lemma table_get_None d (k : string) : table_get d k = None <-> k ∉ d.*1.
Proof.
  induction d as [|[k' v'] d IH]; simpl.
  - split; [intros _; apply not_elem_of_nil|done].
  - rewrite not_elem_of_cons. destruct (decide (k' = k)) as [->|Hne].
    + split; [done|]. by intros [? _].
    + rewrite IH. split; [|tauto]. intros ?. split; [congruence|done].
Qed.

Lemma table_get_elem d (k : string) (v : A) :
  table_get d k = Some v -> (k, v) ∈ d.
Proof.
  induction d as [|[k' v'] d IH]; simpl; [done|].
  destruct (decide (k' = k)) as [->|Hne].
  - intros [= ->]. by left.
  - intros H. right. by apply IH.
Qed.

Lemma table_set_names d (k : string) (v : A) :
  (table_set d k v).*1 = if bool_decide (k ∈ d.*1) then d.*1 else d.*1 ++ [k].
Proof.
  induction d as [|[k' v'] d IH]; [done|].
  cbn [table_set]. destruct (decide (k' = k)) as [->|Hne];
    rewrite !fmap_cons; cbn [fst].
  - rewrite bool_decide_eq_true_2; [done|]. by left.
  - rewrite IH. case_bool_decide as Hin.
    + rewrite bool_decide_eq_true_2; [done|]. by right.
    + rewrite bool_decide_eq_false_2; [done|].
      intros [?|?]%elem_of_cons; [congruence|done].
Qed.

Lemma table_set_NoDup d (k : string) (v : A) :
  NoDup d.*1 -> NoDup (table_set d k v).*1.
Proof.
  intros Hd. rewrite table_set_names. case_bool_decide as Hin; [done|].
  apply NoDup_app. split; [done|]. split; [|apply NoDup_singleton].
  intros x Hx ->%list_elem_of_singleton. done.
Qed.

Lemma table_set_fresh d (k : string) (v : A) :
  k ∉ d.*1 -> table_set d k v = d ++ [(k, v)].
Proof.
  induction d as [|[k' v'] d IH]; [done|].
  rewrite fmap_cons. cbn [fst]. intros [Hne Hd]%not_elem_of_cons.
  cbn [table_set]. rewrite decide_False by congruence.
  by rewrite IH.
Qed.

Lemma table_set_last d (k : string) (v v' : A) :
  k ∉ d.*1 -> table_set (d ++ [(k, v)]) k v' = d ++ [(k, v')].
Proof.
  induction d as [|[k' w] d IH].
  - intros _. simpl. by rewrite decide_True.
  - rewrite fmap_cons. cbn [fst]. intros [Hne Hd]%not_elem_of_cons.
    simpl. rewrite decide_False by congruence. by rewrite IH.
Qed.

Lemma table_get_last d (k : string) (v : A) :
  k ∉ d.*1 -> table_get (d ++ [(k, v)]) k = Some v.
Proof.
  induction d as [|[k' w] d IH].
  - intros _. simpl. by rewrite decide_True.
  - rewrite fmap_cons. cbn [fst]. intros [Hne Hd]%not_elem_of_cons.
    simpl. rewrite decide_False by congruence. by apply IH.
Qed.

End table_facts.

Section score_facts.

Import Detect.

Variable re_search : string -> string -> bool.
Variable lines : list string.

Lemma bump_scored (scores : list (string * Z)) (language : string) (n : nat) :
  language ∉ scores.*1 ->
  bump (scored scores language n) language = scored scores language (S n).
Proof.
  intros Hfresh. unfold bump. destruct n as [|n]; cbn [scored].
  - apply table_get_None in Hfresh as Hget. rewrite Hget. simpl.
    by apply table_set_fresh.
  - rewrite table_get_last by done. cbn [default].
    rewrite table_set_last by done. unfold id.
    by replace (Z.of_nat (S n) + 1) with (Z.of_nat (S (S n))) by lia.
Qed.

Lemma score_lines_scored (scores : list (string * Z)) (language pattern : string)
    (ls : list string) (n : nat) :
  language ∉ scores.*1 ->
  score_lines re_search language pattern ls (scored scores language n)
  = scored scores language (n + matches re_search ls pattern).
Proof.
  intros Hfresh. unfold score_lines, matches. revert n.
  induction ls as [|line ls IH]; intros n; simpl.
  - by rewrite Nat.add_0_r.
  - destruct (re_search pattern (strip line)) eqn:Hm.
    + rewrite bump_scored by done. rewrite IH.
      rewrite filter_cons_True by done. cbn [length]. f_equal. lia.
    + rewrite IH. rewrite filter_cons_False; [done|]. by rewrite Hm.
Qed.

Lemma score_patterns_scored (scores : list (string * Z))
    (entry : string * list string) :
  entry.1 ∉ scores.*1 ->
  score_patterns re_search lines scores entry
  = scores ++ option_list (score_entry re_search lines entry).
Proof.
  intros Hfresh. destruct entry as [language patterns]. simpl in Hfresh.
  assert (forall n : nat,
            fold_left
              (fun scores pattern =>
                 score_lines re_search language pattern lines scores)
              patterns (scored scores language n)
            = scored scores language (n + score re_search lines patterns)) as Hgen.
  { unfold score. induction patterns as [|pattern patterns IH]; intros n; simpl.
    - by rewrite Nat.add_0_r.
    - rewrite score_lines_scored by done. rewrite IH. f_equal. lia. }
  unfold score_patterns, score_entry. cbn [fst snd].
  change scores with (scored scores language 0) at 1. rewrite Hgen. simpl.
  destruct (score re_search lines patterns); simpl; [by rewrite app_nil_r|done].
Qed.

Lemma score_entry_name (entry : string * list string) (b : string * Z) :
  score_entry re_search lines entry = Some b ->
  b.1 = entry.1 /\ b.2 = Z.of_nat (score re_search lines entry.2) /\ 0 < b.2.
Proof.
  unfold score_entry. destruct (score re_search lines entry.2); [done|].
  intros [= <-]. simpl. split; [done|]. split; [done|lia].
Qed.

Lemma score_table_entries (table : list (string * list string))
    (scores : list (string * Z)) :
  NoDup table.*1 ->
  (forall k : string, k ∈ table.*1 -> k ∉ scores.*1) ->
  fold_left (score_patterns re_search lines) table scores
  = scores ++ omap (score_entry re_search lines) table.
Proof.
  revert scores. induction table as [|entry table IH]; intros scores Hnd Hfresh.
  - simpl. by rewrite app_nil_r.
  - rewrite fmap_cons in Hnd. apply NoDup_cons in Hnd as [Hentry Hnd].
    cbn [fold_left]. rewrite score_patterns_scored.
    2: { apply Hfresh. rewrite fmap_cons. by left. }
    rewrite IH; [|done|].
    + rewrite <- app_assoc. f_equal. cbn [omap list_omap].
      by destruct (score_entry re_search lines entry).
    + intros k Hk. rewrite fmap_app. apply not_elem_of_app. split.
      * apply Hfresh. rewrite fmap_cons. by right.
      * destruct (score_entry re_search lines entry) as [b|] eqn:Hb; simpl.
        -- apply score_entry_name in Hb as [Hb _].
           intros ->%list_elem_of_singleton. congruence.
        -- apply not_elem_of_nil.
Qed.

Lemma omap_split {B C} (f : B -> option C) (l : list B) (pre' post' : list C)
    (y : C) :
  omap f l = pre' ++ y :: post' ->
  exists (pre post : list B) (x : B),
    l = pre ++ x :: post /\ f x = Some y
    /\ omap f pre = pre' /\ omap f post = post'.
Proof.
  revert pre'. induction l as [|a l IH]; intros pre'.
  - intros H. by destruct pre'.
  - cbn [omap list_omap]. destruct (f a) as [c|] eqn:Ha.
    + destruct pre' as [|c' pre']; simpl.
      * intros [= -> Hl]. exists [], l, a. by repeat split.
      * intros [= -> Hl]. apply IH in Hl as (pre & post & x & -> & Hx & <- & <-).
        exists (a :: pre), post, x. repeat split; [done|].
        cbn [omap list_omap]. by rewrite Ha.
    + intros Hl. apply IH in Hl as (pre & post & x & -> & Hx & <- & <-).
      exists (a :: pre), post, x. repeat split; [done|].
      cbn [omap list_omap]. by rewrite Ha.
Qed.

Lemma max_key_first (rest p1 p2 : list (string * Z)) (best : string * Z) :
  Forall (fun b => b.2 < best.2) p1 ->
  Forall (fun b => b.2 <= best.2) p2 ->
  exists (pre post : list (string * Z)) (k : string) (v : Z),
    p1 ++ best :: p2 ++ rest = pre ++ (k, v) :: post
    /\ max_key best rest = k
    /\ Forall (fun b => b.2 < v) pre
    /\ Forall (fun b => b.2 <= v) post.
Proof.
  revert p1 p2 best. induction rest as [|b rest IH]; intros p1 p2 best H1 H2.
  - exists p1, p2, best.1, best.2. rewrite app_nil_r. by destruct best.
  - simpl. destruct (Z.ltb_spec best.2 b.2) as [Hlt|Hge].
    + destruct (IH (p1 ++ best :: p2) [] b) as (pre & post & k & v & Heq & Hk & Hpre & Hpost).
      * apply Forall_app. split; [|constructor; [done|]].
        -- eapply Forall_impl; [exact H1|]. simpl. intros; lia.
        -- eapply Forall_impl; [exact H2|]. simpl. intros; lia.
      * constructor.
      * exists pre, post, k, v. split; [|done].
        rewrite <- Heq. by rewrite <- !app_assoc.
    + destruct (IH p1 (p2 ++ [b]) best) as (pre & post & k & v & Heq & Hk & Hpre & Hpost).
      * done.
      * apply Forall_app. split; [done|]. by repeat constructor.
      * exists pre, post, k, v. split; [|done].
        rewrite <- Heq. by rewrite <- !app_assoc.
Qed.

End score_facts.

Section detect_facts.

Import Detect.

Variable suffix : string -> string.
Variable re_search : string -> string -> bool.

Lemma content_patterns_NoDup : NoDup CONTENT_PATTERNS.*1.
Proof. apply (bool_decide_unpack _). by vm_compute. Qed.

Lemma omap_nil_all {B C} (f : B -> option C) (l : list B) :
  omap f l = [] <-> Forall (fun x => f x = None) l.
Proof.
  induction l as [|a l IH]; [by split; [constructor|]|].
  cbn [omap list_omap]. destruct (f a) eqn:Ha.
  - split; [done|]. intros H. inversion H; congruence.
  - rewrite IH. split; [by constructor|]. intros H. by inversion H.
Qed.

Lemma score_entry_None (lines : list string) (entry : string * list string) :
  score_entry re_search lines entry = None
  <-> score re_search lines entry.2 = 0%nat.
Proof. unfold score_entry. by destruct (score re_search lines entry.2). Qed.

(** The language chosen from a dictionary of scores built from a table of
    patterns. *)
Lemma score_table_choice (table : list (string * list string))
    (lines : list string) :
  NoDup table.*1 ->
  match score_table re_search table lines with
  | [] => Forall (fun e => score re_search lines e.2 = 0%nat) table
  | first :: rest =>
      exists (pre post : list (string * list string)) (patterns : list string),
        table = pre ++ (max_key first rest, patterns) :: post
        /\ (0 < score re_search lines patterns)%nat
        /\ Forall (fun e => (score re_search lines e.2
                             < score re_search lines patterns)%nat) pre
        /\ Forall (fun e => (score re_search lines e.2
                             <= score re_search lines patterns)%nat) post
  end.
Proof.
  intros Hnd. unfold score_table.
  rewrite score_table_entries; [|done|intros; apply not_elem_of_nil].
  rewrite app_nil_l.
  destruct (omap (score_entry re_search lines) table) as [|first rest] eqn:Hs.
  - apply omap_nil_all in Hs. eapply Forall_impl; [exact Hs|].
    intros e. apply score_entry_None.
  - destruct (max_key_first rest [] [] first)
      as (pre' & post' & k & v & Heq & Hk & Hpre & Hpost); [constructor..|].
    simpl in Heq. rewrite Heq in Hs.
    apply omap_split in Hs as (pre & post & x & -> & Hx & <- & <-).
    apply score_entry_name in Hx as (Hname & Hv & Hpos). simpl in Hname, Hv, Hpos.
    destruct x as [language patterns]. simpl in Hname, Hv. subst k.
    exists pre, post, patterns. rewrite Hk. split; [done|]. split; [lia|].
    split.
    + apply Forall_forall. intros e He.
      destruct (score_entry re_search lines e) as [b|] eqn:Hb.
      * assert (b ∈ omap (score_entry re_search lines) pre) as Hin.
        { apply list_elem_of_omap. by exists e. }
        rewrite Forall_forall in Hpre. apply Hpre in Hin.
        apply score_entry_name in Hb as (_ & Hb & _). lia.
      * apply score_entry_None in Hb. lia.
    + apply Forall_forall. intros e He.
      destruct (score_entry re_search lines e) as [b|] eqn:Hb.
      * assert (b ∈ omap (score_entry re_search lines) post) as Hin.
        { apply list_elem_of_omap. by exists e. }
        rewrite Forall_forall in Hpost. apply Hpost in Hin.
        apply score_entry_name in Hb as (_ & Hb & _). lia.
      * apply score_entry_None in Hb. lia.
Qed.

Lemma content_language_named (content language : string) :
  detect_language_from_content re_search content = Some language ->
  language ∈ CONTENT_PATTERNS.*1.
Proof.
  unfold detect_language_from_content.
  pose proof (score_table_choice CONTENT_PATTERNS
                (take 50 (split content nl)) content_patterns_NoDup) as H.
  destruct (score_table re_search CONTENT_PATTERNS (take 50 (split content nl)))
    as [|first rest]; [done|].
  destruct H as (pre & post & patterns & Heq & _). intros [= <-].
  rewrite Heq, fmap_app, fmap_cons. apply elem_of_app. right. by left.
Qed.

Lemma extension_languages :
  Forall (fun e => truthy e.2 = true /\ e.2 <> "unknown" /\ e.2 <> "kubernetes")
    EXTENSION_MAP.
Proof. unfold EXTENSION_MAP. repeat constructor; done. Qed.

Lemma extension_language (file_path language : string) :
  detect_language_from_extension suffix file_path = Some language ->
  truthy language = true /\ language <> "unknown" /\ language <> "kubernetes"
  /\ language ∈ EXTENSION_MAP.*2.
Proof.
  unfold detect_language_from_extension. intros H%table_get_elem.
  pose proof extension_languages as Hall. rewrite Forall_forall in Hall.
  destruct (Hall _ H) as (? & ? & ?). repeat split; [done..|].
  apply list_elem_of_fmap. by exists (extension suffix file_path, language).
Qed.

Lemma pattern_languages :
  Forall (fun k => truthy k = true /\ k <> "unknown") CONTENT_PATTERNS.*1.
Proof. repeat constructor; done. Qed.

Lemma detect_without_content (file_path : string) :
  detect_language suffix re_search file_path None
  = default "unknown" (detect_language_from_extension suffix file_path).
Proof.
  unfold detect_language.
  destruct (detect_language_from_extension suffix file_path) as [l|] eqn:Hl;
    [|done].
  apply extension_language in Hl as (Ht & _). simpl. rewrite Ht.
  by rewrite andb_false_r.
Qed.

Lemma skipped_not_mapped (ext : string) :
  ext ∈ skip_extensions -> table_get EXTENSION_MAP ext = None.
Proof.
  unfold skip_extensions. rewrite elem_of_list_to_set. intros H.
  repeat (apply elem_of_cons in H as [->|H]; [done|]).
  by apply elem_of_nil in H.
Qed.

Lemma table_get_of_elem {A} (d : list (string * A)) (k : string) (v : A) :
  NoDup d.*1 -> (k, v) ∈ d -> table_get d k = Some v.
Proof.
  induction d as [|[k' v'] d IH]; [by intros _ ?%elem_of_nil|].
  rewrite fmap_cons. cbn [fst]. intros [Hk Hd]%NoDup_cons.
  intros [[= -> ->]|Hin]%elem_of_cons; simpl.
  - by rewrite decide_True.
  - rewrite decide_False; [by apply IH|].
    intros ->. apply Hk. apply list_elem_of_fmap. by exists (k, v).
Qed.

(** What the loop of [categorize_files] keeps true, [seen] being the files
    gone through. *)
Lemma categorize_fold (file_list seen : list string)
    (categories : list (string * list string)) :
  NoDup categories.*1 ->
  (forall language : string,
     table_get categories language
     = match filter (fun p => detect_language suffix re_search p None = language)
               seen with
       | [] => None
       | files => Some files
       end) ->
  let categories' :=
    fold_left (categorize_step suffix re_search) file_list categories in
  NoDup categories'.*1
  /\ forall language : string,
       table_get categories' language
       = match filter (fun p => detect_language suffix re_search p None = language)
                 (seen ++ file_list) with
         | [] => None
         | files => Some files
         end.
Proof.
  revert seen categories.
  induction file_list as [|p file_list IH]; intros seen categories Hnd Hget.
  { simpl. by rewrite app_nil_r. }
  cbn [fold_left]. replace (seen ++ p :: file_list) with ((seen ++ [p]) ++ file_list)
    by by rewrite <- app_assoc.
  apply IH.
  - unfold categorize_step. apply table_set_NoDup.
    destruct (table_get categories _); [done|by apply table_set_NoDup].
  - intros language. unfold categorize_step.
    set (lang := detect_language suffix re_search p None).
    rewrite table_get_set, filter_app.
    assert (default [] (table_get
                          match table_get categories lang with
                          | Some _ => categories
                          | None => table_set categories lang []
                          end lang)
            = filter (fun p => detect_language suffix re_search p None = lang) seen)
      as ->.
    { pose proof (Hget lang) as Hl.
      destruct (table_get categories lang) as [files|] eqn:Hfiles.
      - rewrite Hfiles.
        by destruct (filter _ seen); simplify_eq.
      - rewrite table_get_set, decide_True by done.
        by destruct (filter _ seen); simplify_eq. }
    destruct (decide (lang = language)) as [<-|Hne].
    + rewrite filter_cons_True by done. rewrite filter_nil.
      by destruct (filter _ seen).
    + rewrite filter_cons_False by done. rewrite filter_nil, app_nil_r.
      rewrite <- Hget.
      destruct (table_get categories lang); [done|].
      by rewrite table_get_set, decide_False.
Qed.

End detect_facts.

(** X20.  [detect_language_from_content] looks at the first 50 lines only.
    It answers [None] exactly when no pattern of any language is found in
    any of them; otherwise it answers a language whose score, the number of
    pairs of one of its patterns and a line the pattern is found in, is
    positive, greater than the score of every language before it in
    [CONTENT_PATTERNS] and at least the score of every language after
    it. *)
Theorem content_language_spec (re_search : string -> string -> bool)
    (content : string) :
  let lines := take 50 (split content nl) in
  (Detect.detect_language_from_content re_search content = None
   <-> Forall (fun e => score re_search lines e.2 = 0%nat) Detect.CONTENT_PATTERNS)
  /\ forall language : string,
       Detect.detect_language_from_content re_search content = Some language ->
       exists (pre post : list (string * list string)) (patterns : list string),
         Detect.CONTENT_PATTERNS = pre ++ (language, patterns) :: post
         /\ (0 < score re_search lines patterns)%nat
         /\ Forall (fun e => (score re_search lines e.2
                              < score re_search lines patterns)%nat) pre
         /\ Forall (fun e => (score re_search lines e.2
                              <= score re_search lines patterns)%nat) post.
Proof.
  intros lines. unfold Detect.detect_language_from_content. fold lines.
  pose proof (score_table_choice re_search Detect.CONTENT_PATTERNS lines
                content_patterns_NoDup) as H.
  destruct (Detect.score_table re_search Detect.CONTENT_PATTERNS lines)
    as [|first rest].
  - split; [done|]. by intros language [=].
  - destruct H as (pre & post & patterns & Heq & Hpos & Hpre & Hpost). split.
    + split; [done|]. intros Hall. exfalso.
      rewrite Heq in Hall.
      apply Forall_app in Hall as [_ Hall]. inversion Hall as [|? ? Hx _].
      simpl in Hx. lia.
    + intros language [= <-]. by exists pre, post, patterns.
Qed.

(** X21.  [categorize_files] groups the files by their language, a file
    without known extension under "unknown": the languages are pairwise
    different, the list under a language holds the files of that language
    in the order of the file list and is not empty, every file is under its
    language, and no file is ever under "kubernetes". *)
Theorem categorize_files_spec (suffix : string -> string)
    (re_search : string -> string -> bool) (file_list : list string) :
  let categories := Detect.categorize_files suffix re_search file_list in
  let language p :=
    default "unknown" (Detect.detect_language_from_extension suffix p) in
  NoDup categories.*1
  /\ Forall (fun c => c.2 <> []
                      /\ c.2 = filter (fun p => language p = c.1) file_list)
       categories
  /\ (forall p : string,
        p ∈ file_list ->
        exists files : list string,
          (language p, files) ∈ categories /\ p ∈ files)
  /\ "kubernetes" ∉ categories.*1.
Proof.
  intros categories language.
  destruct (categorize_fold suffix re_search file_list [] []) as [Hnd Hget];
    [constructor|done|].
  fold (Detect.categorize_files suffix re_search file_list) in Hnd, Hget.
  fold categories in Hnd, Hget. rewrite app_nil_l in Hget.
  assert (forall l : string,
            filter (fun p => Detect.detect_language suffix re_search p None = l)
              file_list
            = filter (fun p => language p = l) file_list) as Hsame.
  { intros l. apply list_filter_iff. intros p. unfold language.
    by rewrite detect_without_content. }
  assert (forall c, c ∈ categories ->
            c.2 <> [] /\ c.2 = filter (fun p => language p = c.1) file_list)
    as Hentry.
  { intros [l files] Hc. apply table_get_of_elem in Hc; [|done].
    rewrite Hget, Hsame in Hc. simpl.
    by destruct (filter _ file_list); simplify_eq. }
  split; [done|]. split; [by apply Forall_forall|]. split.
  - intros p Hp.
    assert (p ∈ filter (fun q => language q = language p) file_list) as Hin.
    { by apply list_elem_of_filter. }
    pose proof (Hget (language p)) as Hl. rewrite Hsame in Hl.
    destruct (filter _ file_list) as [|q files] eqn:Hfiles; [by inversion Hin|].
    exists (q :: files). split; [by apply table_get_elem|done].
  - intros ([l files] & Hl & Hc)%list_elem_of_fmap. simpl in Hl. subst l.
    destruct (Hentry _ Hc) as [Hne Hfiles]. simpl in Hne, Hfiles.
    destruct files as [|p files]; [done|].
    assert (p ∈ filter (fun p => language p = "kubernetes") file_list) as Hp.
    { rewrite <- Hfiles. by left. }
    apply list_elem_of_filter in Hp as [Hp _]. unfold language in Hp.
    destruct (Detect.detect_language_from_extension suffix p) as [l|] eqn:Hext;
      [|done].
    apply extension_language in Hext as (_ & _ & Hk & _). by simpl in Hp.
Qed.

(** X22.  [is_code_file] holds exactly for the files whose extension is in
    [EXTENSION_MAP], that is, the files that [detect_language] without
    content does not call "unknown": no extension of the skip list is in the
    map. *)
Theorem is_code_file_spec (suffix : string -> string)
    (re_search : string -> string -> bool) (file_path : string) :
  (Detect.is_code_file suffix file_path = true
   <-> is_Some (Detect.detect_language_from_extension suffix file_path))
  /\ (Detect.is_code_file suffix file_path = true
      <-> Detect.detect_language suffix re_search file_path None <> "unknown").
Proof.
  assert (Detect.is_code_file suffix file_path = true
          <-> is_Some (Detect.detect_language_from_extension suffix file_path))
    as Hiff.
  { unfold Detect.is_code_file, Detect.detect_language_from_extension.
    case_bool_decide as Hskip.
    - rewrite (skipped_not_mapped _ Hskip). split; [done|]. by intros [? [=]].
    - apply bool_decide_eq_true. }
  split; [done|]. rewrite Hiff, detect_without_content.
  destruct (Detect.detect_language_from_extension suffix file_path) as [l|] eqn:Hl.
  - apply extension_language in Hl as (_ & Hu & _). simpl. split; [done|].
    by eexists.
  - simpl. split; [by intros [? [=]]|done].
Qed.

(** X23.  [detect_language] lets the extension decide: a known extension
    other than YAML's gives its language whatever the content.  The answer
    is "kubernetes" exactly when the content is not empty and scores highest
    for it while the extension is YAML's or unknown, and "unknown" exactly
    when the extension is unknown and the content is missing, empty or without
    any pattern. *)
Theorem detect_language_spec (suffix : string -> string)
    (re_search : string -> string -> bool) (file_path : string)
    (content : option string) :
  let by_extension := Detect.detect_language_from_extension suffix file_path in
  let by_content :=
    Detect.detect_language_from_content re_search (default "" content) in
  let answer := Detect.detect_language suffix re_search file_path content in
  (forall language : string,
     by_extension = Some language -> language <> "yaml" -> answer = language)
  /\ (answer = "kubernetes"
      <-> (by_extension = Some "yaml" \/ by_extension = None)
          /\ Detect.truthy_opt content = true
          /\ by_content = Some "kubernetes")
  /\ (answer = "unknown"
      <-> by_extension = None
          /\ (Detect.truthy_opt content = false \/ by_content = None)).
Proof.
  intros by_extension by_content answer.
  unfold answer, Detect.detect_language. fold by_extension by_content.
  destruct by_extension as [l|] eqn:Hext.
  - apply extension_language in Hext as (Ht & Hu & Hk & _).
    cbn [Detect.truthy_opt default]. rewrite Ht.
    destruct (decide (l = "yaml")) as [->|Hyaml].
    + rewrite bool_decide_eq_true_2 by done. cbn [andb].
      destruct (Detect.truthy_opt content) eqn:Hc.
      * case_bool_decide as Hkube.
        -- split; [by intros ? [= <-]|]. split; [by intuition|].
           split; [done|]. by intros [[=] _].
        -- split; [by intros ? [= <-]|]. split.
           ++ split; [done|]. by intros (_ & _ & ?).
           ++ split; [done|]. by intros [[=] _].
      * split; [by intros ? [= <-]|]. split.
        -- split; [done|]. by intros (_ & ? & _).
        -- split; [done|]. by intros [[=] _].
    + rewrite bool_decide_eq_false_2 by congruence. cbn [andb].
      split; [by intros ? [= <-]|]. split.
      * split; [done|]. intros ([[= ->]|[=]] & _). done.
      * split; [done|]. by intros [[=] _].
  - cbn [Detect.truthy_opt]. split; [by intros ? [=]|].
    destruct (Detect.truthy_opt content) eqn:Hc.
    + destruct by_content as [l|] eqn:Hcontent.
      * pose proof (content_language_named re_search _ _ Hcontent) as Hin.
        pose proof pattern_languages as Hall. rewrite Forall_forall in Hall.
        destruct (Hall _ Hin) as [Ht Hu]. cbn [Detect.truthy_opt default].
        unfold id. rewrite Ht. split.
        -- split; [intros ->; by intuition|]. by intros (_ & _ & [= ->]).
        -- split; [done|]. by intros [_ [[=]|[=]]].
      * cbn [Detect.truthy_opt]. split.
        -- split; [done|]. by intros (_ & _ & [=]).
        -- split; [|done]. intros _. split; [done|by right].
    + split.
      * split; [done|]. by intros (_ & [=] & _).
      * split; [|done]. intros _. split; [done|by left].
Qed.

(** ** The client of the model *)

Section client_facts.

Import Client.

Lemma lstrip_slash_slashes (s t : string) :
  slashes s = true -> Filter.lstrip_slash (s +:+ t) = Filter.lstrip_slash t.
Proof.
  unfold slashes. induction s as [|c s IH]; [done|]. simpl.
  intros [Hc Hs]%andb_true_iff. rewrite ?str_app_cons. simpl.
  rewrite Hc. by apply IH.
Qed.

Lemma lstrip_slash_split (s : string) :
  exists sl : string, slashes sl = true /\ s = sl +:+ Filter.lstrip_slash s.
Proof.
  induction s as [|c s (sl & Hsl & Hs)]; [by exists ""|]. simpl.
  destruct (Ascii.eqb c "/") eqn:Hc.
  - exists (String c sl). split.
    + unfold slashes in *. simpl. by rewrite Hc, Hsl.
    + rewrite str_app_cons. by f_equal.
  - by exists "".
Qed.

Lemma lstrip_slash_head (s r : string) : Filter.lstrip_slash s <> String "/" r.
Proof.
  induction s as [|c s IH]; [done|]. simpl.
  destruct (Ascii.eqb_spec c "/") as [->|Hc]; [done|]. congruence.
Qed.

Lemma slashes_rev (s : string) : slashes (String.rev s) = slashes s.
Proof. apply all_chars_rev. Qed.

Lemma rstrip_slash_slashes (s sl : string) :
  slashes sl = true -> rstrip_slash (s +:+ sl) = rstrip_slash s.
Proof.
  intros Hsl. unfold rstrip_slash. rewrite rev_app_str.
  rewrite lstrip_slash_slashes; [done|]. by rewrite slashes_rev.
Qed.

Lemma mock_added (responses : list string) (self : mock) :
  fold_left add_mock_response responses self
  = Mock (mock_responses self ++ responses) (_response_index self).
Proof.
  revert self. induction responses as [|r responses IH]; intros self; simpl.
  - rewrite app_nil_r. by destruct self.
  - rewrite IH. simpl. by rewrite <- app_assoc.
Qed.

Lemma mock_queries_run (n : nat) (responses : list string) (index : Z) :
  responses <> [] ->
  mock_queries n (Mock responses index)
  = (map (fun k : nat =>
            default "" (responses
                        !! Z.to_nat ((index + Z.of_nat k)
                                     mod Z.of_nat (length responses))))
       (seq 0 n),
     Mock responses (index + Z.of_nat n)).
Proof.
  intros Hne. revert index. induction n as [|n IH]; intros index.
  - simpl. by rewrite Z.add_0_r.
  - cbn [mock_queries]. unfold mock_query at 1. cbn [mock_responses _response_index].
    destruct responses as [|r0 responses0] eqn:Hrs; [done|]. rewrite <- Hrs in *.
    rewrite IH. cbn [seq map]. rewrite Z.add_0_r. f_equal.
    + f_equal. rewrite <- seq_shift, map_map. apply map_ext. intros k.
      do 4 f_equal. lia.
    + f_equal. lia.
Qed.

Lemma mock_queries_default (n : nat) :
  mock_queries n mock_init = (replicate n default_mock_response, mock_init).
Proof. induction n as [|n IH]; [done|]. cbn [mock_queries]. simpl. by rewrite IH. Qed.

Lemma to_nat_mod (k n : nat) :
  Z.to_nat ((0 + Z.of_nat k) mod Z.of_nat n) = (k mod n)%nat.
Proof. by rewrite Z.add_0_l, <- Nat2Z.inj_mod, Nat2Z.id. Qed.

End client_facts.

(** X24.  The mock client answers in turn: after the responses were added
    to a new client, the [k]-th query from then on returns the response
    at position [k] modulo their number, so as many queries as there are
    responses return the responses in their order; a client without
    responses returns the default response to every query. *)
Theorem mock_round_robin (responses : list string) (n : nat) :
  let self := fold_left Client.add_mock_response responses Client.mock_init in
  (responses <> [] ->
   (Client.mock_queries (length responses) self).1 = responses
   /\ length (Client.mock_queries n self).1 = n
   /\ forall k : nat,
        (k < n)%nat ->
        (Client.mock_queries n self).1 !! k
        = responses !! (k mod length responses)%nat)
  /\ (Client.mock_queries n Client.mock_init).1
     = replicate n Client.default_mock_response.
Proof.
  intros self. split; [|by rewrite mock_queries_default].
  intros Hne. unfold self. rewrite mock_added. simpl.
  rewrite !mock_queries_run by done. cbn [fst].
  assert (forall k : nat,
            default "" (responses
                        !! Z.to_nat ((0 + Z.of_nat k)
                                     mod Z.of_nat (length responses)))
            = default "" (responses !! (k mod length responses)%nat)) as Hk.
  { intros k. by rewrite to_nat_mod. }
  assert (forall k : nat,
            Some (default "" (responses !! (k mod length responses)%nat))
            = responses !! (k mod length responses)%nat) as Hsome.
  { intros k.
    destruct (lookup_lt_is_Some_2 responses (k mod length responses)%nat)
      as [r ->]; [|done].
    apply Nat.mod_upper_bound. by destruct responses. }
  split; [|split].
  - apply list_eq. intros k.
    destruct (decide (k < length responses)%nat) as [Hlt|Hge].
    + rewrite (list_lookup_fmap _ (seq 0 (length responses)) k).
      rewrite lookup_seq_lt by done. simpl. rewrite Hk, Hsome.
      by rewrite Nat.mod_small.
    + rewrite !lookup_ge_None_2; [done|lia|]. rewrite length_map, length_seq. lia.
  - by rewrite length_map, length_seq.
  - intros k Hlt.
    rewrite (list_lookup_fmap _ (seq 0 n) k).
    rewrite lookup_seq_lt by done. simpl. by rewrite Hk, Hsome.
Qed.

Lemma mock_round_robin_witness :
  (Client.mock_queries 2
     (fold_left Client.add_mock_response ["a"; "b"] Client.mock_init)).1
  = ["a"; "b"].
Proof.
  apply (proj1 (mock_round_robin ["a"; "b"] 5)). discriminate.
Defined.

(** X25.  Provided the upper case of the empty text is the empty text,
    [health_check] holds exactly when the query returned a response that is
    not empty: the test for "OK" decides nothing. *)
Theorem health_check_spec (upper : string -> string) (queried : outcome string) :
  upper "" = "" ->
  (Client.health_check upper queried = true
   <-> exists response : string, queried = Returned response /\ response <> "").
Proof.
  intros Hupper. destruct queried as [response|exception message]; simpl.
  - destruct response as [|c response].
    + rewrite Hupper. simpl. split; [done|]. by intros (? & [= <-] & ?).
    + rewrite orb_true_iff. split; [|by right].
      intros _. by eexists.
  - split; [done|]. by intros (? & [=] & _).
Qed.

Lemma health_check_spec_witness :
  Client.health_check (fun s => s) (Returned "failure") = true
  <-> exists response : string,
        Returned "failure" = Returned response /\ response <> "".
Proof. apply (health_check_spec (fun s => s) (Returned "failure")). reflexivity. Defined.

(** X26.  The endpoint URL does not depend on slashes at the end of the
    host: the client keeps the host without them, so the kept host ends with
    no slash and the host given is the kept host followed by slashes
    only. *)
Theorem endpoint_url_slashes (host token endpoint : string) (timeout : Z) :
  let self := Client.init host token endpoint timeout in
  (forall sl : string,
     slashes sl = true ->
     Client.endpoint_url (Client.init (host +:+ sl) token endpoint timeout)
     = Client.endpoint_url self)
  /\ (exists sl : string, slashes sl = true /\ host = Client.host self +:+ sl)
  /\ (forall r : string, Client.host self <> r +:+ "/").
Proof.
  intros self. split; [|split].
  - intros sl Hsl. unfold Client.endpoint_url, Client.init. simpl.
    by rewrite rstrip_slash_slashes.
  - unfold self, Client.init, Client.rstrip_slash. simpl.
    destruct (lstrip_slash_split (String.rev host)) as (sl & Hsl & Hsplit).
    exists (String.rev sl). split; [by rewrite slashes_rev|].
    rewrite <- rev_app_str, <- Hsplit. by rewrite rev_involutive_str.
  - intros r. unfold self, Client.init, Client.rstrip_slash. simpl.
    intros Heq. apply (f_equal String.rev) in Heq.
    rewrite rev_involutive_str, rev_app_str in Heq.
    by apply lstrip_slash_head in Heq.
Qed.

(** X27.  The head of the review follows the violations: it reads "Passed"
    exactly when there are none, "Critical Issues Found" exactly when one of
    them is critical, whatever the case of the letters, and ": Issues Found"
    exactly when none is critical and one is high; otherwise it reads
    "Suggestions". *)
Theorem review_head_spec (violations : list violation) :
  let header := (Report.review_head violations).1 in
  let some sev :=
    exists v : violation, v ∈ violations /\ Review.effective_severity v = sev in
  (Client.contains "Passed" header = true <-> violations = [])
  /\ (Client.contains "Critical Issues Found" header = true <-> some "critical")
  /\ (Client.contains ": Issues Found" header = true
      <-> ~ some "critical" /\ some "high")
  /\ (Client.contains "Suggestions" header = true
      <-> violations <> [] /\ ~ some "critical" /\ ~ some "high").
Proof.
  intros header some.
  assert (forall sev : string,
            sev ∈ map Review.effective_severity violations <-> some sev) as Hsome.
  { intros sev. unfold some. rewrite list_elem_of_In, in_map_iff.
    split; intros (v & H1 & H2); exists v; by rewrite ?list_elem_of_In in *. }
  rewrite <- (Hsome "critical"), <- (Hsome "high"). clear Hsome. subst header.
  destruct violations as [|w ws].
  { simpl. repeat split; try done.
    - by intros ?%elem_of_nil.
    - by intros [_ ?%elem_of_nil].
    - by intros [? _]. }
  set (vs := w :: ws).
  assert (Review.get_max_severity vs
          = default "medium"
              (Review.first_present Review.SEVERITY_ORDER
                 (map Review.effective_severity vs))) as Hmax by done.
  assert (vs <> []) as Hne by done.
  unfold Report.review_head.
  change (Z.of_nat (length vs) =? 0) with false. cbv iota.
  rewrite Hmax. unfold Review.SEVERITY_ORDER. cbn [Review.first_present].
  generalize dependent (map Review.effective_severity vs). intros sevs.
  repeat case_bool_decide; cbn [default]; unfold id;
    match goal with
    | |- context [String.eqb ?a "critical"] =>
        let b := eval vm_compute in (String.eqb a "critical") in
        change (String.eqb a "critical") with b
    end; cbv iota;
    repeat match goal with
    | |- context [String.eqb ?a "high"] =>
        let b := eval vm_compute in (String.eqb a "high") in
        change (String.eqb a "high") with b
    end; cbv iota; cbn [fst];
    repeat match goal with
    | |- context [Client.contains ?a ?h] =>
        let b := eval vm_compute in (Client.contains a h) in
        change (Client.contains a h) with b
    end;
    intuition congruence.
Qed.

(** ** [main] of [analyze_code.py] *)

Section analyze_main_facts.

Import Analyzer.

Variable json_loads : string -> outcome payload.
Context {client : Type}.
Variable query : client -> string -> string -> outcome string * client.
Variable system_prompt : string.
Variable language : option string.

Hypothesis json_loads_object :
  forall t : string,
    (exists r : result, json_loads t = Returned (PObject r))
    \/ (exists message : string,
          json_loads t = Raised Normalizer.JSONDecodeError message).

Lemma normalize_object (response : string) :
  exists r : result,
    Normalizer.normalize json_loads response = Returned (PObject r).
Proof.
  unfold Normalizer.normalize.
  destruct (json_loads_object (Normalizer.response_text response))
    as [[r ->]|[message ->]]; by eexists.
Qed.

Lemma query_run_length (self : client) (messages : list string) :
  length (query_run query self system_prompt messages) = length messages.
Proof.
  revert self. induction messages as [|message messages IH]; intros self; [done|].
  simpl. destruct (query self system_prompt message) as [response self'].
  simpl. by rewrite IH.
Qed.

Lemma analyze_all_run (chunks : list string) (self : client) :
  let run :=
    query_run query self system_prompt
      (map (fun chunk => Normalizer.user_message chunk language) chunks) in
  (forall responses : list string,
     run = map Returned responses ->
     exists results : list result,
       Forall2
         (fun response r =>
            Normalizer.normalize json_loads response = Returned (PObject r))
         responses results
       /\ analyze_all json_loads query self chunks system_prompt language
          = Returned (map PObject results))
  /\ (forall (responses : list string) (exception message : string)
        (later : list (outcome string)),
        run = map Returned responses ++ Raised exception message :: later ->
        analyze_all json_loads query self chunks system_prompt language
        = Raised exception message).
Proof.
  revert self. induction chunks as [|chunk chunks IH]; intros self run.
  { split.
    - intros [|? ?] [=]. by exists [].
    - by intros [|? ?] ? ? ? [=]. }
  unfold run. cbn [map query_run analyze_all]. unfold Normalizer.analyze_with_llm.
  destruct (query self system_prompt (Normalizer.user_message chunk language))
    as [outcome self'].
  destruct (IH self') as [IHok IHraise]. split.
  - intros [|response responses]; [done|]. intros [= -> Hrun].
    destruct (normalize_object response) as [r Hr].
    destruct (IHok responses Hrun) as (results & Hall & Hres).
    exists (r :: results). split; [by constructor|].
    cbn [bind]. rewrite Hr. cbn [bind]. by rewrite Hres.
  - intros [|response responses] exception message later.
    + by intros [= -> _].
    + intros [= -> Hrun]. destruct (normalize_object response) as [r Hr].
      cbn [bind]. rewrite Hr. cbn [bind].
      by rewrite (IHraise responses exception message later Hrun).
Qed.

Lemma merge_inputs_objects (results : list result) :
  merge_inputs (map PObject results) = Returned results.
Proof. induction results as [|r results IH]; [done|]. simpl. by rewrite IH. Qed.

End analyze_main_facts.

Lemma chunk_diff_nil_blank (d : string) (m : Z) :
  Chunker.chunk_diff d m = [] -> blank d = true.
Proof.
  intros Hnil.
  pose proof (chunk_sections_concat d m) as Hcat.
  pose proof (dropped_preamble_blank d m) as Hblank.
  rewrite chunk_diff_sections in Hnil. apply map_eq_nil in Hnil.
  rewrite Hnil in Hcat. simpl in Hcat. rewrite str_app_nil_r in Hcat.
  rewrite Hcat in Hblank. by apply strip_empty_blank.
Qed.



